(** * CODO-AI competitive match: client match page and match services

    A shallow embedding of the match page [CompetitiveMatch]
    (src/src/context/ThemeContext.jsx), of the scoring rule recorded in
    src/SCORING_FIX.md, and of the server-side match and execution services
    that the repository's notes describe.

    Conventions of the embedding
    - React state is passed explicitly: every handler is a function of the
      state values it closes over.
    - A JavaScript number that holds a count of seconds or milliseconds is a
      [Z] (a Number holds every integer below 2^53 exactly); a fractional
      time is a [Q]; [undefined]/[null] is [None].
    - [x || d] on a number is [js_or]: the default is taken when [x] is
      missing or zero, as JavaScript's truthiness has it.
    - A Python float is a double ([Binary64]): every operation rounds its
      exact result to the nearest double, ties to even. *)

From Stdlib Require Import ZArith NArith QArith Lqa List Bool Lia.
From Stdlib Require Import String Ascii Permutation Sorted.
From Stdlib Require Import DecimalString DecimalZ Qround Qpower.
Import ListNotations.

Open Scope Z_scope.

(* ================================================================== *)
(** ** JavaScript values *)

Module Js.

(** [x || d] for a number [x] that may be absent. *)
Definition js_or (x : option Z) (d : Z) : Z :=
  match x with
  | Some 0 => d
  | Some n => n
  | None => d
  end.

(** Truthiness of a string that may be [null]: the empty string is falsy. *)
Definition truthy_str (s : option string) : bool :=
  match s with
  | Some EmptyString => false
  | Some _ => true
  | None => false
  end.

(** [s.endsWith(c)] for a one-character [c]. *)
Definition endsWith (s : string) (c : ascii) : bool :=
  match rev (list_ascii_of_string s) with
  | last :: _ => Ascii.eqb last c
  | [] => false
  end.

(** [s.includes(c)] for a one-character [c]. *)
Definition includes (s : string) (c : ascii) : bool :=
  existsb (Ascii.eqb c) (list_ascii_of_string s).

(** [Array.prototype.sort(cmp)]: the sort is stable (ECMAScript 2019), so
    for a consistent comparator the result is the one of any stable sort.
    [insert x l] puts [x] in front of the first element that [x] does not
    come after; [x] is older in the array than all of [l]. *)
Section Sort.
Context {A : Type}.
Variable cmp : A -> A -> comparison.

Fixpoint insert (x : A) (l : list A) : list A :=
  match l with
  | [] => [x]
  | y :: l' =>
      match cmp x y with
      | Gt => y :: insert x l'
      | _ => x :: l
      end
  end.

Fixpoint sort (l : list A) : list A :=
  match l with
  | [] => []
  | x :: l' => insert x (sort l')
  end.
End Sort.

(** A comparator on tagged elements that looks at the element only. *)
Definition on_snd {T A : Type} (cmp : A -> A -> comparison) (a b : T * A)
    : comparison :=
  cmp (snd a) (snd b).

End Js.

(* ================================================================== *)
(** ** The match page: timer and timeout check *)

Module Client.
Import Js.

(** The fields of the match object (GET /competitive/matches/:id) that the
    timer and the timeout check read. *)
Record Match := mkMatch {
  status : string;
  time_limit_seconds : option Z;
  started_at : option string
}.

Section Timer.
(** [new Date(s).getTime()]: milliseconds since the epoch, [None] when
    the date does not parse (NaN). *)
Variable parseDate : string -> option Z.

(** The server sends a naive UTC datetime; a ['Z'] is appended unless
    the string already carries a zone. *)
Definition utcTimestamp (matchStartTime : string) : string :=
  if endsWith matchStartTime "Z" || includes matchStartTime "+"
  then matchStartTime
  else (matchStartTime ++ "Z")%string.

(** [updateTimer]: the value handed to [setTimeElapsed] at the instant
    [now] (= [Date.now()]); [None] is NaN. *)
Definition updateTimer (matchStartTime : string) (now : Z) : option Z :=
  match parseDate (utcTimestamp matchStartTime) with
  | Some startTime =>
      let elapsed := (now - startTime) / 1000 in
      Some (Z.max 0 elapsed)
  | None => None
  end.

(** The timer effect: it runs only with a start time and while the match
    is not completed; otherwise [timeElapsed] keeps its value. *)
Definition timerEffect (matchStartTime : option string)
    (matchCompleted : bool) (timeElapsed : option Z) (now : Z)
    : option Z :=
  match matchStartTime with
  | Some s =>
      if truthy_str matchStartTime && negb matchCompleted
      then updateTimer s now
      else timeElapsed
  | None => timeElapsed
  end.
End Timer.

(** [const timeLimit = match.time_limit_seconds || 900]. *)
Definition timeLimit (m : Match) : Z := js_or (time_limit_seconds m) 900.

(** The timeout effect: [true] when it calls [handleTimeExpired].  Without
    a match object the effect returns at once; with a NaN [timeElapsed]
    every comparison is false and [timeRemaining === 0] fails. *)
Definition timeoutCheck (m : option Match) (matchStartTime : option string)
    (matchCompleted : bool) (timeElapsed : option Z) : bool :=
  match m, timeElapsed with
  | Some m, Some timeElapsed =>
      if negb (truthy_str matchStartTime) || matchCompleted then false
      else if timeLimit m <=? 0 then false
      else if negb (String.eqb (status m) "active") then false
      else if timeElapsed <? 10 then false
      else
        let timeRemaining := Z.max 0 (timeLimit m - timeElapsed) in
        (timeRemaining =? 0) && (timeLimit m <=? timeElapsed)
  | _, _ => false
  end.

(** The [code] state: the editor's string; or, should something else have
    been stored there, a falsy value or an object, the latter with what
    [String(code)] makes of it. *)
Inductive CodeValue :=
| CodeString (s : string)
| CodeMissing
| CodeObject (rendered : string).

(** [typeof code === 'string' ? code : String(code || '')]. *)
Definition codeString (code : CodeValue) : string :=
  match code with
  | CodeString s => s
  | CodeMissing => EmptyString
  | CodeObject rendered => rendered
  end.

(** The body that [handleSubmit] posts (the mode-specific extras apart). *)
Record SubmissionBody := mkBody {
  match_id : string;
  body_code : string;
  body_language : string;
  force_submit : bool
}.

Definition submissionBody (matchId : string) (code : CodeValue)
    (language : string) (forceSubmit : bool) : SubmissionBody :=
  mkBody matchId (codeString code) language forceSubmit.

(** [handleTimeExpired] is [handleSubmit(true)]: the body it posts. *)
Definition handleTimeExpired (matchId : string) (code : CodeValue)
    (language : string) : SubmissionBody :=
  submissionBody matchId code language true.

(** The completion rule of section 4.5 step 4 as it would show on the
    page: an active match with a positive time limit is finalized as soon
    as the elapsed time reaches the limit. *)
Definition finalized_when_limit_reached : Prop :=
  forall (mt : Match) (limit el : Z),
    status mt = "active"%string ->
    time_limit_seconds mt = Some limit -> 0 < limit ->
    limit <= el ->
    timeoutCheck (Some mt) (started_at mt) false (Some el) = true.

End Client.

(* ================================================================== *)
(** ** The match page: leaderboard order *)

Module Ranking.
Local Open Scope Q_scope.

(** The numbers the comparator computes with.  A finite double is taken as
    the rational it denotes: a difference of two doubles has the sign of
    the exact difference, and only the sign reaches the sort. *)
Inductive jsnum :=
| Num (q : Q)
| PosInf
| NegInf
| NaN.

(** [a - b]. *)
Definition jsub (a b : jsnum) : jsnum :=
  match a, b with
  | NaN, _ | _, NaN => NaN
  | Num x, Num y => Num (x - y)
  | PosInf, PosInf => NaN
  | NegInf, NegInf => NaN
  | PosInf, _ => PosInf
  | NegInf, _ => NegInf
  | Num _, PosInf => NegInf
  | Num _, NegInf => PosInf
  end.

(** A number is falsy when it is zero or NaN. *)
Definition truthy (n : jsnum) : bool :=
  match n with
  | Num q => negb (Qeq_bool q 0)
  | NaN => false
  | PosInf | NegInf => true
  end.

(** [x || d] where the field [x] may be [undefined]. *)
Definition num_or (x : option Q) (d : jsnum) : jsnum :=
  match x with
  | Some q => if truthy (Num q) then Num q else d
  | None => d
  end.

(** What the sort makes of the comparator's value: its sign, and NaN
    counts as +0. *)
Definition sign (n : jsnum) : comparison :=
  match n with
  | Num q => q ?= 0
  | PosInf => Gt
  | NegInf => Lt
  | NaN => Eq
  end.

(** A player object of [data.players]. *)
Record Player := mkPlayer {
  user_id : string;
  username : string;
  score : option Q;
  time_elapsed : option Q
}.

(** [(b.score || 0) - (a.score || 0) ||
     (a.time_elapsed || Infinity) - (b.time_elapsed || Infinity)]. *)
Definition comparator (a b : Player) : jsnum :=
  let byScore := jsub (num_or (score b) (Num 0)) (num_or (score a) (Num 0)) in
  if truthy byScore then byScore
  else jsub (num_or (time_elapsed a) PosInf) (num_or (time_elapsed b) PosInf).

(** The comparator as the sort reads it. *)
Definition rank_cmp (a b : Player) : comparison := sign (comparator a b).

(** [[...data.players].sort(comparator)]. *)
Definition sortedPlayers (players : list Player) : list Player :=
  Js.sort rank_cmp players.

(** [findIndex(p => p.user_id === currentUserId) + 1]; 0 when absent. *)
Fixpoint findIndex (currentUserId : string) (l : list Player) : option nat :=
  match l with
  | [] => None
  | p :: l' =>
      if String.eqb (user_id p) currentUserId then Some O
      else option_map S (findIndex currentUserId l')
  end.

Definition rankOf (currentUserId : string) (l : list Player) : nat :=
  match findIndex currentUserId l with
  | Some i => S i
  | None => O
  end.

(** The multiplayer leaderboard that the completion poll hands to
    [setFinalResults]. *)
Record FinalResults := mkFinal {
  rank : nat;
  winners : list string;
  players : list Player
}.

(** The poll's multiplayer branch: taken when the match is completed and
    carries at least two players. *)
Definition multiplayerResults (status : string)
    (dataPlayers : option (list Player)) (currentUserId : string)
    : option FinalResults :=
  if String.eqb status "completed" then
    match dataPlayers with
    | Some ps =>
        if (2 <=? List.length ps)%nat then
          let sorted := sortedPlayers ps in
          Some (mkFinal (rankOf currentUserId sorted)
                        (map username (firstn 3 sorted))
                        sorted)
        else None
    | None => None
    end
  else None.

(** *** The order in words *)

(** The score that counts: a missing score is 0. *)
Definition scoreKey (p : Player) : Q :=
  match score p with
  | Some q => q
  | None => 0
  end.

(** The completion time that counts: [None] stands for "no time", which
    is what a missing and a zero [time_elapsed] both become. *)
Definition timeKey (p : Player) : option Q :=
  match time_elapsed p with
  | Some q => if Qeq_bool q 0 then None else Some q
  | None => None
  end.

Definition time_lt (s t : option Q) : Prop :=
  match s, t with
  | Some x, Some y => x < y
  | Some _, None => True
  | None, _ => False
  end.

Definition time_eq (s t : option Q) : Prop :=
  match s, t with
  | Some x, Some y => x == y
  | None, None => True
  | _, _ => False
  end.

(** The comparator's sign, read on the keys. *)
Definition time_compare (s t : option Q) : comparison :=
  match s, t with
  | Some x, Some y => x ?= y
  | Some _, None => Lt
  | None, Some _ => Gt
  | None, None => Eq
  end.

(** [ranked_before (i, p) (j, q)]: [p], who joined [i]-th, is listed
    before [q], who joined [j]-th. *)
Definition ranked_before (a b : nat * Player) : Prop :=
  let (i, p) := a in
  let (j, q) := b in
  scoreKey q < scoreKey p \/
  (scoreKey p == scoreKey q /\
   (time_lt (timeKey p) (timeKey q) \/
    (time_eq (timeKey p) (timeKey q) /\ (i < j)%nat))).

(** The players with their position in the server's array. *)
Definition joinOrder (ps : list Player) : list (nat * Player) :=
  combine (seq 0 (List.length ps)) ps.

(** The order as the specification words it, on the recorded fields:
    nobody is listed after a player with a lower score, nor after a player
    with the same score and a later completion time. *)
Definition claimed_order (out : list Player) : Prop :=
  forall (i j : nat) (p q : Player) (sp sq tp tq : Q),
    (i < j)%nat ->
    nth_error out i = Some p -> nth_error out j = Some q ->
    score p = Some sp -> score q = Some sq ->
    time_elapsed p = Some tp -> time_elapsed q = Some tq ->
    sq <= sp /\ (sp == sq -> tp <= tq).

End Ranking.

(* ================================================================== *)
(** ** The match page: comparing a run's output with the expected output *)

Module RunCheck.
Local Open Scope N_scope.

(** A JavaScript string is a sequence of UTF-16 code units. *)
Definition code_unit := N.
Definition jsstring := list code_unit.

(** The code units [String.prototype.trim] strips: WhiteSpace and
    LineTerminator of the language specification. *)
Definition is_white_space (c : code_unit) : bool :=
  ((9 <=? c) && (c <=? 13))
  || (c =? 32) || (c =? 160) || (c =? 5760)
  || ((8192 <=? c) && (c <=? 8202))
  || (c =? 8232) || (c =? 8233) || (c =? 8239) || (c =? 8287)
  || (c =? 12288) || (c =? 65279).

Fixpoint trimStart (s : jsstring) : jsstring :=
  match s with
  | c :: s' => if is_white_space c then trimStart s' else s
  | [] => []
  end.

Definition trimEnd (s : jsstring) : jsstring := rev (trimStart (rev s)).

(** [s.trim()]. *)
Definition trim (s : jsstring) : jsstring := trimEnd (trimStart s).

(** [a === b] on strings. *)
Fixpoint str_eqb (a b : jsstring) : bool :=
  match a, b with
  | [], [] => true
  | x :: a', y :: b' => (x =? y) && str_eqb a' b'
  | _, _ => false
  end.

(** [actualOutput === expected] with both sides trimmed, as the three run
    paths of [handleRun] have it. *)
Definition passed (output expectedOutput : jsstring) : bool :=
  str_eqb (trim output) (trim expectedOutput).

(** The comparison as section 4.4 words it: equality after trailing
    whitespace is trimmed from both, so that outputs which differ anywhere
    else compare unequal. *)
Definition compares_up_to_trailing_whitespace : Prop :=
  forall actual expected : jsstring,
    passed actual expected = true <-> trimEnd actual = trimEnd expected.

Definition all_white_space (w : jsstring) : Prop :=
  Forall (fun c => is_white_space c = true) w.

(** No whitespace at the front. *)
Definition starts_clean (s : jsstring) : Prop :=
  match s with
  | c :: _ => is_white_space c = false
  | [] => True
  end.

(** No whitespace at either end. *)
Definition clean (s : jsstring) : Prop :=
  starts_clean s /\ starts_clean (rev s).

(** What the execution poll resolved to, as far as [handleRun] reads it. *)
Record RunResult := mkRun {
  compile_error : option jsstring;
  runtime_error : option jsstring;
  timed_out : bool;
  output : option jsstring
}.

(** A string field is truthy when present and not empty. *)
Definition present (s : option jsstring) : bool :=
  match s with
  | Some (_ :: _) => true
  | _ => false
  end.

Inductive Verdict :=
| CompilationError
| RuntimeError
| RunTimedOut
| SampleTest (pass : bool).

(** The Bug Hunt branch of [handleRun] on a result:
    [(result.output || "").trim() === expectedOutput.trim()] is reached
    only without a compile error, a runtime error and a timeout. *)
Definition bugHuntVerdict (result : RunResult) (expectedOutput : jsstring)
    : Verdict :=
  if present (compile_error result) then CompilationError
  else if present (runtime_error result) then RuntimeError
  else if timed_out result then RunTimedOut
  else
    let out := match output result with Some s => s | None => [] end in
    SampleTest (passed out expectedOutput).

(** *** The validator over a question's test cases *)

Record TestCase := mkCase {
  input : jsstring;
  expectedOutput : jsstring
}.

(** Modelled from the spec: the server's validator (app/routers/
    competitive.py) is not among the sources; section 4.4 has it run the
    test cases in order and stop at the first failing one, which it
    reports with the actual output.  [run] is the execution of the
    submitted program on one input; the comparison is the page's own. *)
Fixpoint firstFailure (run : jsstring -> jsstring) (cases : list TestCase)
    : option (TestCase * jsstring) :=
  match cases with
  | [] => None
  | tc :: rest =>
      let actual := run (input tc) in
      if passed actual (expectedOutput tc) then firstFailure run rest
      else Some (tc, actual)
  end.

End RunCheck.

(* ================================================================== *)
(** ** The match page: what [handleSubmit] does with the response *)

Module SubmitFlow.

(** The fields of the submit response that select a branch. *)
Record SubmitResponse := mkResponse {
  validation_failed : bool;
  next_problem : bool;
  all_problems_complete : bool;
  winner_id : bool;
  winners : bool;
  passed_tests : nat;
  total_tests : nat;
  resp_score : Z
}.

(** The page state that the response may touch.  [fetchMatchCalls] counts
    the calls of [fetchMatch], the only way the page's copy of the match
    (and so of the player cards) is refreshed after a submission. *)
Record Page := mkPage {
  loading : bool;
  showValidationDialog : bool;
  validationError : option SubmitResponse;
  matchCompleted : bool;
  finalResultsSet : bool;
  problemsLoaded : nat;
  fetchMatchCalls : nat
}.

Definition set_loading (b : bool) (p : Page) : Page :=
  mkPage b (showValidationDialog p) (validationError p) (matchCompleted p)
         (finalResultsSet p) (problemsLoaded p) (fetchMatchCalls p).

(** The branches of [handleSubmit] after a 2xx response, in source order;
    the [finally] clause clears [loading] on every path. *)
Definition handleSubmitResponse (forceSubmit : bool) (data : SubmitResponse)
    (p : Page) : Page :=
  if validation_failed data && negb forceSubmit then
    mkPage false true (Some data) (matchCompleted p) (finalResultsSet p)
           (problemsLoaded p) (fetchMatchCalls p)
  else if next_problem data then
    mkPage false (showValidationDialog p) (validationError p)
           (matchCompleted p) (finalResultsSet p)
           (S (problemsLoaded p)) (fetchMatchCalls p)
  else if all_problems_complete data
          && negb (winner_id data) && negb (winners data) then
    set_loading false p
  else if winner_id data || winners data then
    mkPage false (showValidationDialog p) (validationError p)
           true true (problemsLoaded p) (fetchMatchCalls p)
  else
    mkPage false (showValidationDialog p) (validationError p)
           (matchCompleted p) (finalResultsSet p)
           (problemsLoaded p) (S (fetchMatchCalls p)).

End SubmitFlow.

(* ================================================================== *)
(** ** The match page: polling for an execution result *)

Module Polling.

Definition maxAttempts : nat := 60.
Definition pollIntervalMs : Z := 500.

(** What one poll of /execution/:id came back with. *)
Inductive Response :=
| NotOk                   (* [!res.ok] *)
| StatusCompleted (d : RunCheck.RunResult)
| StatusFailed (d : RunCheck.RunResult)
| StillProcessing         (* any other status *)
| Threw.                  (* [fetch] or [res.json()] rejected *)

(** The value the promise is resolved with. *)
Inductive Resolution :=
| Data (d : RunCheck.RunResult)
| Null.

Inductive Message :=
| MsgFetchFailed          (* "[ERROR] Failed to get execution result" *)
| MsgExecutionFailed      (* "[ERROR] Execution failed: ..." *)
| MsgTimedOut.            (* "[ERROR] Execution timed out. Please try again." *)

(** The state of one [pollExecutionResult] call.  [attempts] is the
    closure's counter; [intervalActive] says that the interval has not been
    cleared; [resolved] is the promise (the first [resolve] wins);
    [lastMessage] the latest [setOutput].  [inflight], [fetches] and
    [handled] record the requests under way, issued and answered. *)
Record PollState := mkPoll {
  attempts : nat;
  intervalActive : bool;
  resolved : option Resolution;
  lastMessage : option Message;
  inflight : nat;
  fetches : nat;
  handled : nat
}.

(** [setInterval(poll, 500); poll()]: the interval runs and the first
    request is under way. *)
Definition start : PollState := mkPoll 0 true None None 1 1 0.

Definition resolve (r : Resolution) (old : option Resolution)
    : option Resolution :=
  match old with
  | Some _ => old
  | None => Some r
  end.

(** [clearInterval], a message (if any) and [resolve(r)]. *)
Definition stop (s : PollState) (msg : option Message) (r : Resolution)
    : PollState :=
  mkPoll (attempts s) false (resolve r (resolved s))
         (match msg with Some _ => msg | None => lastMessage s end)
         (inflight s) (fetches s) (handled s).

(** The body of [poll] from the response on. *)
Definition onResponse (r : Response) (s : PollState) : PollState :=
  match r with
  | NotOk => stop s (Some MsgFetchFailed) Null
  | StatusCompleted d => stop s None (Data d)
  | StatusFailed _ => stop s (Some MsgExecutionFailed) Null
  | StillProcessing =>
      let s' := mkPoll (S (attempts s)) (intervalActive s) (resolved s)
                       (lastMessage s) (inflight s) (fetches s) (handled s) in
      if (maxAttempts <=? attempts s')%nat
      then stop s' (Some MsgTimedOut) Null
      else s'
  | Threw => stop s None Null
  end.

(** What happens to a poll: the interval fires, or a request under way is
    answered. *)
Inductive Event :=
| Tick
| Answer (r : Response).

Definition step (s : PollState) (e : Event) : PollState :=
  match e with
  | Tick =>
      if intervalActive s then
        mkPoll (attempts s) true (resolved s) (lastMessage s)
               (S (inflight s)) (S (fetches s)) (handled s)
      else s
  | Answer r =>
      match inflight s with
      | O => s
      | S n =>
          onResponse r
            (mkPoll (attempts s) (intervalActive s) (resolved s)
                    (lastMessage s) n (fetches s) (S (handled s)))
      end
  end.

Definition run (s : PollState) (es : list Event) : PollState :=
  fold_left step es s.

(** The page's usual schedule: every request is answered before the
    interval fires again.  [responses] are the answers in order. *)
Fixpoint lockstep (responses : list Response) : list Event :=
  match responses with
  | [] => []
  | r :: rest => Answer r :: Tick :: lockstep rest
  end.

(** A slow service: every answer takes [k] intervals to come, so the
    interval fires [k] times before the first answer and once more after
    every answer. *)
Definition delayed (k : nat) (responses : list Response) : list Event :=
  repeat Tick k ++ lockstep responses.

(** How often the interval fired, and the time of its last firing. *)
Fixpoint firings (es : list Event) : nat :=
  match es with
  | [] => O
  | Tick :: es' => S (firings es')
  | Answer _ :: es' => firings es'
  end.

Definition elapsedMs (es : list Event) : Z :=
  Z.of_nat (firings es) * pollIntervalMs.

(** What holds of every state of a poll: while the interval runs, the
    promise is open and all the answers so far were non-terminal and fewer
    than the bound; once it is cleared, the promise is resolved. *)
Definition poll_inv (s : PollState) : Prop :=
  (intervalActive s = true ->
   resolved s = None /\ (attempts s < maxAttempts)%nat
   /\ handled s = attempts s)
  /\ (intervalActive s = false -> resolved s <> None)
  /\ fetches s = (handled s + inflight s)%nat.

(** In lockstep one request is under way while the interval runs. *)
Definition lockstep_inv (s : PollState) : Prop :=
  poll_inv s
  /\ (intervalActive s = true -> inflight s = 1%nat)
  /\ (fetches s <= maxAttempts)%nat.

End Polling.

(* ================================================================== *)
(** ** Doubles (IEEE 754 binary64), as Python's floats compute *)

Module Binary64.
Local Open Scope Q_scope.

(** The precision of a double, the exponent of the smallest positive
    double, and the bound of the finite doubles. *)
Definition prec : Z := 53.
Definition emin : Z := -1074.
Definition emax : Z := 1024.

Definition pow2 (e : Z) : Q := 2 ^ e.

(** A double: a rational of the binary64 grid, an infinity or NaN.  The
    sign of a zero is not kept: nothing here divides by a zero or prints
    one. *)
Inductive double :=
| Finite (q : Q)
| PosInf
| NegInf
| NaN.

(** The integer nearest to [q], the even one of two. *)
Definition rne (q : Q) : Z :=
  let f := Qfloor q in
  match Qcompare (q - inject_Z f) (1 # 2) with
  | Lt => f
  | Gt => (f + 1)%Z
  | Eq => if Z.even f then f else (f + 1)%Z
  end.

(** The exponent [k] with [2^k <= x < 2^(k+1)], for a positive [x]. *)
Definition ilog2 (x : Q) : Z :=
  let c := (Z.log2 (Qnum x) - Z.log2 (Zpos (Qden x)))%Z in
  if Qle_bool (pow2 c) x then c else (c - 1)%Z.

(** The exponent of the last place of the double nearest to a positive
    [x]: 53 significant bits, and no place below [2^emin]. *)
Definition fexp (x : Q) : Z := Z.max emin (ilog2 x - (prec - 1)).

(** A positive [x] rounded to the grid of its exponent, ties to even. *)
Definition round_pos (x : Q) : Q :=
  Qred (inject_Z (rne (x / pow2 (fexp x))) * pow2 (fexp x)).

(** The double nearest to [x] (round to nearest, ties to even); beyond the
    largest double the result is an infinity. *)
Definition round (x : Q) : double :=
  match Qcompare x 0 with
  | Eq => Finite 0
  | Gt =>
      let y := round_pos x in
      if Qle_bool (pow2 emax) y then PosInf else Finite y
  | Lt =>
      let y := round_pos (- x) in
      if Qle_bool (pow2 emax) y then NegInf else Finite (- y)
  end.

(** [a - b]. *)
Definition fsub (a b : double) : double :=
  match a, b with
  | NaN, _ | _, NaN => NaN
  | Finite x, Finite y => round (x - y)
  | PosInf, PosInf => NaN
  | NegInf, NegInf => NaN
  | PosInf, _ => PosInf
  | NegInf, _ => NegInf
  | Finite _, PosInf => NegInf
  | Finite _, NegInf => PosInf
  end.

(** The infinity of the sign of [x] times a positive infinity; NaN for
    zero. *)
Definition inf_times (x : Q) : double :=
  match Qcompare x 0 with
  | Eq => NaN
  | Gt => PosInf
  | Lt => NegInf
  end.

Definition fopp (a : double) : double :=
  match a with
  | Finite x => Finite (- x)
  | PosInf => NegInf
  | NegInf => PosInf
  | NaN => NaN
  end.

(** [a * b]. *)
Definition fmul (a b : double) : double :=
  match a, b with
  | NaN, _ | _, NaN => NaN
  | Finite x, Finite y => round (x * y)
  | Finite x, PosInf | PosInf, Finite x => inf_times x
  | Finite x, NegInf | NegInf, Finite x => fopp (inf_times x)
  | PosInf, PosInf | NegInf, NegInf => PosInf
  | PosInf, NegInf | NegInf, PosInf => NegInf
  end.

(** The order of the doubles; NaN is not comparable. *)
Definition dle (a b : double) : Prop :=
  match a, b with
  | NaN, _ | _, NaN => False
  | NegInf, _ => True
  | _, PosInf => True
  | Finite x, Finite y => x <= y
  | _, _ => False
  end.

End Binary64.


(* ================================================================== *)
(** ** Scoring (src/SCORING_FIX.md, "Fix Applied") *)

Module Scoring.
Import Binary64.
Local Open Scope Q_scope.

(** Python's [int] on a finite float: truncation toward zero. *)
Definition int (q : Q) : Z := Z.quot (Qnum q) (Zpos (Qden q)).

(** [int(x)]: OverflowError for an infinity, ValueError for NaN. *)
Definition to_int (x : double) : option Z :=
  match x with
  | Finite q => Some (int q)
  | _ => None
  end.

(** [x / y] on times in seconds: floats, or ints that a float holds
    exactly, each taken as the rational it denotes.  The quotient is
    rounded to a double; ZeroDivisionError for a zero divisor. *)
Definition div (x y : Q) : option double :=
  if Qeq_bool y 0 then None else Some (round (x / y)).

(** [a / b] on ints: the quotient rounded to a double;
    ZeroDivisionError for a zero divisor, OverflowError when the quotient
    is too large for a float. *)
Definition true_div (a b : Z) : option double :=
  if (b =? 0)%Z then None
  else
    match round (inject_Z a / inject_Z b) with
    | Finite q => Some (Finite q)
    | _ => None
    end.

(** [score = int((passed_tests / total_tests) * 100)]. *)
Definition test_score (passed_tests total_tests : nat) : option Z :=
  match true_div (Z.of_nat passed_tests) (Z.of_nat total_tests) with
  | Some r => to_int (fmul r (Finite 100))
  | None => None
  end.

Record Scored := mkScored {
  time_bonus : Z;
  final_score : Z
}.

(** The gate of the fix:
<<
    if score > 0:
        time_bonus = int((1 - time_ratio) * 50)
        final_score = score + time_bonus
    else:
        time_bonus = 0
        final_score = 0
>> *)
Definition apply_time_bonus (score : Z) (time_ratio : double)
    : option Scored :=
  if (0 <? score)%Z then
    match to_int (fmul (fsub (Finite 1) time_ratio) (Finite 50)) with
    | Some time_bonus => Some (mkScored time_bonus (score + time_bonus))
    | None => None
    end
  else
    Some (mkScored 0 0).

(** [time_ratio = time_elapsed / time_limit], then the gate. *)
Definition score_with_bonus (score : Z) (time_elapsed time_limit : Q)
    : option Scored :=
  match div time_elapsed time_limit with
  | Some time_ratio => apply_time_bonus score time_ratio
  | None => None
  end.

(** A submission from its test counts to its final score. *)
Definition score_submission (passed_tests total_tests : nat)
    (time_elapsed time_limit : Q) : option Scored :=
  match test_score passed_tests total_tests with
  | Some score => score_with_bonus score time_elapsed time_limit
  | None => None
  end.

End Scoring.

(* ================================================================== *)
(** ** The match state machine *)

Module MatchMachine.

(** The server that holds the matches (app/routers/competitive.py) is not
    among the sources; this module follows sections 3, 4.5 and 5 of the
    specification.  Time is the elapsed time of the match in seconds. *)

(** Modelled from the spec: the match status of section 3,
    waiting -> active -> completed. *)
Inductive MatchStatus := Waiting | Active | Completed.

(** Modelled from the spec: the validation outcome of section 3, without
    the details of the first failure. *)
Record ValidationOutcome := mkOutcome {
  passedCount : nat;
  totalCount : nat;
  scorePercent : Z
}.

(** Modelled from the spec: the player's progress of section 3. *)
Record PlayerProgress := mkProgress {
  playerId : nat;
  currentQuestionIndex : nat;
  score : Z;
  completed : bool;
  completionTimeSeconds : option Z
}.

(** Modelled from the spec: the match aggregate of section 3; the server
    that holds it (app/routers/competitive.py) is not among the sources.
    [lastSubmitted] keeps, per player, the outcome of the code submitted
    most recently, which the timeout of section 4.5 step 4 needs; it is no
    part of PlayerProgress. *)
Record Match := mkMatch {
  matchId : nat;
  status : MatchStatus;
  startedAt : Z;
  timeLimitSeconds : Z;
  players : list PlayerProgress;
  lastSubmitted : list (nat * ValidationOutcome);
  rankingSnapshot : option (list PlayerProgress)
}.

(** Modelled from the spec: section 4.5 step 5, "primary key descending
    score, tie-break ascending completion time, ties beyond that broken by
    original join order (stable)"; a player without a completion time
    comes after those with one. *)
Definition rank_compare (a b : PlayerProgress) : comparison :=
  match (score b ?= score a)%Z with
  | Eq =>
      match completionTimeSeconds a, completionTimeSeconds b with
      | Some s, Some t => (s ?= t)%Z
      | Some _, None => Lt
      | None, Some _ => Gt
      | None, None => Eq
      end
  | c => c
  end.

(** Modelled from the spec: the ranking snapshot, a stable sort of the
    players in join order. *)
Definition ranking (ps : list PlayerProgress) : list PlayerProgress :=
  Js.sort rank_compare ps.

(** The outcome kept for player [pid], the latest first. *)
Fixpoint lookup (pid : nat) (l : list (nat * ValidationOutcome))
    : option ValidationOutcome :=
  match l with
  | [] => None
  | (k, v) :: l' => if Nat.eqb k pid then Some v else lookup pid l'
  end.

(** Modelled from the spec: the score that section 4.5 step 3 sets, the
    test score and, through the gate of [Scoring], the time bonus for the
    share of the time limit that remains. *)
Definition recorded_score (m : Match) (vo : ValidationOutcome) (elapsed : Z)
    : option Z :=
  option_map Scoring.final_score
    (Scoring.score_with_bonus (scorePercent vo) (inject_Z elapsed)
                              (inject_Z (timeLimitSeconds m))).

(** Modelled from the spec: section 4.5 step 3, "[score] set,
    [completed = true], [completionTimeSeconds] set from elapsed time";
    [completed] is monotonic, so a completed player is left alone. *)
Definition finalize_player (sc : Z) (elapsed : Z) (p : PlayerProgress)
    : PlayerProgress :=
  if completed p then p
  else mkProgress (playerId p) (currentQuestionIndex p) sc true (Some elapsed).

(** Modelled from the spec: step 3 applied to the progress of [pid]. *)
Definition update_player (pid : nat) (sc : Z) (elapsed : Z)
    (ps : list PlayerProgress) : list PlayerProgress :=
  map (fun p => if Nat.eqb (playerId p) pid
                then finalize_player sc elapsed p else p) ps.

(** Modelled from the spec: section 4.5 step 4, "every player still not
    [completed] is force-finalized using their most recently submitted
    code (or an empty/zero result if none)". *)
Definition force_finalize (m : Match) (elapsed : Z) (p : PlayerProgress)
    : PlayerProgress :=
  let sc :=
    match lookup (playerId p) (lastSubmitted m) with
    | Some vo =>
        match recorded_score m vo elapsed with
        | Some s => s
        | None => 0
        end
    | None => 0
    end in
  finalize_player sc elapsed p.

(** Modelled from the spec: "every player's [completed] is true". *)
Definition all_completed (m : Match) : bool := forallb completed (players m).

(** Modelled from the spec: "the elapsed time reaches [timeLimitSeconds]". *)
Definition deadline_reached (m : Match) (elapsed : Z) : bool :=
  timeLimitSeconds m <=? elapsed.

(** Modelled from the spec: [pid] is a player of the match who is not yet
    completed; section 8 has a submission after completion rejected. *)
Definition open_player (pid : nat) (m : Match) : bool :=
  existsb (fun p => Nat.eqb (playerId p) pid && negb (completed p))
          (players m).

(** Modelled from the spec: the completion predicate of section 4.5
    step 4. *)
Definition completion_predicate (m : Match) (elapsed : Z) : bool :=
  all_completed m || deadline_reached m elapsed.

(** Modelled from the spec: the guarded completion transition of section 5
    ("compare-and-swap on [status]").  It acts only on an [Active] match
    whose predicate holds; it finalizes the players still open, computes
    the ranking snapshot and publishes both with the new status. *)
Definition try_complete (m : Match) (elapsed : Z) : Match :=
  match status m with
  | Active =>
      if completion_predicate m elapsed then
        let ps := map (force_finalize m elapsed) (players m) in
        mkMatch (matchId m) Completed (startedAt m) (timeLimitSeconds m)
                ps (lastSubmitted m) (Some (ranking ps))
      else m
  | _ => m
  end.

(** Modelled from the spec: what [submit] answers (section 6),
    "ValidationOutcome | MatchUpdate", or a rejection. *)
Inductive SubmitResult :=
| Outcome (vo : ValidationOutcome)   (* the player may retry *)
| MatchUpdate (m : Match)
| NotAccepted.

Definition with_last (pid : nat) (vo : ValidationOutcome) (m : Match) : Match :=
  mkMatch (matchId m) (status m) (startedAt m) (timeLimitSeconds m)
          (players m) ((pid, vo) :: lastSubmitted m) (rankingSnapshot m).

Definition with_players (ps : list PlayerProgress) (m : Match) : Match :=
  mkMatch (matchId m) (status m) (startedAt m) (timeLimitSeconds m)
          ps (lastSubmitted m) (rankingSnapshot m).

(** Modelled from the spec: section 4.5 step 3 for player [pid], who must
    be a player still open; there is no score to record when the time limit
    is zero. *)
Definition record_submission (m : Match) (pid : nat) (vo : ValidationOutcome)
    (elapsed : Z) : option Match :=
  if open_player pid m then
    match recorded_score m vo elapsed with
    | None => None
    | Some sc =>
        Some (with_players (update_player pid sc elapsed (players m))
                           (with_last pid vo m))
    end
  else None.

(** Modelled from the spec: [submit] of section 4.5 (steps 1 to 5) on the
    outcome [vo] that the validator gave for the submitted code.  A
    completed match answers with its state and changes nothing. *)
Definition submit (m : Match) (pid : nat) (vo : ValidationOutcome)
    (forceSubmit : bool) (elapsed : Z) : SubmitResult * Match :=
  match status m with
  | Waiting => (NotAccepted, m)
  | Completed => (MatchUpdate m, m)
  | Active =>
      if (scorePercent vo <? 100) && negb forceSubmit then
        (Outcome vo, with_last pid vo m)
      else
        match record_submission m pid vo elapsed with
        | None => (NotAccepted, m)
        | Some m1 =>
            let m2 := try_complete m1 elapsed in
            (MatchUpdate m2, m2)
        end
  end.

(** Modelled from the spec: a finalization trigger, a submission or the
    deadline check. *)
Inductive Trigger :=
| Submission (pid : nat) (vo : ValidationOutcome) (forceSubmit : bool)
             (elapsed : Z)
| Deadline (elapsed : Z).

(** Modelled from the spec: what a trigger makes of the match. *)
Definition step (m : Match) (t : Trigger) : Match :=
  match t with
  | Submission pid vo forceSubmit elapsed =>
      snd (submit m pid vo forceSubmit elapsed)
  | Deadline elapsed => try_complete m elapsed
  end.

(** Whether the trigger [t], reaching the active match [m], satisfies the
    completion predicate: the deadline check when the predicate holds of
    [m]; a submission when it is accepted and the predicate holds once the
    player's progress is recorded. *)
Definition satisfies (m : Match) (t : Trigger) : bool :=
  match t with
  | Deadline elapsed => completion_predicate m elapsed
  | Submission pid vo forceSubmit elapsed =>
      if (scorePercent vo <? 100) && negb forceSubmit then false
      else
        match record_submission m pid vo elapsed with
        | None => false
        | Some m1 => completion_predicate m1 elapsed
        end
  end.

(** Modelled from the spec: triggers that contend for one match are
    serialized by the guard of section 5, so a concurrent firing is one of
    the orders of the list. *)
Definition run (m : Match) (ts : list Trigger) : Match := fold_left step ts m.

(** The states a match goes through, the first one included. *)
Fixpoint trace (m : Match) (ts : list Trigger) : list Match :=
  match ts with
  | [] => [m]
  | t :: ts' => m :: trace (step m t) ts'
  end.

Definition is_completed (m : Match) : bool :=
  match status m with
  | Completed => true
  | _ => false
  end.

(** How often a list of states enters [Completed]. *)
Fixpoint transitions (states : list Match) : nat :=
  match states with
  | a :: ((b :: _) as rest) =>
      (if negb (is_completed a) && is_completed b then 1 else 0)
      + transitions rest
  | _ => 0
  end%nat.

(** Modelled from the spec: [GET match] of section 6, as far as the
    ranking goes. *)
Definition read (m : Match) : MatchStatus * option (list PlayerProgress) :=
  (status m, rankingSnapshot m).

End MatchMachine.

(* ================================================================== *)
(** ** The circuit breaker of the execution service *)

Module CircuitBreaker.

(** src/BUG_HUNT_CURRENT_ISSUES.md, "Circuit Breaker
    (app/services/circuit_breaker.py)". *)
Definition failure_threshold : nat := 5.
Definition recovery_timeout : Z := 60.

(** Modelled from the spec: the three states of section 4.2. *)
Inductive State := Closed | Open | HalfOpen.

(** Modelled from the spec: the circuit state of section 3; [openedAt] is
    in seconds. *)
Record CircuitState := mkCircuit {
  state : State;
  consecutiveFailures : nat;
  openedAt : option Z
}.

(** Modelled from the spec: what a gateway call comes back with
    (section 4.1), a program-level outcome or a transport fault. *)
Inductive GatewayOutcome :=
| Success
| CompileError
| RuntimeError
| TimedOut
| TransportFault.

Definition is_transport_fault (o : GatewayOutcome) : bool :=
  match o with
  | TransportFault => true
  | _ => false
  end.

(** Modelled from the spec: app/services/circuit_breaker.py is not among
    the sources; section 4.2 gives the three states.  [before_call] decides at
    time [now] (in seconds) whether a call may reach the gateway: always
    when closed; when open only once the recovery timeout has passed, and
    then as the one half-open probe; never while a probe is under way. *)
Definition before_call (c : CircuitState) (now : Z) : CircuitState * bool :=
  match state c with
  | Closed => (c, true)
  | Open =>
      match openedAt c with
      | Some t =>
          if recovery_timeout <=? now - t
          then (mkCircuit HalfOpen (consecutiveFailures c) (openedAt c), true)
          else (c, false)
      | None => (c, false)
      end
  | HalfOpen => (c, false)
  end.

(** Modelled from the spec: section 4.2, the bookkeeping after a call
    that went through.  A transport fault counts, and opens the breaker at
    the threshold or after a failed probe; any other outcome shows the
    service reachable, resets the counter and closes the breaker. *)
Definition record (c : CircuitState) (now : Z) (o : GatewayOutcome)
    : CircuitState :=
  if is_transport_fault o then
    let n := S (consecutiveFailures c) in
    match state c with
    | Closed =>
        if (failure_threshold <=? n)%nat
        then mkCircuit Open n (Some now)
        else mkCircuit Closed n (openedAt c)
    | HalfOpen => mkCircuit Open n (Some now)
    | Open => c
    end
  else
    match state c with
    | Open => c
    | _ => mkCircuit Closed 0 None
    end.

(** Modelled from the spec: a call passes through to the gateway, or is
    short-circuited with "service unavailable". *)
Inductive CallResult :=
| Passed (o : GatewayOutcome)   (* the gateway was called *)
| ShortCircuited.               (* "service unavailable", no call made *)

(** Modelled from the spec: one guarded call at time [now]; [o] is what
    the gateway answers if it is called. *)
Definition call (c : CircuitState) (now : Z) (o : GatewayOutcome)
    : CircuitState * CallResult :=
  let (c1, ok) := before_call c now in
  if ok then (record c1 now o, Passed o) else (c1, ShortCircuited).

(** A series of calls, with the results in order. *)
Fixpoint calls (c : CircuitState) (l : list (Z * GatewayOutcome))
    : CircuitState * list CallResult :=
  match l with
  | [] => (c, [])
  | (now, o) :: l' =>
      let (c1, r) := call c now o in
      let (c2, rs) := calls c1 l' in
      (c2, r :: rs)
  end.

Definition gateway_called (r : CallResult) : bool :=
  match r with
  | Passed _ => true
  | ShortCircuited => false
  end.

Definition initial : CircuitState := mkCircuit Closed 0 None.

(** Calls at the given times that all meet a transport fault. *)
Definition faults (times : list Z) : list (Z * GatewayOutcome) :=
  map (fun t => (t, TransportFault)) times.

End CircuitBreaker.

(* ================================================================== *)
(** ** The match page: the clock in the header *)

Module Clock.

(** The integers that a Number holds exactly and prints digit by digit:
    those below 2^53 in magnitude. *)
Definition isSafeInteger (n : Z) : bool := Z.abs n <? 2 ^ 53.

(** The digits of an integer without the sign. *)
Definition digits (n : Z) : Decimal.uint :=
  match Z.to_int n with
  | Decimal.Pos d => d
  | Decimal.Neg d => d
  end.

(** [n.toString()] for a safe integer [n]: every digit, after the sign.
    A Number of 2^53 or more prints its shortest round-trip digits
    (1152921504606847000 for 2^60) and, from 1e21 on, in exponent
    notation; such values are outside this model ([None]). *)
Definition numToString (n : Z) : option string :=
  if isSafeInteger n
  then Some (DecimalString.NilEmpty.string_of_int (Z.to_int n))
  else None.

Fixpoint zeros (n : nat) : string :=
  match n with
  | O => EmptyString
  | S n' => String "0" (zeros n')
  end.

(** [s.padStart(targetLength, '0')]. *)
Definition padStart (targetLength : nat) (s : string) : string :=
  (zeros (targetLength - String.length s) ++ s)%string.

(** [formatTime]: [Math.floor(seconds / 60)] and [seconds % 60], each padded
    to two places.  For a safe integer [seconds] the floor of the float
    quotient is the integer quotient: the quotient is below 2^48, where
    doubles lie at most 1/32 apart, and its fraction is at most 59/60. *)
Definition formatTime (seconds : Z) : option string :=
  if isSafeInteger seconds then
    let mins := seconds / 60 in
    let secs := Z.rem seconds 60 in
    match numToString mins, numToString secs with
    | Some mm, Some ss =>
        Some (padStart 2 mm ++ ":" ++ padStart 2 ss)%string
    | _, _ => None
    end
  else None.

(** [Math.max(0, timeLimit - timeElapsed)]. *)
Definition timeRemaining (m : Client.Match) (timeElapsed : Z) : Z :=
  Z.max 0 (Client.timeLimit m - timeElapsed).

(** [Math.min(100, (timeElapsed / timeLimit) * 100)]; [timeLimit] is never
    zero. *)
Definition timeProgress (m : Client.Match) (timeElapsed : Z) : Q :=
  let p := ((inject_Z timeElapsed / inject_Z (Client.timeLimit m)) * 100)%Q in
  if Qle_bool 100 p then 100%Q else p.

(** Reading a clock back: the text before the first colon and the text
    after it, as decimal numbers of minutes and seconds. *)
Fixpoint splitColon (s : string) : option (string * string) :=
  match s with
  | EmptyString => None
  | String c s' =>
      if Ascii.eqb c ":" then Some (EmptyString, s')
      else
        match splitColon s' with
        | Some (a, b) => Some (String c a, b)
        | None => None
        end
  end.

Definition readClock (s : string) : option Z :=
  match splitColon s with
  | Some (a, b) =>
      match DecimalString.NilEmpty.uint_of_string a,
            DecimalString.NilEmpty.uint_of_string b with
      | Some mins, Some secs => Some (60 * Z.of_uint mins + Z.of_uint secs)
      | _, _ => None
      end
  | None => None
  end.

End Clock.

(* ================================================================== *)
(** ** The match page: arranging lines (Code Shuffle) *)

Module Shuffle.

Section Arrays.
(** The values of an array, [undefined] among them. *)
Variable V : Type.
Variable undefined : V.

(** [a[i]]: a read past the end gives [undefined]. *)
Definition get (a : list V) (i : nat) : V := nth i a undefined.

(** [a[i] = v]: a write past the end extends the array. *)
Definition set (a : list V) (i : nat) (v : V) : list V :=
  if (i <? List.length a)%nat
  then firstn i a ++ v :: skipn (S i) a
  else a ++ repeat undefined (i - List.length a) ++ [v].

(** [handleLineMove]: the array handed to [setArrangedLines], or the old one
    when the handler returns early. *)
Definition handleLineMove (fromIndex : nat) (direction : string)
    (arrangedLines : list V) : list V :=
  let toIndex : Z :=
    if String.eqb direction "up" then Z.of_nat fromIndex - 1
    else Z.of_nat fromIndex + 1 in
  if (toIndex <? 0) || (Z.of_nat (List.length arrangedLines) <=? toIndex)
  then arrangedLines
  else
    let to := Z.to_nat toIndex in
    let moved := get arrangedLines to in
    let other := get arrangedLines fromIndex in
    set (set arrangedLines fromIndex moved) to other.

(** [items.splice(start, 1)]: what is left, and the first element removed
    ([undefined] when nothing was). *)
Definition spliceOne (items : list V) (start : nat) : list V * V :=
  (firstn start items ++ skipn (S start) items, nth start items undefined).

(** [items.splice(start, 0, item)]. *)
Definition spliceIn (items : list V) (start : nat) (item : V) : list V :=
  firstn start items ++ item :: skipn start items.

(** [handleDragEnd]: nothing happens without a destination. *)
Definition handleDragEnd (source : nat) (destination : option nat)
    (arrangedLines : list V) : list V :=
  match destination with
  | None => arrangedLines
  | Some dest =>
      let (items, reorderedItem) := spliceOne arrangedLines source in
      spliceIn items dest reorderedItem
  end.
End Arrays.

End Shuffle.

(* ================================================================== *)
(** ** The match page: drafting test cases (Test Master) *)

Module TestMaster.

Record Draft := mkDraft {
  input : RunCheck.jsstring;
  expected : RunCheck.jsstring
}.

Inductive Field := FieldInput | FieldExpected.

(** [useState([{ input: "", expected: "" }])]. *)
Definition initial : list Draft := [mkDraft [] []].

Definition addTestCase (testCases : list Draft) : list Draft :=
  testCases ++ [mkDraft [] []].

(** [testCases.filter((_, i) => i !== index)]. *)
Fixpoint dropIndex (index : nat) (l : list Draft) : list Draft :=
  match l, index with
  | [], _ => []
  | _ :: l', O => l'
  | x :: l', S i => x :: dropIndex i l'
  end.

Definition removeTestCase (index : nat) (testCases : list Draft) : list Draft :=
  if (1 <? List.length testCases)%nat then dropIndex index testCases
  else testCases.

Definition setField (field : Field) (value : RunCheck.jsstring) (tc : Draft)
    : Draft :=
  match field with
  | FieldInput => mkDraft value (expected tc)
  | FieldExpected => mkDraft (input tc) value
  end.

(** [newTestCases[index][field] = value]; past the end the assignment
    throws and the state stays. *)
Fixpoint updateTestCase (index : nat) (field : Field)
    (value : RunCheck.jsstring) (testCases : list Draft) : list Draft :=
  match testCases, index with
  | [], _ => []
  | tc :: l', O => setField field value tc :: l'
  | tc :: l', S i => tc :: updateTestCase i field value l'
  end.

Definition nonEmpty (s : RunCheck.jsstring) : bool :=
  match s with
  | [] => false
  | _ :: _ => true
  end.

(** [testCases.filter(tc => tc.input || tc.expected)]: what [handleSubmit]
    posts as [test_cases] and what [handleRun] lists. *)
Definition validTestCases (testCases : list Draft) : list Draft :=
  filter (fun tc => nonEmpty (input tc) || nonEmpty (expected tc)) testCases.

(** [handleRun] in this mode: a warning, or the list with its count. *)
Inductive Review :=
| NoTestCases
| Listing (count : nat) (cases : list Draft).

Definition reviewTestCases (testCases : list Draft) : Review :=
  match validTestCases testCases with
  | [] => NoTestCases
  | valid => Listing (List.length valid) valid
  end.

(** What the user does to the drafts. *)
Inductive Edit :=
| Add
| Remove (index : nat)
| Update (index : nat) (field : Field) (value : RunCheck.jsstring).

Definition apply (testCases : list Draft) (e : Edit) : list Draft :=
  match e with
  | Add => addTestCase testCases
  | Remove index => removeTestCase index testCases
  | Update index field value => updateTestCase index field value testCases
  end.

End TestMaster.

(* ================================================================== *)
(** ** The match page: the code put into the editor *)

Module Editor.
Import RunCheck.
Local Open Scope N_scope.

Definition backslash : code_unit := 92.
Definition letter_n : code_unit := 110.
Definition newline : code_unit := 10.
Definition space : code_unit := 32.

(** [codeStr.replace(/\\n/g, '\n')]: every backslash followed by the letter
    n, from the left, becomes a line feed. *)
Fixpoint unescape (s : jsstring) : jsstring :=
  match s with
  | [] => []
  | c :: rest =>
      match rest with
      | d :: rest' =>
          if (c =? backslash) && (d =? letter_n)
          then newline :: unescape rest'
          else c :: unescape rest
      | [] => [c]
      end
  end.

(** [code.split('\n')]: never an empty array. *)
Fixpoint split (s : jsstring) : list jsstring :=
  match s with
  | [] => [[]]
  | c :: rest =>
      if c =? newline then [] :: split rest
      else
        match split rest with
        | line :: lines => (c :: line) :: lines
        | [] => [[c]]
        end
  end.

(** [lines.join('\n')]. *)
Fixpoint join (lines : list jsstring) : jsstring :=
  match lines with
  | [] => []
  | [line] => line
  | line :: rest => line ++ newline :: join rest
  end.

(** The rest of [/^ +\S/] after the first space: more spaces, then a code
    unit that is not whitespace. *)
Fixpoint spacesThenInk (s : jsstring) : bool :=
  match s with
  | [] => false
  | c :: s' => if c =? space then spacesThenInk s' else negb (is_white_space c)
  end.

(** [line.match(/^ +\S/)]. *)
Definition indentedInk (line : jsstring) : bool :=
  match line with
  | c :: rest => (c =? space) && spacesThenInk rest
  | [] => false
  end.

(** [line.match(/^  /)] and [line.match(/^    /)]: the line starts with [n]
    spaces. *)
Definition startsWithSpaces (n : nat) (line : jsstring) : bool :=
  str_eqb (firstn n line) (repeat space n).

(** The function mapped over the lines; [Math.round(indent / 4)] is
    [(indent + 2) / 4] rounded down. *)
Definition normalizeLine (line : jsstring) : jsstring :=
  if indentedInk line && negb (startsWithSpaces 4 line)
     && negb (startsWithSpaces 2 line)
  then
    let stripped := trimStart line in
    let indent := (List.length line - List.length stripped)%nat in
    let normalizedIndent := ((indent + 2) / 4 * 4)%nat in
    repeat space normalizedIndent ++ stripped
  else line.

(** [sanitizeCode]; a missing or empty [codeStr] gives the empty string. *)
Definition sanitizeCode (codeStr : option jsstring) : jsstring :=
  match codeStr with
  | None => []
  | Some [] => []
  | Some s => join (map normalizeLine (split (unescape s)))
  end.

(** An escaped line feed somewhere in the string. *)
Fixpoint escaped (s : jsstring) : bool :=
  match s with
  | [] => false
  | c :: rest =>
      match rest with
      | d :: _ => ((c =? backslash) && (d =? letter_n)) || escaped rest
      | [] => false
      end
  end.

(** [handleRun] in Code Shuffle: [!arrangedLines.join('\n').trim()] stops
    the run with a warning. *)
Definition nothingArranged (arrangedLines : list jsstring) : bool :=
  match trim (join arrangedLines) with
  | [] => true
  | _ :: _ => false
  end.

(** [handleRun] otherwise: [!code.trim()] stops the run with a warning. *)
Definition nothingWritten (code : jsstring) : bool :=
  match trim code with
  | [] => true
  | _ :: _ => false
  end.

End Editor.

(* ================================================================== *)
(** ** The match page: the leaderboard dialog *)

Module Leaderboard.
Import Ranking.

(** [allPlayers.find(p => p.user_id === currentUserId)]. *)
Definition findPlayer (currentUserId : string) (l : list Player)
    : option Player :=
  find (fun p => String.eqb (user_id p) currentUserId) l.

(** What [pollMatchStatus] hands to [setFinalResults]. *)
Record StatusResults := mkStatus {
  shownRank : nat;
  shownScore : jsnum;
  shownPlayers : list Player
}.

(** [pollMatchStatus] on a response that is ok: the results it sets, if
    any, and whether it sets [matchCompleted].  The rank is
    [rank > 0 ? rank : 1] and the players are the server's array as it
    came. *)
Definition pollMatchStatus (status : string) (matchCompleted : bool)
    (dataPlayers : option (list Player)) (currentUserId : string)
    : option StatusResults * bool :=
  if String.eqb status "completed" && negb matchCompleted then
    (match dataPlayers with
     | Some allPlayers =>
         if (2 <=? List.length allPlayers)%nat then
           let rank := rankOf currentUserId allPlayers in
           Some (mkStatus
                   (if (0 <? rank)%nat then rank else 1%nat)
                   (match findPlayer currentUserId allPlayers with
                    | Some p => num_or (score p) (Num 0)
                    | None => Num 0
                    end)
                   allPlayers)
         else None
     | None => None
     end, true)
  else (None, matchCompleted).

(** The rank of the row at index [idx]. *)
Definition rowRank (idx : nat) : nat := S idx.

(** [player.score || finalResults.score || 0] of a row. *)
Definition rowScore (player : Player) (finalScore : jsnum) : jsnum :=
  num_or (score player) (if truthy finalScore then finalScore else Num 0).

(** [player?.user_id === finalResults.currentUserId]: the row is marked
    "(You)". *)
Definition isCurrentUser (player : Player) (currentUserId : string) : bool :=
  String.eqb (user_id player) currentUserId.

End Leaderboard.

(* ================================================================== *)
(** ** The match page: which problem [fetchMatch] loads *)

Module ProblemChoice.

(** A player as far as [fetchMatch] reads one. *)
Record PlayerEntry := mkEntry {
  user_id : string;
  current_problem_index : option Z
}.

(** The fields of the match that select the problem. *)
Record MatchData := mkData {
  problem_id : option string;
  players : option (list PlayerEntry);
  player1 : option PlayerEntry;
  player2 : option PlayerEntry;
  problem_ids : option (list string)
}.

(** The current player: from [players] when the match has that array,
    otherwise [player1] or [player2]. *)
Definition currentPlayer (data : MatchData) (currentUserId : string)
    : option PlayerEntry :=
  match players data with
  | Some ps => find (fun p => String.eqb (user_id p) currentUserId) ps
  | None =>
      match player1 data with
      | Some p1 =>
          if String.eqb (user_id p1) currentUserId then Some p1
          else
            match player2 data with
            | Some p2 =>
                if String.eqb (user_id p2) currentUserId then Some p2
                else None
            | None => None
            end
      | None =>
          match player2 data with
          | Some p2 =>
              if String.eqb (user_id p2) currentUserId then Some p2 else None
          | None => None
          end
      end
  end.

(** [ids[i]]: [undefined] outside the array. *)
Definition at_index (ids : list string) (i : Z) : option string :=
  if i <? 0 then None else nth_error ids (Z.to_nat i).

(** [problemIdToFetch] of a match that is not a Bug Hunt. *)
Definition problemIdToFetch (data : MatchData) (currentUserId : string)
    : option string :=
  match currentPlayer data currentUserId, problem_ids data with
  | Some p, Some (id0 :: more) =>
      let ids := id0 :: more in
      let currentProblemIndex := Js.js_or (current_problem_index p) 0 in
      let currentProblemIndex :=
        if Z.of_nat (List.length ids) <=? currentProblemIndex
        then Z.of_nat (List.length ids) - 1
        else currentProblemIndex in
      at_index ids currentProblemIndex
  | _, _ => problem_id data
  end.

(** What [fetchMatch] does next. *)
Inductive Load :=
| FetchProblem (id : string)
| NoProblemId.

(** [if (problemIdToFetch)]: an empty id counts as none. *)
Definition load (data : MatchData) (currentUserId : string) : Load :=
  match problemIdToFetch data currentUserId with
  | Some id => if Js.truthy_str (Some id) then FetchProblem id else NoProblemId
  | None => NoProblemId
  end.

End ProblemChoice.

(* ================================================================== *)
(** ** The theme provider *)

Module Theme.

(** The document root as [applyTheme] and the page's [useTheme] see it. *)
Record Document := mkDocument {
  lightThemeClass : bool;
  colorScheme : string
}.

(** [localStorage]: the item [codoai_theme], and whether access throws. *)
Record Storage := mkStorage {
  item : option string;
  throws : bool
}.

Record State := mkState {
  theme : string;
  document : Document;
  storage : Storage
}.

(** A page that has just been loaded: [useState('dark')] and a root
    element without the class. *)
Definition fresh (st : Storage) : State :=
  mkState "dark" (mkDocument false "") st.

Definition applyTheme (newTheme : string) (d : Document) : Document :=
  if String.eqb newTheme "light" then mkDocument true "light"
  else mkDocument false "dark".

(** The effect run on mount; when [getItem] throws nothing is set. *)
Definition mount (s : State) : State :=
  if throws (storage s) then s
  else
    let savedTheme :=
      if Js.truthy_str (item (storage s))
      then match item (storage s) with Some t => t | None => "dark"%string end
      else "dark"%string in
    mkState savedTheme (applyTheme savedTheme (document s)) (storage s).

(** [toggleTheme]; when [setItem] throws the item stays. *)
Definition toggleTheme (s : State) : State :=
  let newTheme :=
    if String.eqb (theme s) "dark" then "light"%string else "dark"%string in
  let storage' :=
    if throws (storage s) then storage s
    else mkStorage (Some newTheme) false in
  mkState newTheme (applyTheme newTheme (document s)) storage'.

(** The page's own [useTheme]: [!classList.contains("light-theme")]. *)
Definition isDark (d : Document) : bool := negb (lightThemeClass d).

Fixpoint toggles (n : nat) (s : State) : State :=
  match n with
  | O => s
  | S n' => toggles n' (toggleTheme s)
  end.

(** The look agrees with the theme. *)
Definition in_step (s : State) : Prop :=
  lightThemeClass (document s) = String.eqb (theme s) "light"
  /\ colorScheme (document s)
     = (if String.eqb (theme s) "light" then "light" else "dark")%string.

End Theme.

(* ================================================================== *)
(** ** Submissions in a row *)

Module Submissions.
Import SubmitFlow.

(** The page after the responses to a row of submissions, each with its
    [forceSubmit]. *)
Definition afterResponses (rs : list (bool * SubmitResponse)) (p : Page)
    : Page :=
  fold_left (fun page r => handleSubmitResponse (fst r) (snd r) page) rs p.

End Submissions.

(* ================================================================== *)
(** ** The base URL of the API (src/utils/api.js) *)

Module Api.

Record Location := mkLocation {
  hostname : string;
  protocol : string
}.

(** What [getApiBase] reads: [import.meta.env.VITE_API_URL], and [window]
    where there is one. *)
Record Env := mkEnv {
  VITE_API_URL : option string;
  window : option Location
}.

Definition renderBackend : string :=
  "https://codo-ai-proeduvate-project.onrender.com".

Definition localBackend : string := "http://localhost:8000".

(** [hay.includes(needle)]. *)
Fixpoint includes (needle hay : string) : bool :=
  String.prefix needle hay
  || match hay with
     | EmptyString => false
     | String _ hay' => includes needle hay'
     end.

(** [\d]. *)
Definition isDigit (c : ascii) : bool :=
  (48 <=? nat_of_ascii c)%nat && (nat_of_ascii c <=? 57)%nat.

(** One step of a match: the first character passes [test]; what is left. *)
Definition eat (test : ascii -> bool) (s : string) : option string :=
  match s with
  | String c s' => if test c then Some s' else None
  | EmptyString => None
  end.

(** [/-\d{4,5}\./] matched at the front of [s]: what follows the match.
    The hyphen, four digits, then a fifth digit if there is one, then the
    dot; when the dot does not follow five digits the matcher goes back to
    four. *)
Definition portAtFront (s : string) : option string :=
  match eat (Ascii.eqb "-") s with
  | None => None
  | Some s1 =>
  match eat isDigit s1 with
  | None => None
  | Some s2 =>
  match eat isDigit s2 with
  | None => None
  | Some s3 =>
  match eat isDigit s3 with
  | None => None
  | Some s4 =>
  match eat isDigit s4 with
  | None => None
  | Some s5 =>
      match eat isDigit s5 with
      | Some s6 =>
          match eat (Ascii.eqb ".") s6 with
          | Some after => Some after
          | None => eat (Ascii.eqb ".") s5
          end
      | None => eat (Ascii.eqb ".") s5
      end
  end end end end end.

(** [hostname.replace(/-\d{4,5}\./, '-8000.')] when the pattern matches:
    the leftmost match is replaced. *)
Fixpoint replacePort (s : string) : option string :=
  match portAtFront s with
  | Some after => Some ("-8000." ++ after)%string
  | None =>
      match s with
      | EmptyString => None
      | String c s' =>
          match replacePort s' with
          | Some r => Some (String c r)
          | None => None
          end
      end
  end.

(** [getApiBase]. *)
Definition getApiBase (env : Env) : string :=
  if Js.truthy_str (VITE_API_URL env) then
    match VITE_API_URL env with Some url => url | None => localBackend end
  else
    match window env with
    | None => localBackend
    | Some location =>
        if includes "vercel.app" (hostname location) then renderBackend
        else if includes "netlify.app" (hostname location) then renderBackend
        else if negb (String.eqb (hostname location) "localhost")
                && negb (String.eqb (hostname location) "127.0.0.1") then
          match replacePort (hostname location) with
          | Some backendHostname =>
              (protocol location ++ "//" ++ backendHostname)%string
          | None => localBackend
          end
        else localBackend
    end.

End Api.

(* ================================================================== *)
(** * Properties *)

(** ** The timer *)

Section TimerFacts.
Variable parseDate : string -> option Z.

Lemma updateTimer_value (matchStartTime : string) (startedAt now : Z) :
  parseDate (Client.utcTimestamp matchStartTime) = Some startedAt ->
  Client.updateTimer parseDate matchStartTime now
  = Some (Z.max 0 ((now - startedAt) / 1000)).
Proof.
  intros Hparse. unfold Client.updateTimer. now rewrite Hparse.
Qed.

Lemma timerEffect_runs (matchStartTime : string) (prev : option Z) (now : Z) :
  Js.truthy_str (Some matchStartTime) = true ->
  Client.timerEffect parseDate (Some matchStartTime) false prev now
  = Client.updateTimer parseDate matchStartTime now.
Proof.
  intros Htruthy. unfold Client.timerEffect. now rewrite Htruthy.
Qed.

(** C7: with the server's start timestamp [startedAt] (in milliseconds),
    the elapsed time shown at the instant [now] is
    max(0, floor((now - startedAt) / 1000)): it is the whole number of
    seconds since the start when the client's clock is not behind, and 0
    when it is (so it is never negative); and it does not depend on what
    the page showed before, so two clients, or one client before and
    after a reload, show the same value at the same instant. *)
Theorem elapsed_time_clamped_floor
    (matchStartTime : string) (startedAt now : Z) :
  parseDate (Client.utcTimestamp matchStartTime) = Some startedAt ->
  Js.truthy_str (Some matchStartTime) = true ->
  exists e : Z,
    Client.updateTimer parseDate matchStartTime now = Some e
    /\ e = Z.max 0 ((now - startedAt) / 1000)
    /\ 0 <= e
    /\ (startedAt <= now -> 1000 * e <= now - startedAt < 1000 * (e + 1))
    /\ (now < startedAt -> e = 0)
    /\ (forall shownBefore : option Z,
           Client.timerEffect parseDate (Some matchStartTime) false
                              shownBefore now = Some e).
Proof.
  intros Hparse Htruthy.
  exists (Z.max 0 ((now - startedAt) / 1000)).
  pose proof (updateTimer_value matchStartTime startedAt now Hparse) as Hval.
  repeat split.
  - exact Hval.
  - lia.
  - assert (0 <= (now - startedAt) / 1000)
      by (apply Z.div_pos; lia).
    rewrite Z.max_r by lia.
    pose proof (Z.mul_div_le (now - startedAt) 1000). lia.
  - assert (0 <= (now - startedAt) / 1000)
      by (apply Z.div_pos; lia).
    rewrite Z.max_r by lia.
    pose proof (Z.mul_succ_div_gt (now - startedAt) 1000). lia.
  - intros Hskew.
    assert ((now - startedAt) / 1000 < 0)
      by (apply Z.div_lt_upper_bound; lia).
    lia.
  - intros shownBefore. now rewrite timerEffect_runs.
Qed.

End TimerFacts.

(** An instance: a page opened 12.345 s after the start. *)
Lemma elapsed_time_clamped_floor_witness :
  exists e : Z,
    Client.updateTimer (fun _ => Some 1700000000000)
                       "2023-11-14T22:13:20" 1700000012345 = Some e
    /\ e = Z.max 0 ((1700000012345 - 1700000000000) / 1000)
    /\ 0 <= e
    /\ (1700000000000 <= 1700000012345 ->
        1000 * e <= 1700000012345 - 1700000000000 < 1000 * (e + 1))
    /\ (1700000012345 < 1700000000000 -> e = 0)
    /\ (forall shownBefore : option Z,
           Client.timerEffect (fun _ => Some 1700000000000)
                              (Some "2023-11-14T22:13:20"%string) false
                              shownBefore 1700000012345 = Some e).
Proof.
  apply (elapsed_time_clamped_floor (fun _ => Some 1700000000000)
           "2023-11-14T22:13:20" 1700000000000 1700000012345);
    reflexivity.
Defined.

(** ** The timeout check *)

Lemma timeoutCheck_fires_iff (mt : Client.Match) (st : option string)
    (matchCompleted : bool) (el : Z) :
  Client.timeoutCheck (Some mt) st matchCompleted (Some el) = true <->
  (Js.truthy_str st = true /\ matchCompleted = false
   /\ 0 < Client.timeLimit mt
   /\ Client.status mt = "active"%string
   /\ 10 <= el /\ Client.timeLimit mt <= el).
Proof.
  unfold Client.timeoutCheck.
  destruct (Js.truthy_str st), matchCompleted; simpl;
    try (split; [discriminate | intros (? & ? & _); discriminate]).
  destruct (Z.leb_spec (Client.timeLimit mt) 0);
    [split; [discriminate | lia] |].
  destruct (String.eqb_spec (Client.status mt) "active"); simpl;
    [| split; [discriminate | intros (_ & _ & _ & ? & _); contradiction]].
  destruct (Z.ltb_spec el 10); [split; [discriminate | lia] |].
  rewrite andb_true_iff, Z.eqb_eq, Z.leb_le. split.
  - intros [_ Hle]. repeat split; auto.
  - intros (_ & _ & _ & _ & _ & Hle). split; lia.
Qed.

(** C10: the timeout check calls [handleTimeExpired] (the forced
    submission) only for a match whose status is "active", whose time limit
    ([timeLimit]: the match's time_limit_seconds, 900 when that is missing
    or zero) is positive, and once at least 10 seconds have elapsed;
    whatever the time limit, in particular one below 10 seconds, it does
    not fire at an elapsed time below 10 seconds. *)
Theorem timeout_fires_only_when_guards_hold
    (m : option Client.Match) (matchStartTime : option string)
    (matchCompleted : bool) (timeElapsed : option Z) :
  Client.timeoutCheck m matchStartTime matchCompleted timeElapsed = true ->
  (exists (mt : Client.Match) (el : Z),
      m = Some mt /\ timeElapsed = Some el
      /\ Client.status mt = "active"%string
      /\ 0 < Client.timeLimit mt
      /\ (forall limit : Z,
             Client.time_limit_seconds mt = Some limit -> limit <> 0 ->
             0 < limit)
      /\ 10 <= el)
  /\ (forall (mt : Client.Match) (st : option string) (mc : bool) (el : Z),
         Client.timeLimit mt < 10 -> el < 10 ->
         Client.timeoutCheck (Some mt) st mc (Some el) = false)
  /\ (forall (matchId : string) (code : Client.CodeValue) (language : string),
         Client.force_submit (Client.handleTimeExpired matchId code language)
         = true).
Proof.
  intros Hfires. split; [| split].
  - destruct m as [mt |]; [| discriminate].
    destruct timeElapsed as [el |]; [| discriminate].
    apply timeoutCheck_fires_iff in Hfires.
    exists mt, el. repeat split; try tauto.
    intros limit Hlimit Hnz. destruct Hfires as (_ & _ & Hpos & _).
    unfold Client.timeLimit in Hpos. rewrite Hlimit in Hpos.
    destruct limit; simpl in Hpos; congruence || lia.
  - intros mt st mc el _ Hearly.
    destruct (Client.timeoutCheck (Some mt) st mc (Some el)) eqn:E; auto.
    apply timeoutCheck_fires_iff in E. lia.
  - reflexivity.
Qed.

(** An instance: a match of 600 s at 600 s. *)
Lemma timeout_fires_only_when_guards_hold_witness :
  (exists (mt : Client.Match) (el : Z),
      Some (Client.mkMatch "active" (Some 600) (Some "2023-11-14T22:13:20"%string))
      = Some mt
      /\ Some 600 = Some el
      /\ Client.status mt = "active"%string
      /\ 0 < Client.timeLimit mt
      /\ (forall limit : Z,
             Client.time_limit_seconds mt = Some limit -> limit <> 0 ->
             0 < limit)
      /\ 10 <= el)
  /\ (forall (mt : Client.Match) (st : option string) (mc : bool) (el : Z),
         Client.timeLimit mt < 10 -> el < 10 ->
         Client.timeoutCheck (Some mt) st mc (Some el) = false)
  /\ (forall (matchId : string) (code : Client.CodeValue) (language : string),
         Client.force_submit (Client.handleTimeExpired matchId code language)
         = true).
Proof.
  apply (timeout_fires_only_when_guards_hold
           (Some (Client.mkMatch "active" (Some 600)
                                 (Some "2023-11-14T22:13:20"%string)))
           (Some "2023-11-14T22:13:20"%string) false (Some 600)).
  reflexivity.
Defined.

(** ** The stable sort *)

Section SortFacts.
Context {A : Type}.
Variable cmp : A -> A -> comparison.

Lemma insert_perm (x : A) (l : list A) :
  Permutation (x :: l) (Js.insert cmp x l).
Proof.
  induction l as [| y l IH]; simpl.
  - apply Permutation_refl.
  - destruct (cmp x y); try apply Permutation_refl.
    eapply perm_trans; [apply perm_swap |].
    now apply perm_skip.
Qed.

Lemma sort_perm (l : list A) : Permutation l (Js.sort cmp l).
Proof.
  induction l as [| x l IH]; simpl.
  - apply perm_nil.
  - eapply perm_trans; [apply perm_skip, IH | apply insert_perm].
Qed.

Lemma sort_length (l : list A) : List.length (Js.sort cmp l) = List.length l.
Proof. symmetry. apply Permutation_length, sort_perm. Qed.
End SortFacts.

(** Sorting pairs on their second component and then forgetting the first
    is sorting the second components. *)
Section SortTagged.
Context {T A : Type}.
Variable cmp : A -> A -> comparison.

Lemma map_snd_insert (x : T * A) (l : list (T * A)) :
  map snd (Js.insert (Js.on_snd cmp) x l) = Js.insert cmp (snd x) (map snd l).
Proof.
  induction l as [| y l IH]; simpl; auto.
  unfold Js.on_snd at 1. destruct (cmp (snd x) (snd y)); simpl; auto.
  now rewrite IH.
Qed.

Lemma map_snd_sort (l : list (T * A)) :
  map snd (Js.sort (Js.on_snd cmp) l) = Js.sort cmp (map snd l).
Proof.
  induction l as [| x l IH]; simpl; auto.
  now rewrite map_snd_insert, IH.
Qed.
End SortTagged.

(** A stable sort of elements tagged with their position yields the order
    [R] as soon as [R] reads the comparator as "strictly before, or tied and
    older". *)
Section SortStable.
Context {A : Type}.
Variable cmp : A -> A -> comparison.
Variable R : nat * A -> nat * A -> Prop.

Hypothesis R_lt : forall a b, Js.on_snd cmp a b = Lt -> R a b.
Hypothesis R_eq :
  forall a b, Js.on_snd cmp a b = Eq -> (fst a < fst b)%nat -> R a b.
Hypothesis R_gt : forall a b, Js.on_snd cmp a b = Gt -> R b a.
Hypothesis R_chain :
  forall a b c, Js.on_snd cmp a b <> Gt -> R b c -> (fst a < fst c)%nat -> R a c.

Let older (a b : nat * A) : Prop := (fst a < fst b)%nat.

Lemma insert_sorted (x : nat * A) (l : list (nat * A)) :
  StronglySorted R l -> Forall (older x) l ->
  StronglySorted R (Js.insert (Js.on_snd cmp) x l).
Proof.
  induction l as [| y l IH]; intros Hsorted Holder; simpl.
  - constructor; constructor.
  - inversion Hsorted as [| ? ? Hsorted' Hy]; subst.
    inversion Holder as [| ? ? Hxy Holder']; subst.
    destruct (Js.on_snd cmp x y) eqn:E.
    + constructor; auto. constructor; [now apply R_eq |].
      rewrite Forall_forall in *. intros z Hz.
      apply (R_chain x y z);
        [rewrite E; discriminate | now apply Hy | now apply Holder'].
    + constructor; auto. constructor; [now apply R_lt |].
      rewrite Forall_forall in *. intros z Hz.
      apply (R_chain x y z);
        [rewrite E; discriminate | now apply Hy | now apply Holder'].
    + constructor; [now apply IH |].
      rewrite Forall_forall in *. intros z Hz.
      apply (Permutation_in z (Permutation_sym (insert_perm _ x l))) in Hz.
      destruct Hz as [<- | Hz]; auto.
Qed.

Lemma sort_sorted (l : list (nat * A)) :
  StronglySorted older l -> StronglySorted R (Js.sort (Js.on_snd cmp) l).
Proof.
  induction l as [| x l IH]; intros Hl; simpl.
  - constructor.
  - inversion Hl as [| ? ? Hl' Hx]; subst.
    apply insert_sorted; auto.
    eapply Permutation_Forall; [apply sort_perm | exact Hx].
Qed.
End SortStable.

Lemma combine_seq_older {A : Type} (ps : list A) (k : nat) :
  StronglySorted (fun a b : nat * A => (fst a < fst b)%nat)
                 (combine (seq k (List.length ps)) ps).
Proof.
  revert k. induction ps as [| p ps IH]; intros k; simpl.
  - constructor.
  - constructor; [apply IH |].
    rewrite Forall_forall. intros [i q] Hin. simpl.
    apply in_combine_l, in_seq in Hin. lia.
Qed.

Lemma map_snd_combine_seq {A : Type} (ps : list A) (k : nat) :
  map snd (combine (seq k (List.length ps)) ps) = ps.
Proof.
  revert k. induction ps as [| p ps IH]; intros k; simpl; auto.
  now rewrite IH.
Qed.

(** ** The leaderboard order *)

Section RankingFacts.
Import Ranking.
Local Open Scope Q_scope.

Lemma Qcompare_sub (x y : Q) : (x - y ?= 0) = (x ?= y).
Proof.
  destruct (x ?= y) eqn:E.
  - apply (proj2 (Qeq_alt _ _)) in E. apply (proj1 (Qeq_alt _ _)). lra.
  - apply (proj2 (Qlt_alt _ _)) in E. apply (proj1 (Qlt_alt _ _)). lra.
  - apply (proj2 (Qgt_alt _ _)) in E. apply (proj1 (Qgt_alt _ _)). lra.
Qed.

Lemma num_or_score (p : Player) :
  exists q, num_or (score p) (Num 0) = Num q /\ q == scoreKey p.
Proof.
  unfold num_or, scoreKey, truthy.
  destruct (score p) as [q |]; [| exists 0; split; reflexivity].
  destruct (Qeq_bool q 0) eqn:E; simpl.
  - exists 0. split; auto. apply Qeq_bool_eq in E. now symmetry.
  - exists q. split; reflexivity.
Qed.

Lemma num_or_time (p : Player) :
  num_or (time_elapsed p) PosInf
  = match timeKey p with Some x => Num x | None => PosInf end.
Proof.
  unfold num_or, timeKey, truthy.
  destruct (time_elapsed p) as [q |]; auto.
  now destruct (Qeq_bool q 0).
Qed.

Lemma comparator_sign (a b : Player) :
  sign (comparator a b)
  = match scoreKey b ?= scoreKey a with
    | Eq => time_compare (timeKey a) (timeKey b)
    | c => c
    end.
Proof.
  unfold comparator.
  destruct (num_or_score a) as (qa & -> & Ha).
  destruct (num_or_score b) as (qb & -> & Hb).
  rewrite <- Ha, <- Hb. simpl jsub. unfold truthy.
  destruct (Qeq_bool (qb - qa) 0) eqn:E; simpl negb; cbv iota.
  - apply Qeq_bool_eq in E.
    assert (Hc : (qb ?= qa) = Eq) by (apply (proj1 (Qeq_alt _ _)); lra).
    rewrite Hc, !num_or_time.
    destruct (timeKey a) as [x |], (timeKey b) as [y |]; simpl; auto.
    apply Qcompare_sub.
  - apply Qeq_bool_neq in E. simpl sign. rewrite Qcompare_sub.
    destruct (qb ?= qa) eqn:Hc; auto.
    apply (proj2 (Qeq_alt _ _)) in Hc. exfalso. apply E. lra.
Qed.

Lemma rank_cmp_cases (i j : nat) (p q : Player) :
  match rank_cmp p q with
  | Lt => scoreKey q < scoreKey p
          \/ (scoreKey p == scoreKey q /\ time_lt (timeKey p) (timeKey q))
  | Eq => scoreKey p == scoreKey q /\ time_eq (timeKey p) (timeKey q)
  | Gt => scoreKey p < scoreKey q
          \/ (scoreKey p == scoreKey q /\ time_lt (timeKey q) (timeKey p))
  end.
Proof.
  unfold rank_cmp. rewrite comparator_sign.
  destruct (scoreKey q ?= scoreKey p) eqn:Hs.
  - apply (proj2 (Qeq_alt _ _)) in Hs.
    destruct (timeKey p) as [x |], (timeKey q) as [y |]; simpl;
      try (right; split; [lra | exact I]); try (split; [lra | exact I]).
    destruct (x ?= y) eqn:Ht.
    + apply (proj2 (Qeq_alt _ _)) in Ht. split; lra.
    + apply (proj2 (Qlt_alt _ _)) in Ht. right. split; lra.
    + apply (proj2 (Qgt_alt _ _)) in Ht. right. split; lra.
  - apply (proj2 (Qlt_alt _ _)) in Hs. now left.
  - apply (proj2 (Qgt_alt _ _)) in Hs. left. lra.
Qed.

Lemma ranked_lt (a b : nat * Player) :
  Js.on_snd rank_cmp a b = Lt -> ranked_before a b.
Proof.
  destruct a as [i p], b as [j q]. unfold Js.on_snd. simpl. intros E.
  pose proof (rank_cmp_cases i j p q) as H. rewrite E in H. tauto.
Qed.

Lemma ranked_eq (a b : nat * Player) :
  Js.on_snd rank_cmp a b = Eq -> (fst a < fst b)%nat -> ranked_before a b.
Proof.
  destruct a as [i p], b as [j q]. unfold Js.on_snd. simpl. intros E Hij.
  pose proof (rank_cmp_cases i j p q) as H. rewrite E in H. tauto.
Qed.

Lemma ranked_gt (a b : nat * Player) :
  Js.on_snd rank_cmp a b = Gt -> ranked_before b a.
Proof.
  destruct a as [i p], b as [j q]. unfold Js.on_snd. simpl. intros E.
  pose proof (rank_cmp_cases i j p q) as H. rewrite E in H.
  destruct H as [H | [H1 H2]]; [now left | right; split; [lra | now left]].
Qed.

Lemma ranked_chain (a b c : nat * Player) :
  Js.on_snd rank_cmp a b <> Gt -> ranked_before b c -> (fst a < fst c)%nat ->
  ranked_before a c.
Proof.
  destruct a as [i p], b as [j q], c as [k r]. unfold Js.on_snd. simpl.
  intros E Hbc Hik.
  pose proof (rank_cmp_cases i j p q) as H.
  unfold ranked_before in *.
  destruct (timeKey p) as [x |], (timeKey q) as [y |], (timeKey r) as [z |];
    destruct (rank_cmp p q); try congruence; simpl in *;
    intuition (try lra; try lia);
    try (left; lra); try (right; split; [lra |]; try (left; lra);
                          try (right; split; [lra | lia]);
                          try (left; exact I); try (right; split; [exact I | lia])).
Qed.

Lemma sortedPlayers_tagged (ps : list Player) :
  map snd (Js.sort (Js.on_snd rank_cmp) (joinOrder ps)) = sortedPlayers ps.
Proof.
  rewrite map_snd_sort. unfold joinOrder.
  now rewrite map_snd_combine_seq.
Qed.

End RankingFacts.

(** C4, counterexample: two players with the same score, one with a
    completion time of 0 and one with a completion time of 5; the one with
    the later time is listed first. *)
Lemma zero_time_ranked_after_later_time :
  ~ Ranking.claimed_order
      (Ranking.sortedPlayers
         [Ranking.mkPlayer "u1" "ada" (Some (50 # 1)) (Some (0 # 1));
          Ranking.mkPlayer "u2" "bob" (Some (50 # 1)) (Some (5 # 1))]).
Proof.
  intros Hclaim.
  destruct (Hclaim 0%nat 1%nat
              (Ranking.mkPlayer "u2" "bob" (Some (50 # 1)) (Some (5 # 1)))
              (Ranking.mkPlayer "u1" "ada" (Some (50 # 1)) (Some (0 # 1)))
              (50 # 1) (50 # 1) (5 # 1) (0 # 1)
              (Nat.lt_0_1) eq_refl eq_refl eq_refl eq_refl eq_refl eq_refl)
    as [_ Htime].
  specialize (Htime (Qeq_refl _)).
  revert Htime. unfold Qle. simpl. lia.
Qed.

(** C4, amended: the ranking that the page's completion poll computes for
    a completed multiplayer match (the sorted copy of the server's players
    array, which it hands to the final results) lists the players of the
    server's array by descending score (a missing score counts as 0),
    players with the same score by ascending completion time, where a
    player whose time_elapsed is missing or zero comes after every player
    with a recorded time, and players tied on both in the order of the
    server's array; the sort only rearranges the players. *)
Theorem sortedPlayers_score_time_join_order (ps : list Ranking.Player) :
  Permutation ps (Ranking.sortedPlayers ps)
  /\ (exists tagged : list (nat * Ranking.Player),
         map snd tagged = Ranking.sortedPlayers ps
         /\ Permutation (Ranking.joinOrder ps) tagged
         /\ StronglySorted Ranking.ranked_before tagged)
  /\ (forall (currentUserId : string) (r : Ranking.FinalResults),
         Ranking.multiplayerResults "completed" (Some ps) currentUserId = Some r ->
         Ranking.players r = Ranking.sortedPlayers ps).
Proof.
  split; [apply sort_perm | split].
  - exists (Js.sort (Js.on_snd Ranking.rank_cmp) (Ranking.joinOrder ps)).
    split; [apply sortedPlayers_tagged | split; [apply sort_perm |]].
    apply sort_sorted.
    + apply ranked_lt.
    + apply ranked_eq.
    + apply ranked_gt.
    + apply ranked_chain.
    + apply combine_seq_older.
  - intros uid r. unfold Ranking.multiplayerResults.
    rewrite String.eqb_refl.
    destruct (2 <=? List.length ps)%nat; [| discriminate].
    intros [= <-]. reflexivity.
Qed.

(** An instance: the leaderboard of a completed match of two. *)
Lemma sortedPlayers_score_time_join_order_witness :
  let ps := [Ranking.mkPlayer "u1" "ada" (Some (100 # 1)) (Some (120 # 1));
             Ranking.mkPlayer "u2" "bob" (Some (145 # 1)) (Some (60 # 1))] in
  let r := Ranking.mkFinal 2 ["bob"; "ada"]%string (Ranking.sortedPlayers ps) in
  Ranking.players r = Ranking.sortedPlayers ps.
Proof.
  intros ps r.
  apply (proj2 (proj2 (sortedPlayers_score_time_join_order ps)) "u1"%string r).
  reflexivity.
Defined.

(** ** Comparing outputs *)

Section RunCheckFacts.
Import RunCheck.

Lemma str_eqb_eq (a b : jsstring) : str_eqb a b = true <-> a = b.
Proof.
  revert b. induction a as [| x a IH]; destruct b as [| y b]; simpl;
    try (split; [reflexivity || discriminate | reflexivity || discriminate]).
  rewrite andb_true_iff, N.eqb_eq, IH. split.
  - intros [-> ->]. reflexivity.
  - intros [= -> ->]. split; reflexivity.
Qed.

Lemma trimStart_ws_app (w s : jsstring) :
  all_white_space w -> trimStart (w ++ s) = trimStart s.
Proof.
  induction 1 as [| c w Hc _ IH]; simpl; auto.
  now rewrite Hc.
Qed.

Lemma trimStart_clean (s : jsstring) : starts_clean s -> trimStart s = s.
Proof.
  destruct s as [| c s]; simpl; auto. now intros ->.
Qed.

Lemma trimStart_starts_clean (s : jsstring) : starts_clean (trimStart s).
Proof.
  induction s as [| c s IH]; simpl; auto.
  destruct (is_white_space c) eqn:E; simpl; auto.
Qed.

(** The part that [trimStart] removes is whitespace. *)
Lemma trimStart_split (s : jsstring) :
  exists w, s = w ++ trimStart s /\ all_white_space w.
Proof.
  induction s as [| c s (w & Hs & Hw)]; simpl.
  - exists []. split; [reflexivity | constructor].
  - destruct (is_white_space c) eqn:E.
    + exists (c :: w). split; [simpl; congruence | now constructor].
    + exists []. split; [reflexivity | constructor].
Qed.

Lemma trimStart_app (s w : jsstring) :
  trimStart s <> [] -> trimStart (s ++ w) = trimStart s ++ w.
Proof.
  induction s as [| c s IH]; simpl; [congruence |].
  destruct (is_white_space c); auto.
Qed.

Lemma all_white_space_rev (w : jsstring) :
  all_white_space w -> all_white_space (rev w).
Proof. apply Forall_rev. Qed.

Lemma trimStart_all_ws (w : jsstring) : all_white_space w -> trimStart w = [].
Proof.
  intros Hw. rewrite <- (app_nil_r w). now rewrite trimStart_ws_app.
Qed.

Lemma trimEnd_app_ws (s w : jsstring) :
  all_white_space w -> trimEnd (s ++ w) = trimEnd s.
Proof.
  intros Hw. unfold trimEnd. rewrite rev_app_distr.
  now rewrite trimStart_ws_app by now apply all_white_space_rev.
Qed.

Lemma trimEnd_split (s : jsstring) :
  exists w, s = trimEnd s ++ w /\ all_white_space w.
Proof.
  destruct (trimStart_split (rev s)) as (w & Hs & Hw).
  exists (rev w). split; [| now apply all_white_space_rev].
  unfold trimEnd. rewrite <- rev_app_distr, <- Hs. now rewrite rev_involutive.
Qed.

(** Trimming the end keeps a clean front. *)
Lemma trimEnd_starts_clean (s : jsstring) :
  starts_clean s -> starts_clean (trimEnd s).
Proof.
  intros Hs. destruct (trimEnd_split s) as (w & Heq & Hw).
  destruct (trimEnd s) as [| c t] eqn:E; simpl; auto.
  rewrite Heq in Hs. exact Hs.
Qed.

Lemma trim_clean (s : jsstring) : clean (trim s).
Proof.
  split.
  - apply trimEnd_starts_clean, trimStart_starts_clean.
  - unfold trim, trimEnd. rewrite rev_involutive. apply trimStart_starts_clean.
Qed.

Lemma trim_split (s : jsstring) :
  exists w1 w2,
    s = w1 ++ trim s ++ w2 /\ all_white_space w1 /\ all_white_space w2.
Proof.
  destruct (trimStart_split s) as (w1 & H1 & Hw1).
  destruct (trimEnd_split (trimStart s)) as (w2 & H2 & Hw2).
  exists w1, w2. unfold trim. rewrite <- H2. auto.
Qed.

(** Whitespace around a string does not change what [trim] gives. *)
Lemma trim_surrounded (w1 core w2 : jsstring) :
  all_white_space w1 -> all_white_space w2 ->
  trim (w1 ++ core ++ w2) = trim core.
Proof.
  intros Hw1 Hw2. unfold trim. rewrite trimStart_ws_app by assumption.
  destruct (trimStart core) as [| c t] eqn:E.
  - destruct (trimStart_split core) as (w & Hcore & Hw).
    rewrite E, app_nil_r in Hcore. subst w.
    rewrite trimStart_all_ws; [reflexivity |].
    apply Forall_app. now split.
  - rewrite trimStart_app by (rewrite E; discriminate).
    rewrite E. now apply trimEnd_app_ws.
Qed.

Lemma passed_iff (actual expected : jsstring) :
  passed actual expected = true <-> trim actual = trim expected.
Proof. apply str_eqb_eq. Qed.

Lemma firstFailure_first (run : jsstring -> jsstring) (cases : list TestCase) :
  match firstFailure run cases with
  | Some (tc, actual) =>
      exists before after,
        cases = before ++ tc :: after
        /\ Forall (fun t => passed (run (input t)) (expectedOutput t) = true)
                  before
        /\ actual = run (input tc)
        /\ passed actual (expectedOutput tc) = false
  | None =>
      Forall (fun t => passed (run (input t)) (expectedOutput t) = true) cases
  end.
Proof.
  induction cases as [| tc rest IH]; simpl; [constructor |].
  destruct (passed (run (input tc)) (expectedOutput tc)) eqn:E.
  - destruct (firstFailure run rest) as [[tc' actual] |].
    + destruct IH as (before & after & -> & Hb & Ha & Hf).
      exists (tc :: before), after. repeat split; auto.
    + now constructor.
  - exists [], rest. repeat split; auto.
Qed.

End RunCheckFacts.

(** C5, counterexample: the outputs " 15" and "15" differ at the front, not
    in trailing whitespace, and compare equal. *)
Lemma leading_whitespace_compares_equal :
  ~ RunCheck.compares_up_to_trailing_whitespace.
Proof.
  intros Hclaim.
  destruct (Hclaim [32; 49; 53]%N [49; 53]%N) as [Hequal _].
  specialize (Hequal eq_refl). discriminate Hequal.
Qed.

(** C5, amended: a run's output passes a test case exactly when actual and
    expected output are equal, code unit by code unit, after whitespace is
    trimmed from both ends of both: [trim] removes whitespace only, leaves
    none at either end, and outputs that differ only in leading or trailing
    whitespace compare equal, all others unequal.  The validator reports the
    first case that fails so, with the actual output; every case before it
    passes. *)
Theorem passed_compares_trimmed_outputs :
  (forall actual expected : RunCheck.jsstring,
      RunCheck.passed actual expected = true
      <-> RunCheck.trim actual = RunCheck.trim expected)
  /\ (forall s : RunCheck.jsstring,
         RunCheck.clean (RunCheck.trim s)
         /\ exists w1 w2,
              s = w1 ++ RunCheck.trim s ++ w2
              /\ RunCheck.all_white_space w1 /\ RunCheck.all_white_space w2)
  /\ (forall core w1 w2 w3 w4 : RunCheck.jsstring,
         RunCheck.all_white_space w1 -> RunCheck.all_white_space w2 ->
         RunCheck.all_white_space w3 -> RunCheck.all_white_space w4 ->
         RunCheck.passed (w1 ++ core ++ w2) (w3 ++ core ++ w4) = true)
  /\ (forall (run : RunCheck.jsstring -> RunCheck.jsstring)
             (cases : list RunCheck.TestCase),
         match RunCheck.firstFailure run cases with
         | Some (tc, actual) =>
             exists before after,
               cases = before ++ tc :: after
               /\ Forall (fun t => RunCheck.passed (run (RunCheck.input t))
                                     (RunCheck.expectedOutput t) = true) before
               /\ actual = run (RunCheck.input tc)
               /\ RunCheck.passed actual (RunCheck.expectedOutput tc) = false
         | None =>
             Forall (fun t => RunCheck.passed (run (RunCheck.input t))
                                (RunCheck.expectedOutput t) = true) cases
         end).
Proof.
  split; [exact passed_iff | split; [| split]].
  - intros s. split; [apply trim_clean | apply trim_split].
  - intros core w1 w2 w3 w4 H1 H2 H3 H4.
    apply passed_iff. now rewrite !trim_surrounded.
  - exact firstFailure_first.
Qed.

(** An instance: " 15" followed by a line feed against "15". *)
Lemma passed_compares_trimmed_outputs_witness :
  RunCheck.passed ([32] ++ [49; 53] ++ [10])%N ([] ++ [49; 53] ++ [])%N = true.
Proof.
  destruct passed_compares_trimmed_outputs as (_ & _ & Hsurrounded & _).
  apply (Hsurrounded [49; 53] [32] [10] [] [])%N; repeat constructor.
Defined.

(* ================================================================== *)
(** ** Doubles *)

Section Binary64Facts.
Import Binary64.
Local Open Scope Q_scope.

Lemma pow2_pos (e : Z) : 0 < pow2 e.
Proof. apply Qpower_0_lt. reflexivity. Qed.

Lemma pow2_plus (a b : Z) : pow2 (a + b) == pow2 a * pow2 b.
Proof. apply Qpower_plus. discriminate. Qed.

Lemma pow2_le (a b : Z) : (a <= b)%Z -> pow2 a <= pow2 b.
Proof. intros H. apply Qpower_le_compat_l; [exact H | discriminate]. Qed.

Lemma pow2_Z (k : Z) : (0 <= k)%Z -> pow2 k == inject_Z (2 ^ k).
Proof.
  intros Hk. unfold pow2. change 2 with (inject_Z 2). symmetry.
  now apply Zpower_Qpower.
Qed.

Lemma pow2_minus_Z (a b : Z) :
  (0 <= a)%Z -> (0 <= b)%Z ->
  pow2 (a - b) == inject_Z (2 ^ a) / inject_Z (2 ^ b).
Proof.
  intros Ha Hb. rewrite <- (pow2_Z a Ha), <- (pow2_Z b Hb).
  unfold pow2. apply Qpower_minus. discriminate.
Qed.

(** *** Rounding to an integer *)

Lemma rne_floor (q : Q) : (Qfloor q <= rne q <= Qfloor q + 1)%Z.
Proof.
  unfold rne. cbv zeta.
  destruct (Qcompare (q - inject_Z (Qfloor q)) (1 # 2));
    try destruct (Z.even (Qfloor q)); lia.
Qed.

Lemma rne_comp (a b : Q) : a == b -> rne a = rne b.
Proof.
  intros H. unfold rne. cbv zeta. rewrite (Qfloor_comp a b H).
  assert (E : Qcompare (a - inject_Z (Qfloor b)) (1 # 2)
              = Qcompare (b - inject_Z (Qfloor b)) (1 # 2))
    by (apply Qcompare_comp; [now rewrite H | reflexivity]).
  now rewrite E.
Qed.

Lemma rne_ge_int (n : Z) (q : Q) : inject_Z n <= q -> (n <= rne q)%Z.
Proof.
  intros H. apply Qfloor_resp_le in H. rewrite Qfloor_Z in H.
  pose proof (rne_floor q). lia.
Qed.

Lemma rne_le_int (n : Z) (q : Q) : q <= inject_Z n -> (rne q <= n)%Z.
Proof.
  intros H. pose proof (Qfloor_resp_le _ _ H) as Hf. rewrite Qfloor_Z in Hf.
  destruct (Z.eq_dec (Qfloor q) n) as [E | E].
  - unfold rne. cbv zeta.
    assert (Hq : q - inject_Z (Qfloor q) < 1 # 2).
    { pose proof (Qfloor_le q) as Hl. rewrite E in *. lra. }
    apply (proj1 (Qlt_alt _ _)) in Hq. rewrite Hq. lia.
  - pose proof (rne_floor q). lia.
Qed.

Lemma rne_Z (n : Z) : rne (inject_Z n) = n.
Proof.
  apply Z.le_antisymm; [apply rne_le_int | apply rne_ge_int]; apply Qle_refl.
Qed.

Lemma rne_mono (a b : Q) : a <= b -> (rne a <= rne b)%Z.
Proof.
  intros H. pose proof (Qfloor_resp_le _ _ H) as Hf.
  destruct (Z.eq_dec (Qfloor a) (Qfloor b)) as [E | E].
  - unfold rne. cbv zeta. rewrite E.
    destruct (Qcompare (a - inject_Z (Qfloor b)) (1 # 2)) eqn:Ea;
      destruct (Qcompare (b - inject_Z (Qfloor b)) (1 # 2)) eqn:Eb;
      try destruct (Z.even (Qfloor b)); try lia; exfalso;
      try apply (proj2 (Qeq_alt _ _)) in Ea;
      try apply (proj2 (Qlt_alt _ _)) in Ea;
      try apply (proj2 (Qgt_alt _ _)) in Ea;
      try apply (proj2 (Qeq_alt _ _)) in Eb;
      try apply (proj2 (Qlt_alt _ _)) in Eb;
      try apply (proj2 (Qgt_alt _ _)) in Eb; lra.
  - pose proof (rne_floor a). pose proof (rne_floor b). lia.
Qed.

(** *** The exponent *)

Lemma ilog2_spec (x : Q) :
  0 < x -> pow2 (ilog2 x) <= x /\ x < pow2 (ilog2 x + 1).
Proof.
  intros Hx. destruct x as [n d]. unfold ilog2. cbn [Qnum Qden].
  assert (Hn : (0 < n)%Z) by (revert Hx; unfold Qlt; simpl; lia).
  pose proof (Z.log2_spec n Hn) as [Hn1 Hn2].
  pose proof (Z.log2_spec (Z.pos d) eq_refl) as [Hd1 Hd2].
  pose proof (Z.log2_nonneg n) as Hln.
  pose proof (Z.log2_nonneg (Z.pos d)) as Hld.
  set (ln := Z.log2 n) in *. set (ld := Z.log2 (Z.pos d)) in *.
  assert (Hpn : (0 < 2 ^ ln)%Z) by (apply Z.pow_pos_nonneg; lia).
  assert (Hpd : (0 < 2 ^ ld)%Z) by (apply Z.pow_pos_nonneg; lia).
  rewrite Z.pow_succ_r in Hn2, Hd2 by lia.
  assert (Hup : n # d < pow2 (ln - ld + 1)).
  { replace (ln - ld + 1)%Z with ((ln + 1) - ld)%Z by lia.
    rewrite pow2_minus_Z by lia. apply Qlt_shift_div_l.
    - unfold Qlt. simpl. lia.
    - rewrite Z.pow_add_r, Z.pow_1_r by lia.
      unfold Qlt, Qmult, inject_Z. simpl. nia. }
  assert (Hlow : pow2 (ln - ld - 1) <= n # d).
  { replace (ln - ld - 1)%Z with (ln - (ld + 1))%Z by lia.
    rewrite pow2_minus_Z by lia. apply Qle_shift_div_r.
    - assert ((0 < 2 ^ (ld + 1))%Z) by (apply Z.pow_pos_nonneg; lia).
      unfold Qlt. simpl. lia.
    - rewrite Z.pow_add_r, Z.pow_1_r by lia.
      unfold Qle, Qmult, inject_Z. simpl. nia. }
  destruct (Qle_bool (pow2 (ln - ld)) (n # d)) eqn:E.
  - apply Qle_bool_iff in E. split; assumption.
  - split; [exact Hlow |].
    replace (ln - ld - 1 + 1)%Z with (ln - ld)%Z by lia.
    apply Qnot_le_lt. intros H. apply Qle_bool_iff in H. congruence.
Qed.

Lemma ilog2_unique (x : Q) (k : Z) :
  pow2 k <= x -> x < pow2 (k + 1) -> 0 < x -> ilog2 x = k.
Proof.
  intros Hk1 Hk2 Hx. destruct (ilog2_spec x Hx) as [H1 H2].
  destruct (Z.lt_trichotomy (ilog2 x) k) as [Hlt | [Heq | Hgt]]; auto; exfalso.
  - assert (pow2 (ilog2 x + 1) <= pow2 k) by (apply pow2_le; lia). lra.
  - assert (pow2 (k + 1) <= pow2 (ilog2 x)) by (apply pow2_le; lia). lra.
Qed.

Lemma ilog2_mono (x y : Q) : 0 < x -> x <= y -> (ilog2 x <= ilog2 y)%Z.
Proof.
  intros Hx Hxy. assert (Hy : 0 < y) by lra.
  destruct (ilog2_spec x Hx) as [H1 _]. destruct (ilog2_spec y Hy) as [_ H2].
  destruct (Z.le_gt_cases (ilog2 x) (ilog2 y)) as [H | H]; auto. exfalso.
  assert (pow2 (ilog2 y + 1) <= pow2 (ilog2 x)) by (apply pow2_le; lia). lra.
Qed.

Lemma ilog2_comp (x y : Q) : 0 < x -> x == y -> ilog2 x = ilog2 y.
Proof.
  intros Hx H. assert (Hy : 0 < y) by lra.
  destruct (ilog2_spec y Hy) as [H1 H2].
  apply ilog2_unique; lra.
Qed.

Lemma fexp_mono (x y : Q) : 0 < x -> x <= y -> (fexp x <= fexp y)%Z.
Proof.
  intros Hx Hxy. unfold fexp. pose proof (ilog2_mono x y Hx Hxy). lia.
Qed.

Lemma fexp_comp (x y : Q) : 0 < x -> x == y -> fexp x = fexp y.
Proof. intros Hx H. unfold fexp. now rewrite (ilog2_comp x y Hx H). Qed.

Lemma fexp_emin (x : Q) : (emin <= fexp x)%Z.
Proof. unfold fexp. lia. Qed.

(** The significand: below [2^53], and at least [2^52] above the
    subnormal range. *)
Lemma scaled_lt (x : Q) : 0 < x -> x / pow2 (fexp x) < pow2 prec.
Proof.
  intros Hx. destruct (ilog2_spec x Hx) as [_ H2].
  apply Qlt_shift_div_r; [apply pow2_pos |].
  rewrite <- pow2_plus.
  assert (pow2 (ilog2 x + 1) <= pow2 (prec + fexp x))
    by (apply pow2_le; unfold fexp, prec; lia).
  lra.
Qed.

Lemma scaled_ge (x : Q) :
  0 < x -> (emin < fexp x)%Z -> pow2 (prec - 1) <= x / pow2 (fexp x).
Proof.
  intros Hx He. destruct (ilog2_spec x Hx) as [H1 _].
  apply Qle_shift_div_l; [apply pow2_pos |].
  rewrite <- pow2_plus.
  assert (pow2 (prec - 1 + fexp x) <= pow2 (ilog2 x))
    by (apply pow2_le; unfold fexp, prec in *; lia).
  lra.
Qed.

Lemma round_pos_value (x : Q) :
  round_pos x == inject_Z (rne (x / pow2 (fexp x))) * pow2 (fexp x).
Proof. unfold round_pos. apply Qred_correct. Qed.

Lemma round_pos_nonneg (x : Q) : 0 < x -> 0 <= round_pos x.
Proof.
  intros Hx. rewrite round_pos_value.
  apply Qmult_le_0_compat; [| apply Qlt_le_weak, pow2_pos].
  assert (H0 : (0 <= rne (x / pow2 (fexp x)))%Z).
  { apply rne_ge_int. apply Qle_shift_div_l; [apply pow2_pos |].
    change (inject_Z 0) with 0. rewrite Qmult_0_l. lra. }
  rewrite Zle_Qle in H0. exact H0.
Qed.

Lemma round_pos_comp (x y : Q) : 0 < x -> x == y -> round_pos x = round_pos y.
Proof.
  intros Hx H. unfold round_pos. rewrite (fexp_comp x y Hx H).
  f_equal. f_equal. f_equal. apply rne_comp. now rewrite H.
Qed.

Lemma round_pos_mono (x y : Q) :
  0 < x -> x <= y -> round_pos x <= round_pos y.
Proof.
  intros Hx Hxy. assert (Hy : 0 < y) by lra.
  rewrite !round_pos_value.
  pose proof (fexp_mono x y Hx Hxy) as He.
  destruct (Z.eq_dec (fexp x) (fexp y)) as [E | E].
  - rewrite E. apply Qmult_le_compat_r; [| apply Qlt_le_weak, pow2_pos].
    rewrite <- Zle_Qle. apply rne_mono.
    apply Qmult_le_compat_r; [exact Hxy |].
    apply Qlt_le_weak, Qinv_lt_0_compat, pow2_pos.
  - assert (Hlt : (fexp x < fexp y)%Z) by lia.
    assert (Hx53 : inject_Z (rne (x / pow2 (fexp x))) <= pow2 prec).
    { rewrite (pow2_Z prec) by discriminate. rewrite <- Zle_Qle.
      apply rne_le_int. rewrite <- pow2_Z by discriminate.
      apply Qlt_le_weak, scaled_lt, Hx. }
    assert (Hy52 : pow2 (prec - 1) <= inject_Z (rne (y / pow2 (fexp y)))).
    { rewrite (pow2_Z (prec - 1)) by discriminate. rewrite <- Zle_Qle.
      apply rne_ge_int. rewrite <- pow2_Z by discriminate.
      apply scaled_ge; [exact Hy |]. pose proof (fexp_emin x). lia. }
    apply Qle_trans with (pow2 prec * pow2 (fexp x)).
    { apply Qmult_le_compat_r; [exact Hx53 | apply Qlt_le_weak, pow2_pos]. }
    apply Qle_trans with (pow2 (prec - 1) * pow2 (fexp y)).
    { rewrite <- !pow2_plus. apply pow2_le. lia. }
    apply Qmult_le_compat_r; [exact Hy52 | apply Qlt_le_weak, pow2_pos].
Qed.

(** *** Rounding keeps the order *)

Lemma dle_refl_finite (q : Q) : dle (Finite q) (Finite q).
Proof. simpl. apply Qle_refl. Qed.

Lemma round_not_nan (x : Q) : round x <> NaN.
Proof.
  unfold round. destruct (Qcompare x 0); cbv zeta;
    try destruct (Qle_bool _ _); discriminate.
Qed.

Lemma round_mono (x y : Q) : x <= y -> dle (round x) (round y).
Proof.
  intros Hxy. unfold round. cbv zeta.
  destruct (Qcompare x 0) eqn:Ex; destruct (Qcompare y 0) eqn:Ey;
    try apply (proj2 (Qeq_alt _ _)) in Ex;
    try apply (proj2 (Qlt_alt _ _)) in Ex;
    try apply (proj2 (Qgt_alt _ _)) in Ex;
    try apply (proj2 (Qeq_alt _ _)) in Ey;
    try apply (proj2 (Qlt_alt _ _)) in Ey;
    try apply (proj2 (Qgt_alt _ _)) in Ey;
    try (exfalso; lra).
  - apply Qle_refl.
  - pose proof (round_pos_nonneg y Ey).
    destruct (Qle_bool (pow2 emax) (round_pos y)); simpl; auto.
  - assert (0 <= round_pos (- x)) by (apply round_pos_nonneg; lra).
    destruct (Qle_bool (pow2 emax) (round_pos (- x))); simpl; auto. lra.
  - assert (Hm : round_pos (- y) <= round_pos (- x))
      by (apply round_pos_mono; lra).
    destruct (Qle_bool (pow2 emax) (round_pos (- x))) eqn:Bx;
      destruct (Qle_bool (pow2 emax) (round_pos (- y))) eqn:By_;
      simpl; auto; try lra.
    apply Qle_bool_iff in By_.
    assert (Hc : Qle_bool (pow2 emax) (round_pos (- x)) = true)
      by (apply Qle_bool_iff; lra).
    congruence.
  - assert (0 <= round_pos (- x)) by (apply round_pos_nonneg; lra).
    pose proof (round_pos_nonneg y Ey).
    destruct (Qle_bool (pow2 emax) (round_pos (- x)));
      destruct (Qle_bool (pow2 emax) (round_pos y)); simpl; auto. lra.
  - assert (Hm : round_pos x <= round_pos y)
      by (apply round_pos_mono; lra).
    destruct (Qle_bool (pow2 emax) (round_pos x)) eqn:Bx;
      destruct (Qle_bool (pow2 emax) (round_pos y)) eqn:By_;
      simpl; auto.
    apply Qle_bool_iff in Bx.
    assert (Hc : Qle_bool (pow2 emax) (round_pos y) = true)
      by (apply Qle_bool_iff; lra).
    congruence.
Qed.

Lemma round_comp (x y : Q) : x == y -> round x = round y.
Proof.
  intros H. unfold round. cbv zeta.
  assert (E : Qcompare x 0 = Qcompare y 0)
    by (apply Qcompare_comp; [exact H | reflexivity]).
  rewrite E. destruct (Qcompare y 0) eqn:Ey; [reflexivity | |].
  - apply (proj2 (Qlt_alt _ _)) in Ey.
    assert (R : round_pos (- x) = round_pos (- y))
      by (apply round_pos_comp; lra).
    now rewrite R.
  - apply (proj2 (Qgt_alt _ _)) in Ey.
    assert (R : round_pos x = round_pos y) by (apply round_pos_comp; lra).
    now rewrite R.
Qed.

(** *** The order of the doubles *)

Lemma dle_trans (a b c : double) : dle a b -> dle b c -> dle a c.
Proof.
  destruct a, b, c; simpl; auto; try contradiction. apply Qle_trans.
Qed.

Lemma dle_posinf (a : double) : a <> NaN -> dle a PosInf.
Proof. destruct a; simpl; auto. Qed.

Lemma dle_neginf (a : double) : a <> NaN -> dle NegInf a.
Proof. destruct a; simpl; auto. Qed.

(** A double between two finite doubles is finite. *)
Lemma between_finite (a b : Q) (x : double) :
  dle (Finite a) x -> dle x (Finite b) ->
  exists q, x = Finite q /\ a <= q /\ q <= b.
Proof.
  destruct x; simpl; try contradiction. intros Ha Hb. now exists q.
Qed.

Lemma fsub_not_nan (c : Q) (a : double) :
  a <> NaN -> fsub (Finite c) a <> NaN.
Proof.
  destruct a; simpl; try discriminate; [| congruence].
  intros _. apply round_not_nan.
Qed.

Lemma inf_times_pos (k : Q) : 0 < k -> inf_times k = PosInf.
Proof.
  intros Hk. unfold inf_times. apply (proj1 (Qgt_alt _ _)) in Hk.
  now rewrite Hk.
Qed.

Lemma fmul_not_nan (k : Q) (a : double) :
  0 < k -> a <> NaN -> fmul a (Finite k) <> NaN.
Proof.
  intros Hk. destruct a; simpl; rewrite ?(inf_times_pos k Hk);
    try discriminate; [| congruence].
  intros _. apply round_not_nan.
Qed.

(** Subtracting from a finite double reverses the order; multiplying by a
    positive finite double keeps it. *)
Lemma fsub_anti (c : Q) (a b : double) :
  dle a b -> dle (fsub (Finite c) b) (fsub (Finite c) a).
Proof.
  destruct a as [x | | |], b as [y | | |]; simpl; auto; try contradiction.
  - intros H. apply round_mono. lra.
  - intros _. apply dle_neginf, round_not_nan.
  - intros _. apply dle_posinf, round_not_nan.
Qed.

Lemma fmul_mono (k : Q) (a b : double) :
  0 < k -> dle a b -> dle (fmul a (Finite k)) (fmul b (Finite k)).
Proof.
  intros Hk.
  destruct a as [x | | |], b as [y | | |]; simpl;
    rewrite ?(inf_times_pos k Hk); simpl; auto; try contradiction.
  - intros H. apply round_mono. apply Qmult_le_compat_r; lra.
  - intros _. apply dle_posinf, round_not_nan.
  - intros _. apply dle_neginf, round_not_nan.
Qed.

End Binary64Facts.
(** ** Scoring *)

Section ScoringFacts.
Import Binary64 Scoring.
Local Open Scope Q_scope.

Lemma int_comp (p q : Q) : p == q -> int p = int q.
Proof.
  unfold Qeq, int. destruct p as [n d], q as [n' d']. simpl. intros H.
  rewrite <- (Z.quot_mul_cancel_r n (Zpos d) (Zpos d')) by lia.
  rewrite <- (Z.quot_mul_cancel_r n' (Zpos d') (Zpos d)) by lia.
  rewrite H. f_equal. lia.
Qed.

Lemma int_le (q : Q) (k : Z) : q <= inject_Z k -> (int q <= k)%Z.
Proof.
  unfold Qle, int. destruct q as [n d]. simpl. intros H.
  apply Z.quot_le_upper_bound; lia.
Qed.

Lemma int_nonneg (q : Q) : 0 <= q -> (0 <= int q)%Z.
Proof.
  unfold Qle, int. destruct q as [n d]. simpl. intros H.
  apply Z.quot_pos; lia.
Qed.

Lemma int_nonpos (q : Q) : q <= 0 -> (int q <= 0)%Z.
Proof. intros H. apply (int_le q 0). exact H. Qed.

Lemma int_inject (k : Z) : int (inject_Z k) = k.
Proof. unfold int, inject_Z. simpl. apply Z.quot_1_r. Qed.

Lemma int_mono (p q : Q) : p <= q -> (int p <= int q)%Z.
Proof.
  unfold Qle, int. destruct p as [n d], q as [n' d']. simpl. intros H.
  rewrite <- (Z.quot_mul_cancel_r n (Zpos d) (Zpos d')) by lia.
  rewrite <- (Z.quot_mul_cancel_r n' (Zpos d') (Zpos d)) by lia.
  replace (Z.pos d' * Z.pos d)%Z with (Z.pos d * Z.pos d')%Z by lia.
  apply Z.quot_le_mono; lia.
Qed.

Lemma to_int_mono (a b : double) (x y : Z) :
  dle a b -> to_int a = Some x -> to_int b = Some y -> (x <= y)%Z.
Proof.
  destruct a, b; simpl; try discriminate.
  intros H [= <-] [= <-]. now apply int_mono.
Qed.

Lemma to_int_between (lo hi : Z) (a : double) :
  dle (Finite (inject_Z lo)) a -> dle a (Finite (inject_Z hi)) ->
  exists x, to_int a = Some x /\ (lo <= x <= hi)%Z.
Proof.
  intros Hlo Hhi.
  destruct (between_finite _ _ _ Hlo Hhi) as (q & -> & H1 & H2).
  exists (int q). split; [reflexivity |]. split.
  - rewrite <- (int_inject lo). now apply int_mono.
  - now apply int_le.
Qed.

Lemma div_some (x y : Q) : ~ y == 0 -> div x y = Some (round (x / y)).
Proof.
  intros Hy. unfold div. destruct (Qeq_bool y 0) eqn:E; auto.
  apply Qeq_bool_eq in E. contradiction.
Qed.

(** *** The test score *)

(** The share of the tests that passed, as the division gives it. *)
Lemma share_range (passed_tests total_tests : nat) :
  total_tests <> O -> (passed_tests <= total_tests)%nat ->
  exists q,
    true_div (Z.of_nat passed_tests) (Z.of_nat total_tests) = Some (Finite q)
    /\ 0 <= q /\ q <= 1.
Proof.
  intros Ht Hle. unfold true_div.
  destruct (Z.eqb_spec (Z.of_nat total_tests) 0) as [E | _]; [lia |].
  set (x := inject_Z (Z.of_nat passed_tests) / inject_Z (Z.of_nat total_tests)).
  assert (Hpos : 0 < inject_Z (Z.of_nat total_tests))
    by (unfold Qlt; simpl; lia).
  assert (H0 : 0 <= x).
  { unfold x. apply Qle_shift_div_l; [exact Hpos |].
    rewrite Qmult_0_l. change 0 with (inject_Z 0).
    rewrite <- Zle_Qle. lia. }
  assert (H1 : x <= 1).
  { unfold x. apply Qle_shift_div_r; [exact Hpos |].
    rewrite Qmult_1_l. rewrite <- Zle_Qle. lia. }
  pose proof (round_mono 0 x H0) as Hlo.
  pose proof (round_mono x 1 H1) as Hhi.
  change (round 0) with (Finite 0) in Hlo.
  change (round 1) with (Finite 1) in Hhi.
  destruct (between_finite _ _ _ Hlo Hhi) as (q & Hq & Hq0 & Hq1).
  exists q. rewrite Hq. auto.
Qed.

Lemma percent_range (q : Q) :
  0 <= q -> q <= 1 ->
  exists score, to_int (fmul (Finite q) (Finite 100)) = Some score
                /\ (0 <= score <= 100)%Z.
Proof.
  intros H0 H1. apply to_int_between.
  - change (Finite (inject_Z 0)) with (fmul (Finite 0) (Finite 100)).
    apply fmul_mono; [reflexivity | exact H0].
  - change (Finite (inject_Z 100)) with (fmul (Finite 1) (Finite 100)).
    apply fmul_mono; [reflexivity | exact H1].
Qed.

Lemma test_score_range (passed_tests total_tests : nat) :
  total_tests <> O -> (passed_tests <= total_tests)%nat ->
  exists score, test_score passed_tests total_tests = Some score
                /\ (0 <= score <= 100)%Z.
Proof.
  intros Ht Hle. unfold test_score.
  destruct (share_range passed_tests total_tests Ht Hle) as (q & -> & H0 & H1).
  now apply percent_range.
Qed.

Lemma test_score_zero (total_tests : nat) :
  total_tests <> O -> test_score 0 total_tests = Some 0%Z.
Proof.
  intros Ht. unfold test_score, true_div.
  destruct (Z.eqb_spec (Z.of_nat total_tests) 0) as [E | _]; [lia |].
  assert (E : round (inject_Z (Z.of_nat 0) / inject_Z (Z.of_nat total_tests))
              = Finite 0).
  { change (Finite 0) with (round 0). apply round_comp.
    unfold Qeq. simpl. lia. }
  rewrite E. reflexivity.
Qed.

Lemma test_score_all (total_tests : nat) :
  total_tests <> O -> test_score total_tests total_tests = Some 100%Z.
Proof.
  intros Ht. unfold test_score, true_div.
  destruct (Z.eqb_spec (Z.of_nat total_tests) 0) as [E | _]; [lia |].
  assert (E : round (inject_Z (Z.of_nat total_tests)
                     / inject_Z (Z.of_nat total_tests)) = Finite 1).
  { change (Finite 1) with (round 1). apply round_comp.
    field. unfold Qeq. simpl. lia. }
  rewrite E. reflexivity.
Qed.

(** A larger count of passed tests gives no smaller score. *)
Lemma test_score_mono (p p' total_tests : nat) (score score' : Z) :
  (p <= p')%nat ->
  test_score p total_tests = Some score ->
  test_score p' total_tests = Some score' ->
  (score <= score')%Z.
Proof.
  intros Hle. unfold test_score, true_div.
  destruct (Z.eqb_spec (Z.of_nat total_tests) 0) as [E | Hne]; [discriminate |].
  assert (Hpos : 0 < inject_Z (Z.of_nat total_tests))
    by (unfold Qlt; simpl; lia).
  assert (Hx : inject_Z (Z.of_nat p) / inject_Z (Z.of_nat total_tests)
               <= inject_Z (Z.of_nat p') / inject_Z (Z.of_nat total_tests)).
  { unfold Qdiv. apply Qmult_le_compat_r.
    - rewrite <- Zle_Qle. lia.
    - apply Qlt_le_weak, Qinv_lt_0_compat, Hpos. }
  pose proof (round_mono _ _ Hx) as Hr.
  destruct (round (inject_Z (Z.of_nat p) / _)) as [q | | |];
    try discriminate.
  destruct (round (inject_Z (Z.of_nat p') / _)) as [q' | | |];
    try discriminate.
  apply to_int_mono. apply fmul_mono; [reflexivity | exact Hr].
Qed.

(** When a larger count has a score, a smaller count has one. *)
Lemma test_score_defined (p p' total_tests : nat) :
  (p <= p')%nat ->
  test_score p' total_tests <> None -> test_score p total_tests <> None.
Proof.
  intros Hle. unfold test_score, true_div.
  destruct (Z.eqb_spec (Z.of_nat total_tests) 0) as [E | Hne]; [auto |].
  assert (Hpos : 0 < inject_Z (Z.of_nat total_tests))
    by (unfold Qlt; simpl; lia).
  assert (H0 : 0 <= inject_Z (Z.of_nat p) / inject_Z (Z.of_nat total_tests)).
  { apply Qle_shift_div_l; [exact Hpos |].
    rewrite Qmult_0_l. change 0 with (inject_Z 0).
    rewrite <- Zle_Qle. lia. }
  assert (Hx : inject_Z (Z.of_nat p) / inject_Z (Z.of_nat total_tests)
               <= inject_Z (Z.of_nat p') / inject_Z (Z.of_nat total_tests)).
  { unfold Qdiv. apply Qmult_le_compat_r.
    - rewrite <- Zle_Qle. lia.
    - apply Qlt_le_weak, Qinv_lt_0_compat, Hpos. }
  pose proof (round_mono _ _ H0) as Hlo.
  pose proof (round_mono _ _ Hx) as Hr.
  change (round 0) with (Finite 0) in Hlo.
  destruct (round (inject_Z (Z.of_nat p') / _)) as [q' | | |];
    try (intros H; now elim H).
  destruct (between_finite _ _ _ Hlo Hr) as (q & -> & Hq0 & Hq).
  intros Hdef.
  assert (Hlo' : dle (Finite 0) (fmul (Finite q) (Finite 100))).
  { change (Finite 0) with (fmul (Finite 0) (Finite 100)).
    apply fmul_mono; [reflexivity | exact Hq0]. }
  assert (Hhi' : dle (fmul (Finite q) (Finite 100))
                     (fmul (Finite q') (Finite 100)))
    by (apply fmul_mono; [reflexivity | exact Hq]).
  destruct (fmul (Finite q') (Finite 100)) as [v' | | |];
    try (now elim Hdef).
  destruct (between_finite _ _ _ Hlo' Hhi') as (v & -> & _).
  discriminate.
Qed.

(** *** The time bonus *)

Lemma time_bonus_gated (score : Z) (time_ratio : double) :
  (score <= 0)%Z ->
  apply_time_bonus score time_ratio = Some (mkScored 0 0).
Proof.
  intros Hs. unfold apply_time_bonus.
  destruct (Z.ltb_spec 0 score); [lia | reflexivity].
Qed.

Lemma time_bonus_open (score : Z) (time_ratio : double) (s : Scored) :
  (0 < score)%Z ->
  apply_time_bonus score time_ratio = Some s ->
  to_int (fmul (fsub (Finite 1) time_ratio) (Finite 50))
  = Some (time_bonus s)
  /\ final_score s = (score + time_bonus s)%Z.
Proof.
  intros Hs. unfold apply_time_bonus.
  destruct (Z.ltb_spec 0 score); [| lia].
  destruct (to_int _) as [b |]; [| discriminate].
  intros [= <-]. split; reflexivity.
Qed.

(** The bonus falls as the ratio grows. *)
Lemma bonus_float_anti (r r' : double) :
  dle r r' ->
  dle (fmul (fsub (Finite 1) r') (Finite 50))
      (fmul (fsub (Finite 1) r) (Finite 50)).
Proof.
  intros H. apply fmul_mono; [reflexivity |]. now apply fsub_anti.
Qed.

Lemma ratio_nonneg (time_elapsed time_limit : Q) :
  0 <= time_elapsed -> 0 < time_limit ->
  dle (Finite 0) (round (time_elapsed / time_limit)).
Proof.
  intros He Hl. change (Finite 0) with (round 0). apply round_mono.
  apply Qle_shift_div_l; [exact Hl | lra].
Qed.

Lemma ratio_le_one (time_elapsed time_limit : Q) :
  0 < time_limit -> time_elapsed <= time_limit ->
  dle (round (time_elapsed / time_limit)) (Finite 1).
Proof.
  intros Hl He. change (Finite 1) with (round 1). apply round_mono.
  apply Qle_shift_div_r; [exact Hl | lra].
Qed.

Lemma ratio_ge_one (time_elapsed time_limit : Q) :
  0 < time_limit -> time_limit <= time_elapsed ->
  dle (Finite 1) (round (time_elapsed / time_limit)).
Proof.
  intros Hl He. change (Finite 1) with (round 1). apply round_mono.
  apply Qle_shift_div_l; [exact Hl | lra].
Qed.

(** At most 50 points for a ratio that is not negative; at least none up
    to a ratio of 1, at most none from there on. *)
Lemma bonus_le_50 (r : double) (b : Z) :
  dle (Finite 0) r ->
  to_int (fmul (fsub (Finite 1) r) (Finite 50)) = Some b -> (b <= 50)%Z.
Proof.
  intros Hr Hb. pose proof (bonus_float_anti _ _ Hr) as H.
  change (fmul (fsub (Finite 1) (Finite 0)) (Finite 50))
    with (Finite 50) in H.
  apply (to_int_mono _ _ b 50 H Hb). reflexivity.
Qed.

Lemma bonus_ge_0 (r : double) (b : Z) :
  dle r (Finite 1) ->
  to_int (fmul (fsub (Finite 1) r) (Finite 50)) = Some b -> (0 <= b)%Z.
Proof.
  intros Hr Hb. pose proof (bonus_float_anti _ _ Hr) as H.
  change (fmul (fsub (Finite 1) (Finite 1)) (Finite 50))
    with (Finite 0) in H.
  apply (to_int_mono _ _ 0 b H); [reflexivity | exact Hb].
Qed.

Lemma bonus_le_0 (r : double) (b : Z) :
  dle (Finite 1) r ->
  to_int (fmul (fsub (Finite 1) r) (Finite 50)) = Some b -> (b <= 0)%Z.
Proof.
  intros Hr Hb. pose proof (bonus_float_anti _ _ Hr) as H.
  change (fmul (fsub (Finite 1) (Finite 1)) (Finite 50))
    with (Finite 0) in H.
  apply (to_int_mono _ _ b 0 H Hb). reflexivity.
Qed.

(** The bonus is defined for every ratio that is not astronomically
    large. *)
Lemma bonus_defined (r : double) :
  dle (Finite (- pow2 1000)) r -> dle r (Finite (pow2 1000)) ->
  exists b, to_int (fmul (fsub (Finite 1) r) (Finite 50)) = Some b.
Proof.
  intros Hlo Hhi.
  pose proof (bonus_float_anti _ _ Hlo) as H1.
  pose proof (bonus_float_anti _ _ Hhi) as H2.
  assert (E1 : exists hi, fmul (fsub (Finite 1) (Finite (- pow2 1000)))
                               (Finite 50) = Finite hi)
    by (vm_compute; eexists; reflexivity).
  assert (E2 : exists lo, fmul (fsub (Finite 1) (Finite (pow2 1000)))
                               (Finite 50) = Finite lo)
    by (vm_compute; eexists; reflexivity).
  destruct E1 as (hi & E1). destruct E2 as (lo & E2).
  rewrite E1 in H1. rewrite E2 in H2.
  destruct (between_finite _ _ _ H2 H1) as (q & -> & _).
  eexists. reflexivity.
Qed.

Lemma ratio_bounded (x : Q) :
  - pow2 1000 <= x -> x <= pow2 1000 ->
  dle (Finite (- pow2 1000)) (round x) /\ dle (round x) (Finite (pow2 1000)).
Proof.
  intros Hlo Hhi.
  assert (E1 : round (- pow2 1000) = Finite (- pow2 1000))
    by (vm_compute; reflexivity).
  assert (E2 : round (pow2 1000) = Finite (pow2 1000))
    by (vm_compute; reflexivity).
  split.
  - rewrite <- E1. now apply round_mono.
  - rewrite <- E2. now apply round_mono.
Qed.

Lemma score_submission_value
    (passed_tests total_tests : nat) (time_elapsed time_limit : Q)
    (score : Z) :
  test_score passed_tests total_tests = Some score -> ~ time_limit == 0 ->
  score_submission passed_tests total_tests time_elapsed time_limit
  = apply_time_bonus score (round (time_elapsed / time_limit)).
Proof.
  intros Hs Hl. unfold score_submission, score_with_bonus.
  now rewrite Hs, div_some.
Qed.

End ScoringFacts.

(** C2: a submission that passes no test case has a score, and it is
    exactly 0 with no time bonus, whatever the elapsed time.  Whenever a
    submission has a score: a nonzero time bonus, and a nonzero final
    score, go only to a submission that passed at least one test case;
    with a positive test score the bonus is the whole part of the double
    that (1 - time_elapsed / time_limit) * 50 evaluates to, added to the
    test score, and otherwise bonus and final score are 0; the bonus is at
    most 50 points for an elapsed time that is not negative, and it is not
    negative up to the time limit.  A submission that passes no more tests
    than there are, at a ratio of elapsed time to time limit between
    -2^1000 and 2^1000, has a score. *)
Theorem zero_passed_scores_zero
    (passed_tests total_tests : nat) (time_elapsed time_limit : Q) :
  total_tests <> O -> ~ (time_limit == 0)%Q ->
  (passed_tests = O ->
   Scoring.test_score passed_tests total_tests = Some 0
   /\ Scoring.score_submission passed_tests total_tests time_elapsed time_limit
      = Some (Scoring.mkScored 0 0))
  /\ (forall s : Scoring.Scored,
         Scoring.score_submission passed_tests total_tests
                                  time_elapsed time_limit = Some s ->
         exists score : Z,
           Scoring.test_score passed_tests total_tests = Some score
           /\ (Scoring.time_bonus s <> 0 -> (0 < passed_tests)%nat)
           /\ (Scoring.final_score s <> 0 -> (0 < passed_tests)%nat)
           /\ (0 < score ->
               Scoring.to_int
                 (Binary64.fmul
                    (Binary64.fsub (Binary64.Finite 1)
                       (Binary64.round (time_elapsed / time_limit)))
                    (Binary64.Finite 50))
               = Some (Scoring.time_bonus s)
               /\ Scoring.final_score s = score + Scoring.time_bonus s)
           /\ (score <= 0 ->
               Scoring.final_score s = 0 /\ Scoring.time_bonus s = 0)
           /\ ((0 <= time_elapsed)%Q -> (0 < time_limit)%Q ->
               Scoring.time_bonus s <= 50)
           /\ ((time_elapsed <= time_limit)%Q -> (0 < time_limit)%Q ->
               0 <= Scoring.time_bonus s))
  /\ ((passed_tests <= total_tests)%nat ->
      (- Binary64.pow2 1000 <= time_elapsed / time_limit)%Q ->
      (time_elapsed / time_limit <= Binary64.pow2 1000)%Q ->
      exists s : Scoring.Scored,
        Scoring.score_submission passed_tests total_tests
                                 time_elapsed time_limit = Some s).
Proof.
  intros Htotal Hlimit. split; [| split].
  - intros ->. split; [now apply test_score_zero |].
    rewrite (score_submission_value 0 total_tests time_elapsed time_limit 0)
      by (auto using test_score_zero).
    now apply time_bonus_gated.
  - intros s Hs.
    destruct (Scoring.test_score passed_tests total_tests) as [score |] eqn:Hscore;
      [| unfold Scoring.score_submission in Hs; rewrite Hscore in Hs;
         discriminate].
    rewrite (score_submission_value _ _ _ _ score Hscore Hlimit) in Hs.
    exists score. split; [reflexivity |].
    assert (Hzero : passed_tests = O -> score = 0).
    { intros ->. rewrite (test_score_zero total_tests Htotal) in Hscore.
      congruence. }
    assert (Hgate : score <= 0 ->
                    Scoring.final_score s = 0 /\ Scoring.time_bonus s = 0).
    { intros Hle. rewrite time_bonus_gated in Hs by exact Hle.
      injection Hs as <-. split; reflexivity. }
    split; [| split; [| split; [| split; [| split]]]].
    + intros Hbonus. destruct passed_tests; [| lia]. exfalso.
      destruct Hgate as [_ Hb]; [rewrite Hzero; auto; lia | contradiction].
    + intros Hfinal. destruct passed_tests; [| lia]. exfalso.
      destruct Hgate as [Hf _]; [rewrite Hzero; auto; lia | contradiction].
    + intros Hpos. now apply (time_bonus_open score).
    + exact Hgate.
    + intros He Hl. destruct (Z.ltb_spec 0 score) as [Hpos | Hnp].
      * destruct (time_bonus_open score _ s Hpos Hs) as [Hb _].
        apply (bonus_le_50 _ _ (ratio_nonneg _ _ He Hl) Hb).
      * destruct (Hgate Hnp) as [_ ->]. lia.
    + intros He Hl. destruct (Z.ltb_spec 0 score) as [Hpos | Hnp].
      * destruct (time_bonus_open score _ s Hpos Hs) as [Hb _].
        apply (bonus_ge_0 _ _ (ratio_le_one _ _ Hl He) Hb).
      * destruct (Hgate Hnp) as [_ ->]. lia.
  - intros Hle Hlo Hhi.
    destruct (test_score_range passed_tests total_tests Htotal Hle)
      as (score & Hscore & _).
    rewrite (score_submission_value _ _ _ _ score Hscore Hlimit).
    unfold Scoring.apply_time_bonus.
    destruct (0 <? score); [| eexists; reflexivity].
    destruct (ratio_bounded _ Hlo Hhi) as [H1 H2].
    destruct (bonus_defined _ H1 H2) as (b & ->).
    eexists. reflexivity.
Qed.

(** An instance: none of three tests passed, 30 s into 600 s. *)
Lemma zero_passed_scores_zero_witness :
  Scoring.test_score 0 3 = Some 0
  /\ Scoring.score_submission 0 3 (30 # 1) (600 # 1)
     = Some (Scoring.mkScored 0 0).
Proof.
  apply (zero_passed_scores_zero 0 3 (30 # 1) (600 # 1)).
  - discriminate.
  - unfold Qeq. simpl. lia.
  - reflexivity.
Defined.

(** ** A submission that fails validation and is not forced *)

Section SubmitFacts.
Import MatchMachine.

Lemma submit_unforced_failure
    (m : Match) (pid : nat) (vo : ValidationOutcome) (elapsed : Z) :
  status m = Active -> scorePercent vo < 100 ->
  submit m pid vo false elapsed = (Outcome vo, with_last pid vo m).
Proof.
  intros Hactive Hscore. unfold submit. rewrite Hactive.
  destruct (Z.ltb_spec (scorePercent vo) 100); [reflexivity | lia].
Qed.

End SubmitFacts.

(** C6: a submission to an active match that is not forced and whose
    validation gives a score below 100 is answered with the validation
    outcome; the players' progress (completion flags, scores, completion
    times) is what it was, as are the match status and the ranking
    snapshot, so the player may submit again.  On the page, a response with
    [validation_failed] to a submission that was not forced opens the
    validation dialog with that response and leaves the completion flag, the
    final results and the match copy alone. *)
Theorem unforced_failed_submission_keeps_progress
    (m : MatchMachine.Match) (pid : nat) (vo : MatchMachine.ValidationOutcome)
    (elapsed : Z) :
  MatchMachine.status m = MatchMachine.Active ->
  MatchMachine.scorePercent vo < 100 ->
  fst (MatchMachine.submit m pid vo false elapsed) = MatchMachine.Outcome vo
  /\ MatchMachine.players (snd (MatchMachine.submit m pid vo false elapsed))
     = MatchMachine.players m
  /\ MatchMachine.status (snd (MatchMachine.submit m pid vo false elapsed))
     = MatchMachine.Active
  /\ MatchMachine.rankingSnapshot
       (snd (MatchMachine.submit m pid vo false elapsed))
     = MatchMachine.rankingSnapshot m
  /\ (forall (data : SubmitFlow.SubmitResponse) (page : SubmitFlow.Page),
         SubmitFlow.validation_failed data = true ->
         let page' := SubmitFlow.handleSubmitResponse false data page in
         SubmitFlow.showValidationDialog page' = true
         /\ SubmitFlow.validationError page' = Some data
         /\ SubmitFlow.loading page' = false
         /\ SubmitFlow.matchCompleted page' = SubmitFlow.matchCompleted page
         /\ SubmitFlow.finalResultsSet page' = SubmitFlow.finalResultsSet page
         /\ SubmitFlow.problemsLoaded page' = SubmitFlow.problemsLoaded page
         /\ SubmitFlow.fetchMatchCalls page' = SubmitFlow.fetchMatchCalls page).
Proof.
  intros Hactive Hscore.
  rewrite (submit_unforced_failure m pid vo elapsed Hactive Hscore). simpl.
  repeat split; auto.
  all: unfold SubmitFlow.handleSubmitResponse; rewrite H; reflexivity.
Qed.

(** An instance: one of two tests passed, 60 s into a match of two. *)
Lemma unforced_failed_submission_keeps_progress_witness :
  let m := MatchMachine.mkMatch 1 MatchMachine.Active 0 600
             [MatchMachine.mkProgress 1 0 0 false None;
              MatchMachine.mkProgress 2 0 0 false None] [] None in
  let vo := MatchMachine.mkOutcome 1 2 50 in
  fst (MatchMachine.submit m 1 vo false 60) = MatchMachine.Outcome vo
  /\ MatchMachine.players (snd (MatchMachine.submit m 1 vo false 60))
     = MatchMachine.players m
  /\ MatchMachine.status (snd (MatchMachine.submit m 1 vo false 60))
     = MatchMachine.Active
  /\ MatchMachine.rankingSnapshot (snd (MatchMachine.submit m 1 vo false 60))
     = MatchMachine.rankingSnapshot m
  /\ (forall (data : SubmitFlow.SubmitResponse) (page : SubmitFlow.Page),
         SubmitFlow.validation_failed data = true ->
         let page' := SubmitFlow.handleSubmitResponse false data page in
         SubmitFlow.showValidationDialog page' = true
         /\ SubmitFlow.validationError page' = Some data
         /\ SubmitFlow.loading page' = false
         /\ SubmitFlow.matchCompleted page' = SubmitFlow.matchCompleted page
         /\ SubmitFlow.finalResultsSet page' = SubmitFlow.finalResultsSet page
         /\ SubmitFlow.problemsLoaded page' = SubmitFlow.problemsLoaded page
         /\ SubmitFlow.fetchMatchCalls page' = SubmitFlow.fetchMatchCalls page).
Proof.
  intros m vo.
  apply (unforced_failed_submission_keeps_progress m 1%nat vo 60).
  - reflexivity.
  - simpl. lia.
Defined.

(** ** The completion transition *)

Section MachineFacts.
Import MatchMachine.

Lemma try_complete_cases (m : Match) (elapsed : Z) :
  status m = Active ->
  (completion_predicate m elapsed = true
   /\ status (try_complete m elapsed) = Completed
   /\ rankingSnapshot (try_complete m elapsed)
      = Some (ranking (players (try_complete m elapsed))))
  \/ (completion_predicate m elapsed = false /\ try_complete m elapsed = m).
Proof.
  intros Hactive. unfold try_complete. rewrite Hactive.
  destruct (completion_predicate m elapsed); [left | right]; auto.
Qed.

Lemma try_complete_idle (m : Match) (elapsed : Z) :
  status m <> Active -> try_complete m elapsed = m.
Proof.
  intros H. unfold try_complete. destruct (status m); congruence.
Qed.

Lemma record_submission_status (m m1 : Match) (pid : nat)
    (vo : ValidationOutcome) (elapsed : Z) :
  record_submission m pid vo elapsed = Some m1 -> status m1 = status m.
Proof.
  unfold record_submission.
  destruct (open_player pid m); [| discriminate].
  destruct (recorded_score m vo elapsed); [| discriminate].
  now intros [= <-].
Qed.

(** A step on a match that is not active changes nothing. *)
Lemma step_idle (m : Match) (t : Trigger) : status m <> Active -> step m t = m.
Proof.
  intros H. destruct t as [pid vo force elapsed | elapsed]; simpl.
  - unfold submit. destruct (status m); simpl; congruence.
  - now apply try_complete_idle.
Qed.

(** A step on an active match: it completes the match exactly when the
    trigger satisfies the predicate, and then publishes the ranking. *)
Lemma step_active (m : Match) (t : Trigger) :
  status m = Active ->
  (satisfies m t = true
   /\ status (step m t) = Completed
   /\ rankingSnapshot (step m t) = Some (ranking (players (step m t))))
  \/ (satisfies m t = false /\ status (step m t) = Active).
Proof.
  intros Hactive. destruct t as [pid vo force elapsed | elapsed]; simpl.
  - unfold submit. rewrite Hactive.
    destruct ((scorePercent vo <? 100) && negb force); [right; auto |].
    destruct (record_submission m pid vo elapsed) as [m1 |] eqn:E;
      [| right; auto].
    simpl. pose proof (record_submission_status _ _ _ _ _ E) as H1.
    rewrite Hactive in H1.
    destruct (try_complete_cases m1 elapsed H1) as [(Hp & Hs & Hr) | (Hp & He)].
    + left. auto.
    + right. rewrite He. auto.
  - destruct (try_complete_cases m elapsed Hactive) as [(Hp & Hs & Hr) | (Hp & He)].
    + left. auto.
    + right. rewrite He. auto.
Qed.

Lemma run_idle (m : Match) (ts : list Trigger) :
  status m <> Active -> run m ts = m.
Proof.
  intros H. induction ts as [| t ts IH]; simpl; auto.
  unfold run in *. simpl. now rewrite step_idle.
Qed.

Lemma run_app (m : Match) (ts1 ts2 : list Trigger) :
  run m (ts1 ++ ts2) = run (run m ts1) ts2.
Proof. apply fold_left_app. Qed.

Lemma transitions_cons (m : Match) (t : Trigger) (ts : list Trigger) :
  transitions (trace m (t :: ts))
  = ((if negb (is_completed m) && is_completed (step m t) then 1 else 0)
     + transitions (trace (step m t) ts))%nat.
Proof. simpl. destruct ts; reflexivity. Qed.

Lemma transitions_idle (m : Match) (ts : list Trigger) :
  status m <> Active -> transitions (trace m ts) = O.
Proof.
  intros H. induction ts as [| t ts IH]; [reflexivity |].
  rewrite transitions_cons, step_idle by assumption.
  rewrite IH. destruct (is_completed m); reflexivity.
Qed.

Lemma transitions_active (m : Match) (ts : list Trigger) :
  status m = Active ->
  (transitions (trace m ts) <= 1)%nat
  /\ (transitions (trace m ts) = 1%nat <-> status (run m ts) = Completed).
Proof.
  revert m. induction ts as [| t ts IH]; intros m Hactive.
  - simpl. rewrite Hactive. split; [lia | split; [lia | discriminate]].
  - rewrite transitions_cons.
    change (run m (t :: ts)) with (run (step m t) ts).
    destruct (step_active m t Hactive) as [(_ & Hs & _) | (_ & Hs)];
      unfold is_completed; rewrite Hactive, Hs; simpl.
    + rewrite transitions_idle, run_idle by congruence.
      split; [lia | split; auto].
    + now apply IH.
Qed.

(** A completed match that was reached from an active one carries the
    ranking of its players. *)
Lemma run_publishes (m : Match) (ts : list Trigger) :
  status m = Active -> status (run m ts) = Completed ->
  rankingSnapshot (run m ts) = Some (ranking (players (run m ts))).
Proof.
  revert m. induction ts as [| t ts IH]; intros m Hactive Hdone.
  - simpl in Hdone. congruence.
  - change (run m (t :: ts)) with (run (step m t) ts) in *.
    destruct (step_active m t Hactive) as [(_ & Hs & Hr) | (_ & Hs)].
    + rewrite run_idle by congruence. exact Hr.
    + now apply IH.
Qed.

End MachineFacts.

(** C1: whatever finalization triggers reach an active match, and in
    whatever order the guard of the match serializes them, the match enters
    [Completed] at most once, and exactly once if it is completed at the
    end; it enters [Completed] at the first trigger that satisfies the
    completion predicate; and from then on the match does not change, so
    that every later read, after any further triggers, returns the status
    [Completed] with the same ranking snapshot, the ranking of the finalized
    players. *)
Theorem completed_exactly_once
    (m : MatchMachine.Match) (ts : list MatchMachine.Trigger) :
  MatchMachine.status m = MatchMachine.Active ->
  (MatchMachine.transitions (MatchMachine.trace m ts) <= 1)%nat
  /\ (MatchMachine.transitions (MatchMachine.trace m ts) = 1%nat
      <-> MatchMachine.status (MatchMachine.run m ts) = MatchMachine.Completed)
  /\ (forall before t after,
         ts = before ++ t :: after ->
         MatchMachine.status (MatchMachine.run m before) = MatchMachine.Active ->
         (MatchMachine.status (MatchMachine.run m (before ++ [t]))
          = MatchMachine.Completed
          <-> MatchMachine.satisfies (MatchMachine.run m before) t = true))
  /\ (forall before after,
         ts = before ++ after ->
         MatchMachine.status (MatchMachine.run m before) = MatchMachine.Completed ->
         MatchMachine.run m ts = MatchMachine.run m before
         /\ exists snapshot,
              MatchMachine.read (MatchMachine.run m before)
              = (MatchMachine.Completed, Some snapshot)
              /\ MatchMachine.read (MatchMachine.run m ts)
                 = (MatchMachine.Completed, Some snapshot)
              /\ snapshot
                 = MatchMachine.ranking
                     (MatchMachine.players (MatchMachine.run m before))).
Proof.
  intros Hactive.
  destruct (transitions_active m ts Hactive) as [Hle Hiff].
  split; [exact Hle | split; [exact Hiff | split]].
  - intros before t after _ Hbefore.
    rewrite run_app. change (MatchMachine.run (MatchMachine.run m before) [t])
      with (MatchMachine.step (MatchMachine.run m before) t).
    destruct (step_active _ t Hbefore) as [(Hs & Hd & _) | (Hs & Hd)];
      rewrite Hs, Hd; split; auto; discriminate.
  - intros before after -> Hdone.
    assert (Hsame : MatchMachine.run m (before ++ after)
                    = MatchMachine.run m before)
      by (rewrite run_app; apply run_idle; congruence).
    split; [exact Hsame |].
    exists (MatchMachine.ranking (MatchMachine.players (MatchMachine.run m before))).
    rewrite Hsame. unfold MatchMachine.read.
    rewrite (run_publishes m before Hactive Hdone), Hdone. auto.
Qed.

(** An instance: a solving submission, the deadline check, and two
    triggers that come after it. *)
Lemma completed_exactly_once_witness :
  let m := MatchMachine.mkMatch 1 MatchMachine.Active 0 600
             [MatchMachine.mkProgress 1 0 0 false None;
              MatchMachine.mkProgress 2 0 0 false None] [] None in
  let ts := [MatchMachine.Submission 1 (MatchMachine.mkOutcome 3 3 100) false 60;
             MatchMachine.Deadline 600;
             MatchMachine.Submission 2 (MatchMachine.mkOutcome 1 3 33) true 600;
             MatchMachine.Deadline 601] in
  (MatchMachine.transitions (MatchMachine.trace m ts) <= 1)%nat
  /\ (MatchMachine.transitions (MatchMachine.trace m ts) = 1%nat
      <-> MatchMachine.status (MatchMachine.run m ts) = MatchMachine.Completed)
  /\ (forall before t after,
         ts = before ++ t :: after ->
         MatchMachine.status (MatchMachine.run m before) = MatchMachine.Active ->
         (MatchMachine.status (MatchMachine.run m (before ++ [t]))
          = MatchMachine.Completed
          <-> MatchMachine.satisfies (MatchMachine.run m before) t = true))
  /\ (forall before after,
         ts = before ++ after ->
         MatchMachine.status (MatchMachine.run m before) = MatchMachine.Completed ->
         MatchMachine.run m ts = MatchMachine.run m before
         /\ exists snapshot,
              MatchMachine.read (MatchMachine.run m before)
              = (MatchMachine.Completed, Some snapshot)
              /\ MatchMachine.read (MatchMachine.run m ts)
                 = (MatchMachine.Completed, Some snapshot)
              /\ snapshot
                 = MatchMachine.ranking
                     (MatchMachine.players (MatchMachine.run m before))).
Proof.
  intros m ts. apply (completed_exactly_once m ts). reflexivity.
Defined.

(** ** Finalization at the deadline *)

Section DeadlineFacts.
Import MatchMachine.

Lemma force_finalize_done (m : Match) (elapsed : Z) (p : PlayerProgress) :
  completed p = true -> force_finalize m elapsed p = p.
Proof.
  intros Hp. unfold force_finalize, finalize_player. now rewrite Hp.
Qed.

Lemma force_finalize_open (m : Match) (elapsed : Z) (p : PlayerProgress) :
  completed p = false ->
  force_finalize m elapsed p
  = mkProgress (playerId p) (currentQuestionIndex p)
      (match lookup (playerId p) (lastSubmitted m) with
       | Some vo =>
           match recorded_score m vo elapsed with
           | Some s => s
           | None => 0
           end
       | None => 0
       end)
      true (Some elapsed).
Proof.
  intros Hp. unfold force_finalize, finalize_player. now rewrite Hp.
Qed.

Lemma force_finalize_completed (m : Match) (elapsed : Z) (p : PlayerProgress) :
  completed (force_finalize m elapsed p) = true.
Proof.
  destruct (completed p) eqn:Hp.
  - now rewrite force_finalize_done.
  - now rewrite force_finalize_open.
Qed.

Lemma try_complete_iff (m : Match) (elapsed : Z) :
  status m = Active ->
  (status (try_complete m elapsed) = Completed
   <-> all_completed m = true \/ timeLimitSeconds m <= elapsed).
Proof.
  intros Hactive.
  assert (Hpred : completion_predicate m elapsed = true
                  <-> all_completed m = true \/ timeLimitSeconds m <= elapsed).
  { unfold completion_predicate, deadline_reached.
    now rewrite orb_true_iff, Z.leb_le. }
  rewrite <- Hpred.
  destruct (try_complete_cases m elapsed Hactive) as [(Hp & Hs & _) | (Hp & He)].
  - rewrite Hp, Hs. tauto.
  - rewrite Hp, He, Hactive. split; discriminate.
Qed.

Lemma try_complete_players (m : Match) (elapsed : Z) :
  status m = Active -> status (try_complete m elapsed) = Completed ->
  players (try_complete m elapsed) = map (force_finalize m elapsed) (players m)
  /\ all_completed (try_complete m elapsed) = true.
Proof.
  intros Hactive. unfold try_complete. rewrite Hactive.
  destruct (completion_predicate m elapsed); [| congruence].
  intros _. unfold all_completed. simpl. split; [reflexivity |].
  rewrite forallb_forall. intros p Hin.
  apply in_map_iff in Hin. destruct Hin as (q & <- & _).
  apply force_finalize_completed.
Qed.

Lemma record_submission_iff (m m1 : Match) (pid : nat)
    (vo : ValidationOutcome) (elapsed : Z) :
  record_submission m pid vo elapsed = Some m1
  <-> open_player pid m = true
      /\ exists sc : Z,
           recorded_score m vo elapsed = Some sc
           /\ m1 = with_players (update_player pid sc elapsed (players m))
                                (with_last pid vo m).
Proof.
  unfold record_submission. split.
  - destruct (open_player pid m); [| discriminate].
    destruct (recorded_score m vo elapsed) as [sc |]; [| discriminate].
    intros [= <-]. split; [reflexivity |]. exists sc. auto.
  - intros (Hopen & sc & Hsc & ->). now rewrite Hopen, Hsc.
Qed.

Lemma record_submission_limit (m m1 : Match) (pid : nat)
    (vo : ValidationOutcome) (elapsed : Z) :
  record_submission m pid vo elapsed = Some m1 ->
  timeLimitSeconds m1 = timeLimitSeconds m.
Proof.
  intros H. apply record_submission_iff in H.
  destruct H as (_ & sc & _ & ->). reflexivity.
Qed.

Lemma accepted_iff (vo : ValidationOutcome) (forceSubmit : bool) :
  (scorePercent vo <? 100) && negb forceSubmit = false
  <-> forceSubmit = true \/ 100 <= scorePercent vo.
Proof.
  rewrite andb_false_iff, negb_false_iff, Z.ltb_ge. tauto.
Qed.

Lemma submission_completes_iff (m : Match) (pid : nat)
    (vo : ValidationOutcome) (forceSubmit : bool) (elapsed : Z) :
  status m = Active ->
  (status (step m (Submission pid vo forceSubmit elapsed)) = Completed
   <-> (forceSubmit = true \/ 100 <= scorePercent vo)
       /\ exists m1 : Match,
            record_submission m pid vo elapsed = Some m1
            /\ (all_completed m1 = true \/ timeLimitSeconds m <= elapsed)).
Proof.
  intros Hactive. rewrite <- accepted_iff.
  cbn [step]. unfold submit. rewrite Hactive.
  destruct ((scorePercent vo <? 100) && negb forceSubmit).
  - cbn [snd with_last status]. rewrite Hactive.
    split; [discriminate | intros [H _]; discriminate].
  - destruct (record_submission m pid vo elapsed) as [m1 |] eqn:E.
    + cbn [snd].
      pose proof (record_submission_status _ _ _ _ _ E) as H1.
      rewrite Hactive in H1.
      rewrite (try_complete_iff m1 elapsed H1).
      rewrite (record_submission_limit _ _ _ _ _ E).
      split.
      * intros H. split; [reflexivity |]. exists m1. auto.
      * intros (_ & m2 & [= <-] & H). exact H.
    + cbn [snd]. rewrite Hactive.
      split; [discriminate | intros (_ & m2 & H & _); discriminate].
Qed.

Lemma submission_not_accepted (m : Match) (pid : nat)
    (vo : ValidationOutcome) (forceSubmit : bool) (elapsed : Z) :
  status m = Active ->
  (forceSubmit = false /\ scorePercent vo < 100)
  \/ record_submission m pid vo elapsed = None ->
  status (step m (Submission pid vo forceSubmit elapsed)) = Active
  /\ players (step m (Submission pid vo forceSubmit elapsed)) = players m
  /\ rankingSnapshot (step m (Submission pid vo forceSubmit elapsed))
     = rankingSnapshot m.
Proof.
  intros Hactive H. cbn [step]. unfold submit. rewrite Hactive.
  destruct ((scorePercent vo <? 100) && negb forceSubmit) eqn:Hgate.
  - cbn [snd with_last status players rankingSnapshot]. auto.
  - destruct H as [[Hf Hs] | ->]; [| cbn [snd]; auto].
    apply accepted_iff in Hgate. destruct Hgate; [congruence | lia].
Qed.

Lemma submission_completed_players (m : Match) (pid : nat)
    (vo : ValidationOutcome) (forceSubmit : bool) (elapsed : Z) :
  status m = Active ->
  status (step m (Submission pid vo forceSubmit elapsed)) = Completed ->
  exists m1 : Match,
    record_submission m pid vo elapsed = Some m1
    /\ players (step m (Submission pid vo forceSubmit elapsed))
       = map (force_finalize m1 elapsed) (players m1)
    /\ all_completed (step m (Submission pid vo forceSubmit elapsed)) = true.
Proof.
  intros Hactive. cbn [step]. unfold submit. rewrite Hactive.
  destruct ((scorePercent vo <? 100) && negb forceSubmit).
  - cbn [snd with_last status]. congruence.
  - destruct (record_submission m pid vo elapsed) as [m1 |] eqn:E;
      cbn [snd]; [| congruence].
    pose proof (record_submission_status _ _ _ _ _ E) as H1.
    rewrite Hactive in H1. intros Hdone.
    exists m1. split; [reflexivity |].
    now apply try_complete_players.
Qed.

End DeadlineFacts.

(** C3, counterexample: a match with a time limit of 5 seconds is not
    finalized when 5 seconds have elapsed. *)
Lemma short_limit_not_finalized_at_limit : ~ Client.finalized_when_limit_reached.
Proof.
  intros Hclaim.
  specialize (Hclaim
    (Client.mkMatch "active" (Some 5) (Some "2023-11-14T22:13:20"%string))
    5 5 eq_refl eq_refl eq_refl (Z.le_refl 5)).
  discriminate Hclaim.
Qed.

(** C3, amended: on the page of a player in an active match that is not
    completed, with a start time and a positive time limit
    (time_limit_seconds, 900 when missing or zero), the timeout check fires
    exactly when the elapsed time has reached both the time limit and
    10 seconds, so first at max(10, time limit); what it then posts is a
    submission with force_submit = true that carries the player's current
    editor contents, the empty string when there are none.  On the server,
    the deadline check completes an active match exactly when every player
    is completed or the elapsed time has reached the time limit.  A
    submission completes it exactly when the server accepts it (it is
    forced or passes every test, it comes from a player of the match not
    yet completed, and it has a score) and, with its player's progress
    recorded, every player is completed or the elapsed time has reached the
    time limit; so the forced submission of a player not yet completed,
    arriving with a score at or after the time limit, completes the match,
    and a submission that the server does not accept leaves the match
    active with its players as they are.  Whenever a trigger completes the
    match, every player not yet completed is finalized, with the score of
    the code they submitted last or with zero if they never submitted, and
    the completed players are left as they are. *)
Theorem timeout_finalizes_from_max_of_limit_and_ten
    (mt : Client.Match) (matchStartTime : option string)
    (m : MatchMachine.Match) (elapsed : Z) :
  Client.status mt = "active"%string ->
  Js.truthy_str matchStartTime = true ->
  0 < Client.timeLimit mt ->
  MatchMachine.status m = MatchMachine.Active ->
  (forall el : Z,
      Client.timeoutCheck (Some mt) matchStartTime false (Some el) = true
      <-> Z.max 10 (Client.timeLimit mt) <= el)
  /\ (forall (matchId : string) (code : Client.CodeValue) (language : string),
         let body := Client.handleTimeExpired matchId code language in
         Client.force_submit body = true
         /\ Client.match_id body = matchId
         /\ Client.body_code body = Client.codeString code)
  /\ (forall s : string, Client.codeString (Client.CodeString s) = s)
  /\ Client.codeString Client.CodeMissing = EmptyString
  /\ (MatchMachine.status (MatchMachine.step m (MatchMachine.Deadline elapsed))
      = MatchMachine.Completed
      <-> MatchMachine.all_completed m = true
          \/ MatchMachine.timeLimitSeconds m <= elapsed)
  /\ (MatchMachine.status (MatchMachine.step m (MatchMachine.Deadline elapsed))
      = MatchMachine.Completed ->
      MatchMachine.players (MatchMachine.step m (MatchMachine.Deadline elapsed))
      = map (MatchMachine.force_finalize m elapsed) (MatchMachine.players m)
      /\ MatchMachine.all_completed
           (MatchMachine.step m (MatchMachine.Deadline elapsed)) = true)
  /\ (forall (pid : nat) (vo : MatchMachine.ValidationOutcome)
             (forceSubmit : bool),
         let t := MatchMachine.Submission pid vo forceSubmit elapsed in
         (MatchMachine.status (MatchMachine.step m t) = MatchMachine.Completed
          <-> (forceSubmit = true \/ 100 <= MatchMachine.scorePercent vo)
              /\ exists m1 : MatchMachine.Match,
                   MatchMachine.record_submission m pid vo elapsed = Some m1
                   /\ (MatchMachine.all_completed m1 = true
                       \/ MatchMachine.timeLimitSeconds m <= elapsed))
         /\ (MatchMachine.status (MatchMachine.step m t)
             = MatchMachine.Completed ->
             exists m1 : MatchMachine.Match,
               MatchMachine.record_submission m pid vo elapsed = Some m1
               /\ MatchMachine.players (MatchMachine.step m t)
                  = map (MatchMachine.force_finalize m1 elapsed)
                        (MatchMachine.players m1)
               /\ MatchMachine.all_completed (MatchMachine.step m t) = true)
         /\ ((forceSubmit = false /\ MatchMachine.scorePercent vo < 100)
             \/ MatchMachine.record_submission m pid vo elapsed = None ->
             MatchMachine.status (MatchMachine.step m t) = MatchMachine.Active
             /\ MatchMachine.players (MatchMachine.step m t)
                = MatchMachine.players m
             /\ MatchMachine.rankingSnapshot (MatchMachine.step m t)
                = MatchMachine.rankingSnapshot m)
         /\ (forall m1 : MatchMachine.Match,
                MatchMachine.record_submission m pid vo elapsed = Some m1
                <-> MatchMachine.open_player pid m = true
                    /\ exists sc : Z,
                         MatchMachine.recorded_score m vo elapsed = Some sc
                         /\ m1 = MatchMachine.with_players
                                   (MatchMachine.update_player
                                      pid sc elapsed (MatchMachine.players m))
                                   (MatchMachine.with_last pid vo m)))
  /\ (forall (pid : nat) (vo : MatchMachine.ValidationOutcome),
         MatchMachine.open_player pid m = true ->
         MatchMachine.recorded_score m vo elapsed <> None ->
         MatchMachine.timeLimitSeconds m <= elapsed ->
         MatchMachine.status
           (MatchMachine.step m (MatchMachine.Submission pid vo true elapsed))
         = MatchMachine.Completed)
  /\ (forall (m' : MatchMachine.Match) (p : MatchMachine.PlayerProgress),
         MatchMachine.completed p = true ->
         MatchMachine.force_finalize m' elapsed p = p)
  /\ (forall (m' : MatchMachine.Match) (p : MatchMachine.PlayerProgress),
         MatchMachine.completed p = false ->
         MatchMachine.force_finalize m' elapsed p
         = MatchMachine.mkProgress
             (MatchMachine.playerId p) (MatchMachine.currentQuestionIndex p)
             (match MatchMachine.lookup (MatchMachine.playerId p)
                                        (MatchMachine.lastSubmitted m') with
              | Some vo =>
                  match MatchMachine.recorded_score m' vo elapsed with
                  | Some s => s
                  | None => 0
                  end
              | None => 0
              end)
             true (Some elapsed)).
Proof.
  intros Hactive Hstart Hlimit Hserver.
  split; [| split; [| split; [| split; [| split; [| split;
    [| split; [| split; [| split]]]]]]]].
  - intros el. split.
    + intros Hfires. apply timeoutCheck_fires_iff in Hfires. lia.
    + intros Hreached. apply timeoutCheck_fires_iff. repeat split; auto; lia.
  - intros matchId code language. simpl. auto.
  - reflexivity.
  - reflexivity.
  - now apply try_complete_iff.
  - now apply try_complete_players.
  - intros pid vo forceSubmit t. subst t.
    split; [now apply submission_completes_iff |].
    split; [now apply submission_completed_players |].
    split; [now apply submission_not_accepted |].
    intros m1. apply record_submission_iff.
  - intros pid vo Hopen Hscore Hlate.
    apply submission_completes_iff; [exact Hserver |].
    split; [now left |].
    destruct (MatchMachine.recorded_score m vo elapsed) as [sc |] eqn:Hsc;
      [| congruence].
    eexists. split; [| right; exact Hlate].
    apply record_submission_iff. split; [exact Hopen |].
    exists sc. split; [exact Hsc | reflexivity].
  - intros m' p. apply force_finalize_done.
  - intros m' p. apply force_finalize_open.
Qed.

(** An instance: the page of a match of 5 s, finalized from 10 s on, and a
    match of two players at its deadline of 600 s: the deadline check
    completes it, the forced submission of the second player, who is still
    open, completes it, and that of the first player, who is completed, is
    not accepted and leaves it active. *)
Lemma timeout_finalizes_from_max_of_limit_and_ten_witness :
  let mt := Client.mkMatch "active" (Some 5)
                           (Some "2023-11-14T22:13:20"%string) in
  let m := MatchMachine.mkMatch 1 MatchMachine.Active 0 600
             [MatchMachine.mkProgress 1 0 145 true (Some 60);
              MatchMachine.mkProgress 2 0 0 false None] [] None in
  let vo := MatchMachine.mkOutcome 0 3 0 in
  (forall el : Z,
      Client.timeoutCheck (Some mt) (Some "2023-11-14T22:13:20"%string)
                          false (Some el) = true
      <-> Z.max 10 (Client.timeLimit mt) <= el)
  /\ MatchMachine.status (MatchMachine.step m (MatchMachine.Deadline 600))
     = MatchMachine.Completed
  /\ MatchMachine.status
       (MatchMachine.step m (MatchMachine.Submission 2 vo true 600))
     = MatchMachine.Completed
  /\ MatchMachine.status
       (MatchMachine.step m (MatchMachine.Submission 1 vo true 600))
     = MatchMachine.Active.
Proof.
  intros mt m vo.
  destruct (timeout_finalizes_from_max_of_limit_and_ten
              mt (Some "2023-11-14T22:13:20"%string) m 600)
    as (Hpage & _ & _ & _ & Hdeadline & _ & Hsub & Hforced & _);
    [reflexivity | reflexivity | reflexivity | reflexivity |].
  split; [exact Hpage |].
  split; [apply Hdeadline; right; vm_compute; discriminate |].
  split.
  - apply Hforced; [reflexivity | vm_compute; discriminate
                    | vm_compute; discriminate].
  - destruct (Hsub 1%nat vo true) as (_ & _ & Hno & _).
    apply Hno. right. reflexivity.
Defined.

(** ** Polling for an execution result *)

Section PollingFacts.
Import Polling.

Lemma start_inv : poll_inv start.
Proof.
  unfold poll_inv, start, maxAttempts. simpl.
  repeat split; auto; try discriminate; lia.
Qed.

Lemma start_fetches : (fetches start <= maxAttempts)%nat.
Proof. unfold start, maxAttempts. simpl. lia. Qed.

Local Opaque maxAttempts.

Lemma resolve_some (r : Resolution) (old : option Resolution) :
  resolve r old <> None.
Proof. destruct old; simpl; discriminate. Qed.

Lemma stop_inv (s : PollState) (msg : option Message) (r : Resolution) :
  fetches s = (handled s + inflight s)%nat -> poll_inv (stop s msg r).
Proof.
  intros Hf. unfold poll_inv, stop. simpl. repeat split; try discriminate; auto.
  intros _. apply resolve_some.
Qed.

Lemma onResponse_inv (r : Response) (s : PollState) :
  (intervalActive s = true ->
   resolved s = None /\ (attempts s < maxAttempts)%nat
   /\ handled s = S (attempts s))
  -> (intervalActive s = false -> resolved s <> None)
  -> fetches s = (handled s + inflight s)%nat
  -> poll_inv (onResponse r s).
Proof.
  intros Hact Hinact Hf.
  destruct r; simpl; try (now apply stop_inv).
  destruct (Nat.leb_spec maxAttempts (S (attempts s))).
  - now apply stop_inv.
  - unfold poll_inv. simpl. repeat split; auto;
      destruct (Hact H0) as (? & ? & ?); auto.
Qed.

Lemma step_inv (s : PollState) (e : Event) : poll_inv s -> poll_inv (step s e).
Proof.
  intros Hinv. pose proof Hinv as (Hact & Hinact & Hf).
  destruct e as [| r]; simpl.
  - destruct (intervalActive s) eqn:E; [| exact Hinv].
    unfold poll_inv. simpl. repeat split; try discriminate;
      destruct (Hact eq_refl) as (? & ? & ?); auto; lia.
  - destruct (inflight s) as [| n] eqn:E; [exact Hinv |].
    apply onResponse_inv; simpl; auto; [| lia].
    intros Ha. destruct (Hact Ha) as (? & ? & ?). repeat split; auto.
Qed.

Lemma run_inv (s : PollState) (es : list Event) :
  poll_inv s -> poll_inv (run s es).
Proof.
  revert s. induction es as [| e es IH]; intros s Hs; simpl; auto.
  apply IH. now apply step_inv.
Qed.

(** The promise holds the data of a completed execution only. *)
Lemma step_data (s : PollState) (e : Event) (d : RunCheck.RunResult) :
  resolved (step s e) = Some (Data d) ->
  resolved s = Some (Data d) \/ e = Answer (StatusCompleted d).
Proof.
  destruct e as [| r]; simpl.
  - destruct (intervalActive s); auto.
  - destruct (inflight s); auto.
    destruct r; simpl; try destruct (maxAttempts <=? _)%nat; simpl;
      destruct (resolved s); simpl; auto; try discriminate.
    intros [= ->]. auto.
Qed.

Lemma run_data (s : PollState) (es : list Event) (d : RunCheck.RunResult) :
  resolved (run s es) = Some (Data d) ->
  resolved s = Some (Data d) \/ In (Answer (StatusCompleted d)) es.
Proof.
  revert s. induction es as [| e es IH]; intros s H; simpl in *; auto.
  destruct (IH _ H) as [H1 | H1]; auto.
  destruct (step_data _ _ _ H1) as [H2 | H2]; auto.
Qed.

Lemma lockstep_pair (s : PollState) (r : Response) :
  lockstep_inv s ->
  lockstep_inv (step (step s (Answer r)) Tick)
  /\ (intervalActive (step (step s (Answer r)) Tick) = true ->
      intervalActive s = true
      /\ handled (step (step s (Answer r)) Tick) = S (handled s)).
Proof.
  intros (Hinv & Hone & Hbound).
  destruct s as [a act res msg fl fe h].
  unfold poll_inv in Hinv. simpl in *.
  destruct Hinv as (Hact & Hinact & Hf).
  destruct act.
  - destruct (Hact eq_refl) as (Hres & Hatt & Hh).
    rewrite (Hone eq_refl) in *. subst res.
    destruct r; simpl;
      try (destruct (Nat.leb_spec maxAttempts (S a)); simpl);
      unfold lockstep_inv, poll_inv; simpl;
      repeat split; intros; try discriminate; try lia; try congruence.
  - pose proof (Hinact eq_refl) as Hres.
    destruct fl as [| n]; [| destruct r]; simpl;
      try (destruct (Nat.leb_spec maxAttempts (S a)); simpl);
      unfold lockstep_inv, poll_inv; simpl;
      repeat split; intros; try discriminate; try lia; try congruence;
      try apply resolve_some.
Qed.

(** A cleared interval stays cleared. *)
Lemma run_stays_cleared (es : list Event) (s : PollState) :
  intervalActive s = false -> intervalActive (run s es) = false.
Proof.
  revert s. induction es as [| e es IH]; intros s Hs; simpl; auto.
  apply IH. destruct e as [| r]; simpl.
  - now rewrite Hs.
  - destruct (inflight s); auto.
    destruct r; simpl; auto.
    destruct (maxAttempts <=? S (attempts s))%nat; simpl; auto.
Qed.

Lemma lockstep_run (responses : list Response) (s : PollState) :
  lockstep_inv s ->
  lockstep_inv (run s (lockstep responses))
  /\ (intervalActive (run s (lockstep responses)) = true ->
      handled (run s (lockstep responses))
      = (handled s + List.length responses)%nat).
Proof.
  revert s. induction responses as [| r rest IH]; intros s Hs.
  - simpl. split; auto.
  - change (run s (lockstep (r :: rest)))
      with (run (step (step s (Answer r)) Tick) (lockstep rest)).
    destruct (lockstep_pair s r Hs) as [Hs' Hstep].
    destruct (IH _ Hs') as [Hend Hcount]. split; [exact Hend |].
    intros Ha. rewrite (Hcount Ha).
    destruct (intervalActive (step (step s (Answer r)) Tick)) eqn:E.
    + destruct (Hstep eq_refl) as [_ Hh]. rewrite Hh. simpl. lia.
    + rewrite (run_stays_cleared _ _ E) in Ha. discriminate.
Qed.

Lemma start_lockstep_inv : lockstep_inv start.
Proof.
  split; [apply start_inv | split; [reflexivity | apply start_fetches]].
Qed.

(** The last non-terminal answer that the bound allows. *)
Lemma bound_exhausted (s : PollState) :
  resolved s = None -> S (attempts s) = maxAttempts -> inflight s <> O ->
  let s' := step s (Answer StillProcessing) in
  intervalActive s' = false
  /\ resolved s' = Some Null
  /\ lastMessage s' = Some MsgTimedOut.
Proof.
  intros Hres Hlast Hfly. simpl.
  destruct (inflight s) as [| n]; [congruence |].
  simpl. rewrite Hlast, Nat.leb_refl. simpl. rewrite Hres. auto.
Qed.

(** Firings without an answer: the interval keeps running and every
    firing sends a request. *)
Lemma run_unanswered (n : nat) (s : PollState) :
  intervalActive s = true ->
  run s (repeat Tick n)
  = mkPoll (attempts s) true (resolved s) (lastMessage s)
           (n + inflight s) (n + fetches s) (handled s).
Proof.
  revert s. induction n as [| n IH]; intros s Ha.
  - destruct s; simpl in *. now rewrite Ha.
  - cbn [repeat run fold_left step]. rewrite Ha.
    fold (run (mkPoll (attempts s) true (resolved s) (lastMessage s)
                      (S (inflight s)) (S (fetches s)) (handled s))
              (repeat Tick n)).
    rewrite IH by reflexivity. cbn [attempts resolved lastMessage inflight
                                    fetches handled].
    f_equal; lia.
Qed.

(** Non-terminal answers below the bound, each followed by a firing. *)
Lemma run_processing (n : nat) (s : PollState) :
  intervalActive s = true -> inflight s <> O ->
  (attempts s + n < maxAttempts)%nat ->
  run s (lockstep (repeat StillProcessing n))
  = mkPoll (attempts s + n) true (resolved s) (lastMessage s)
           (inflight s) (fetches s + n) (handled s + n).
Proof.
  revert s. induction n as [| n IH]; intros s Ha Hfly Hlt.
  - destruct s; simpl in *. rewrite Ha. f_equal; lia.
  - cbn [repeat lockstep run fold_left].
    destruct (inflight s) as [| k] eqn:Ek; [congruence |].
    cbn [step]. rewrite Ek. cbn [onResponse attempts].
    destruct (Nat.leb_spec maxAttempts (S (attempts s))) as [Hge | _];
      [lia |].
    cbn [intervalActive]. rewrite Ha.
    cbn [attempts resolved lastMessage inflight fetches handled].
    fold (run (mkPoll (S (attempts s)) true (resolved s) (lastMessage s)
                      (S k) (S (fetches s)) (S (handled s)))
              (lockstep (repeat StillProcessing n))).
    rewrite IH; cbn [attempts resolved lastMessage inflight fetches handled
                     intervalActive]; try reflexivity; try lia.
    f_equal; lia.
Qed.

Lemma poll_run_app (s : PollState) (es1 es2 : list Event) :
  run s (es1 ++ es2) = run (run s es1) es2.
Proof. unfold run. apply fold_left_app. Qed.

Lemma firings_app (es1 es2 : list Event) :
  firings (es1 ++ es2) = (firings es1 + firings es2)%nat.
Proof.
  induction es1 as [| [| r] es1 IH]; simpl; auto.
Qed.

Lemma firings_ticks (n : nat) : firings (repeat Tick n) = n.
Proof. induction n; simpl; auto. Qed.

Lemma firings_lockstep (rs : list Response) :
  firings (lockstep rs) = List.length rs.
Proof. induction rs; simpl; auto. Qed.

End PollingFacts.

(** The bound as the code keeps it: the execution poll runs on an interval
    of 500 ms and counts the non-terminal answers up to 60.  However the
    interval's firings and the answers interleave: while the interval
    runs, fewer than 60 answers have come, all of them non-terminal, and
    the promise is open; once it is cleared the promise is resolved, with
    the data of a completed execution or with null; after 60 answers it is
    cleared at the latest; the 60th non-terminal answer clears it, reports
    the timeout and resolves with null.  When every request is answered
    before the interval fires again, at most 60 requests are sent, and 60
    answers end the poll. *)
Theorem execution_poll_bounded :
  Polling.pollIntervalMs = 500
  /\ Polling.maxAttempts = 60%nat
  /\ Z.of_nat Polling.maxAttempts * Polling.pollIntervalMs = 30000
  /\ (forall es : list Polling.Event,
         let s := Polling.run Polling.start es in
         (Polling.intervalActive s = true ->
          Polling.resolved s = None
          /\ (Polling.attempts s < Polling.maxAttempts)%nat
          /\ Polling.handled s = Polling.attempts s)
         /\ (Polling.intervalActive s = false -> Polling.resolved s <> None)
         /\ ((Polling.maxAttempts <= Polling.handled s)%nat ->
             Polling.intervalActive s = false)
         /\ (forall d, Polling.resolved s = Some (Polling.Data d) ->
                       In (Polling.Answer (Polling.StatusCompleted d)) es)
         /\ (Polling.intervalActive s = true ->
             S (Polling.attempts s) = Polling.maxAttempts ->
             Polling.inflight s <> O ->
             let s' := Polling.step s (Polling.Answer Polling.StillProcessing) in
             Polling.intervalActive s' = false
             /\ Polling.resolved s' = Some Polling.Null
             /\ Polling.lastMessage s' = Some Polling.MsgTimedOut))
  /\ (forall responses : list Polling.Response,
         let s := Polling.run Polling.start (Polling.lockstep responses) in
         (Polling.fetches s <= Polling.maxAttempts)%nat
         /\ ((Polling.maxAttempts <= List.length responses)%nat ->
             Polling.intervalActive s = false /\ Polling.resolved s <> None)).
Proof.
  split; [reflexivity | split; [reflexivity | split; [reflexivity | split]]].
  - intros es s.
    pose proof (run_inv Polling.start es start_inv) as (Hact & Hinact & Hf).
    fold s in Hact, Hinact, Hf.
    split; [exact Hact | split; [exact Hinact | split; [| split]]].
    + intros Hmany. destruct (Polling.intervalActive s) eqn:E; auto.
      destruct (Hact eq_refl) as (_ & Hlt & Heq). lia.
    + intros d Hd. destruct (run_data _ _ _ Hd) as [H | H]; auto.
      discriminate H.
    + intros Ha Hlast Hfly. destruct (Hact Ha) as (Hres & _ & _).
      now apply bound_exhausted.
  - intros responses s.
    destruct (lockstep_run responses Polling.start start_lockstep_inv)
      as [(Hinv & _ & Hbound) Hcount].
    fold s in Hinv, Hbound, Hcount.
    split; [exact Hbound |]. intros Hlen.
    destruct Hinv as (Hact & Hinact & _).
    assert (E : Polling.intervalActive s = false).
    { destruct (Polling.intervalActive s) eqn:E; auto.
      destruct (Hact eq_refl) as (_ & Hlt & Heq).
      specialize (Hcount eq_refl). simpl in Hcount. lia. }
    split; auto.
Qed.

(** An instance: the answer that follows 59 answers "still processing". *)
Lemma execution_poll_bounded_witness :
  let s := Polling.run Polling.start
             (Polling.lockstep (repeat Polling.StillProcessing 59)) in
  let s' := Polling.step s (Polling.Answer Polling.StillProcessing) in
  Polling.intervalActive s' = false
  /\ Polling.resolved s' = Some Polling.Null
  /\ Polling.lastMessage s' = Some Polling.MsgTimedOut.
Proof.
  intros s s'.
  destruct execution_poll_bounded as (_ & _ & _ & Hany & _).
  destruct (Hany (Polling.lockstep (repeat Polling.StillProcessing 59)))
    as (_ & _ & _ & _ & Hlast).
  apply Hlast.
  - vm_compute. reflexivity.
  - vm_compute. reflexivity.
  - vm_compute. discriminate.
Defined.

(** C8, the code against its bound of 60 attempts and 30 seconds: the
    counter of [pollExecutionResult] counts the non-terminal answers, not
    the requests sent nor the time gone.  When every answer takes [k]
    intervals to come and says that the execution is still processing, then
    at the firing that follows the 59th answer the interval is still
    running and the promise open, [60 + k] requests have been sent, and
    [(59 + k) * 500] ms have gone by; with answers that take 10 seconds
    (k = 20) these are 80 requests in 39.5 seconds, and only the answer
    after that reports the timeout.  When no request is answered at all,
    the interval never stops: after [n] firings it is running, the promise
    is open, no attempt is counted and [n + 1] requests have been sent. *)
Theorem poll_outlasts_its_bound :
  (forall k : nat,
      let es := Polling.delayed k (repeat Polling.StillProcessing 59) in
      let s := Polling.run Polling.start es in
      Polling.intervalActive s = true
      /\ Polling.resolved s = None
      /\ Polling.lastMessage s = None
      /\ Polling.attempts s = 59%nat
      /\ Polling.fetches s = (60 + k)%nat
      /\ Polling.elapsedMs es = (59 + Z.of_nat k) * 500)
  /\ (let es := Polling.delayed 20 (repeat Polling.StillProcessing 59) in
      let s := Polling.run Polling.start es in
      Polling.intervalActive s = true
      /\ Polling.resolved s = None
      /\ Polling.fetches s = 80%nat
      /\ (Polling.maxAttempts < Polling.fetches s)%nat
      /\ Polling.elapsedMs es = 39500
      /\ Z.of_nat Polling.maxAttempts * Polling.pollIntervalMs
         < Polling.elapsedMs es
      /\ Polling.lastMessage
           (Polling.step s (Polling.Answer Polling.StillProcessing))
         = Some Polling.MsgTimedOut)
  /\ (forall n : nat,
         let s := Polling.run Polling.start (repeat Polling.Tick n) in
         Polling.intervalActive s = true
         /\ Polling.resolved s = None
         /\ Polling.attempts s = 0%nat
         /\ Polling.fetches s = S n).
Proof.
  split; [| split].
  - intros k es s. subst s es. unfold Polling.delayed.
    rewrite poll_run_app.
    rewrite (run_unanswered k Polling.start eq_refl).
    rewrite run_processing;
      [| reflexivity | cbn; lia | vm_compute; lia].
    cbn [Polling.attempts Polling.resolved Polling.lastMessage
         Polling.inflight Polling.fetches Polling.handled
         Polling.intervalActive Polling.start].
    repeat split; try lia.
    unfold Polling.elapsedMs.
    rewrite firings_app, firings_ticks, firings_lockstep, repeat_length.
    unfold Polling.pollIntervalMs. lia.
  - cbv zeta. repeat split; try (vm_compute; reflexivity).
    apply Nat.ltb_lt. vm_compute. reflexivity.
  - intros n s. subst s.
    rewrite (run_unanswered n Polling.start eq_refl).
    cbn [Polling.attempts Polling.resolved Polling.lastMessage
         Polling.inflight Polling.fetches Polling.handled
         Polling.intervalActive Polling.start].
    repeat split; lia.
Qed.

(** ** The circuit breaker *)

Section BreakerFacts.
Import CircuitBreaker.

Lemma call_closed (c : CircuitState) (now : Z) (o : GatewayOutcome) :
  state c = Closed -> call c now o = (record c now o, Passed o).
Proof. intros H. unfold call, before_call. now rewrite H. Qed.

Lemma record_closed_counter (c : CircuitState) (now : Z) (o : GatewayOutcome) :
  state c = Closed ->
  consecutiveFailures (record c now o)
  = if is_transport_fault o then S (consecutiveFailures c) else O.
Proof.
  intros H. unfold record. rewrite H.
  destruct (is_transport_fault o); [| reflexivity].
  now destruct (failure_threshold <=? S (consecutiveFailures c))%nat.
Qed.

(** Transport faults below the threshold leave the breaker closed. *)
Lemma faults_below_threshold (times : list Z) (c : CircuitState) :
  state c = Closed ->
  (consecutiveFailures c + List.length times < failure_threshold)%nat ->
  calls c (faults times)
  = (mkCircuit Closed (consecutiveFailures c + List.length times) (openedAt c),
     map (fun _ => Passed TransportFault) times).
Proof.
  revert c. induction times as [| t times IH]; intros c Hc Hlt; simpl.
  - rewrite Nat.add_0_r. destruct c; simpl in *. now subst.
  - rewrite call_closed by assumption. simpl in Hlt.
    unfold record. cbn [is_transport_fault]. rewrite Hc.
    destruct (Nat.leb_spec failure_threshold (S (consecutiveFailures c)));
      [lia |].
    rewrite IH; cbn [state consecutiveFailures openedAt]; auto; [| lia].
    now rewrite Nat.add_succ_r.
Qed.

Lemma five_faults_open (c : CircuitState) (t1 t2 t3 t4 t5 : Z) :
  state c = Closed -> consecutiveFailures c = O ->
  calls c (faults [t1; t2; t3; t4; t5])
  = (mkCircuit Open 5 (Some t5),
     [Passed TransportFault; Passed TransportFault; Passed TransportFault;
      Passed TransportFault; Passed TransportFault]).
Proof.
  intros Hc Hn. destruct c as [st n opened]. simpl in Hc, Hn. subst st n.
  reflexivity.
Qed.

(** An open breaker short-circuits until the recovery timeout is over. *)
Lemma open_short_circuits (l : list (Z * GatewayOutcome))
    (c : CircuitState) (t : Z) :
  state c = Open -> openedAt c = Some t ->
  Forall (fun x => fst x - t < recovery_timeout) l ->
  calls c l = (c, map (fun _ => ShortCircuited) l).
Proof.
  intros Hc Ht. induction 1 as [| [now o] l Hnow _ IH]; simpl; auto.
  unfold call, before_call. rewrite Hc, Ht. simpl in Hnow.
  destruct (Z.leb_spec recovery_timeout (now - t)); [lia |].
  now rewrite IH.
Qed.

Lemma probe (c : CircuitState) (t now : Z) (o : GatewayOutcome) :
  state c = Open -> openedAt c = Some t -> recovery_timeout <= now - t ->
  before_call c now = (mkCircuit HalfOpen (consecutiveFailures c) (Some t), true)
  /\ call c now o
     = (if is_transport_fault o
        then mkCircuit Open (S (consecutiveFailures c)) (Some now)
        else mkCircuit Closed 0 None,
        Passed o).
Proof.
  intros Hc Ht Hnow. unfold call, before_call. rewrite Hc, Ht.
  destruct (Z.leb_spec recovery_timeout (now - t)); [| lia].
  split; [reflexivity |]. unfold record. simpl.
  now destruct (is_transport_fault o).
Qed.

End BreakerFacts.

(** C9: with a threshold of 5 and a recovery timeout of 60 seconds, five
    transport faults in a row on a closed breaker open it, each of the five
    calls having reached the gateway, and fewer leave it closed; while it is
    open and fewer than 60 seconds have passed since it opened, every call
    is short-circuited, no call reaches the gateway and the breaker does not
    change; once 60 seconds have passed the next call is let through as
    the half-open probe, and a probe without a transport fault closes the
    breaker with a counter of zero; on a closed breaker a transport fault
    adds one to the counter of consecutive failures and every other outcome
    (success, compile error, runtime error, timeout) sets it to zero. *)
Theorem breaker_opens_short_circuits_recovers :
  CircuitBreaker.failure_threshold = 5%nat
  /\ CircuitBreaker.recovery_timeout = 60
  /\ (forall (c : CircuitBreaker.CircuitState) (t1 t2 t3 t4 t5 : Z),
         CircuitBreaker.state c = CircuitBreaker.Closed ->
         CircuitBreaker.consecutiveFailures c = O ->
         let l := map (fun t => (t, CircuitBreaker.TransportFault))
                      [t1; t2; t3; t4; t5] in
         CircuitBreaker.state (fst (CircuitBreaker.calls c l))
         = CircuitBreaker.Open
         /\ CircuitBreaker.openedAt (fst (CircuitBreaker.calls c l)) = Some t5
         /\ forallb CircuitBreaker.gateway_called
                    (snd (CircuitBreaker.calls c l)) = true)
  /\ (forall (c : CircuitBreaker.CircuitState) (times : list Z),
         CircuitBreaker.state c = CircuitBreaker.Closed ->
         CircuitBreaker.consecutiveFailures c = O ->
         (List.length times < 5)%nat ->
         CircuitBreaker.state
           (fst (CircuitBreaker.calls c
                   (map (fun t => (t, CircuitBreaker.TransportFault)) times)))
         = CircuitBreaker.Closed)
  /\ (forall (c : CircuitBreaker.CircuitState) (t : Z)
             (l : list (Z * CircuitBreaker.GatewayOutcome)),
         CircuitBreaker.state c = CircuitBreaker.Open ->
         CircuitBreaker.openedAt c = Some t ->
         Forall (fun x => fst x - t < 60) l ->
         fst (CircuitBreaker.calls c l) = c
         /\ existsb CircuitBreaker.gateway_called
                    (snd (CircuitBreaker.calls c l)) = false
         /\ List.length (snd (CircuitBreaker.calls c l)) = List.length l)
  /\ (forall (c : CircuitBreaker.CircuitState) (t now : Z)
             (o : CircuitBreaker.GatewayOutcome),
         CircuitBreaker.state c = CircuitBreaker.Open ->
         CircuitBreaker.openedAt c = Some t ->
         60 <= now - t ->
         CircuitBreaker.state (fst (CircuitBreaker.before_call c now))
         = CircuitBreaker.HalfOpen
         /\ snd (CircuitBreaker.before_call c now) = true
         /\ snd (CircuitBreaker.call c now o) = CircuitBreaker.Passed o
         /\ (CircuitBreaker.is_transport_fault o = false ->
             fst (CircuitBreaker.call c now o)
             = CircuitBreaker.mkCircuit CircuitBreaker.Closed 0 None))
  /\ (forall (c : CircuitBreaker.CircuitState) (now : Z)
             (o : CircuitBreaker.GatewayOutcome),
         CircuitBreaker.state c = CircuitBreaker.Closed ->
         snd (CircuitBreaker.call c now o) = CircuitBreaker.Passed o
         /\ CircuitBreaker.consecutiveFailures (fst (CircuitBreaker.call c now o))
            = match o with
              | CircuitBreaker.TransportFault =>
                  S (CircuitBreaker.consecutiveFailures c)
              | _ => O
              end).
Proof.
  split; [reflexivity | split; [reflexivity |]].
  split; [| split; [| split; [| split]]].
  - intros c t1 t2 t3 t4 t5 Hc Hn l. subst l.
    change (map (fun t => (t, CircuitBreaker.TransportFault)) [t1; t2; t3; t4; t5])
      with (CircuitBreaker.faults [t1; t2; t3; t4; t5]).
    rewrite (five_faults_open c t1 t2 t3 t4 t5 Hc Hn). auto.
  - intros c times Hc Hn Hlen.
    change (map (fun t => (t, CircuitBreaker.TransportFault)) times)
      with (CircuitBreaker.faults times).
    rewrite faults_below_threshold; auto.
    rewrite Hn. exact Hlen.
  - intros c t l Hc Ht Hl.
    rewrite (open_short_circuits l c t Hc Ht Hl). simpl.
    split; [reflexivity | split; [| apply length_map]].
    clear. induction l; simpl; auto.
  - intros c t now o Hc Ht Hnow.
    destruct (probe c t now o Hc Ht Hnow) as [Ha Hcall].
    rewrite Ha, Hcall. simpl. repeat split; auto.
    now intros ->.
  - intros c now o Hc. rewrite call_closed by assumption. simpl.
    split; [reflexivity |].
    rewrite record_closed_counter by assumption. now destruct o.
Qed.

(** An instance: a breaker that opened at 5 s, called at 6 s and at 64 s,
    and probed at 65 s. *)
Lemma breaker_opens_short_circuits_recovers_witness :
  let c := CircuitBreaker.mkCircuit CircuitBreaker.Open 5 (Some 5) in
  (fst (CircuitBreaker.calls c [(6, CircuitBreaker.Success);
                                (64, CircuitBreaker.Success)]) = c
   /\ existsb CircuitBreaker.gateway_called
              (snd (CircuitBreaker.calls c [(6, CircuitBreaker.Success);
                                            (64, CircuitBreaker.Success)]))
      = false
   /\ List.length
        (snd (CircuitBreaker.calls c [(6, CircuitBreaker.Success);
                                      (64, CircuitBreaker.Success)]))
      = 2%nat)
  /\ (CircuitBreaker.state (fst (CircuitBreaker.before_call c 65))
      = CircuitBreaker.HalfOpen
      /\ snd (CircuitBreaker.before_call c 65) = true
      /\ snd (CircuitBreaker.call c 65 CircuitBreaker.Success)
         = CircuitBreaker.Passed CircuitBreaker.Success
      /\ (CircuitBreaker.is_transport_fault CircuitBreaker.Success = false ->
          fst (CircuitBreaker.call c 65 CircuitBreaker.Success)
          = CircuitBreaker.mkCircuit CircuitBreaker.Closed 0 None)).
Proof.
  intros c.
  destruct breaker_opens_short_circuits_recovers
    as (_ & _ & _ & _ & Hshort & Hprobe & _).
  split.
  - apply (Hshort c 5 [(6, CircuitBreaker.Success); (64, CircuitBreaker.Success)]).
    + reflexivity.
    + reflexivity.
    + repeat constructor.
  - apply (Hprobe c 5 65 CircuitBreaker.Success).
    + reflexivity.
    + reflexivity.
    + simpl. lia.
Defined.

(** ** Worked scenarios *)

(** The page's clock 12.345 s after the start, and 2 s behind the server. *)
Example timer_after_start :
  Client.updateTimer (fun _ => Some 1700000000000) "2023-11-14T22:13:20"
                     1700000012345 = Some 12.
Proof. reflexivity. Qed.

Example timer_clock_behind :
  Client.updateTimer (fun _ => Some 1700000000000) "2023-11-14T22:13:20"
                     1699999998000 = Some 0.
Proof. reflexivity. Qed.

Example naive_timestamp_gets_zone :
  Client.utcTimestamp "2023-11-14T22:13:20" = "2023-11-14T22:13:20Z"%string
  /\ Client.utcTimestamp "2023-11-14T22:13:20Z" = "2023-11-14T22:13:20Z"%string
  /\ Client.utcTimestamp "2023-11-14T22:13:20+00:00"
     = "2023-11-14T22:13:20+00:00"%string.
Proof. repeat split. Qed.

(** A match of 600 s: nothing at 599 s, the forced submission at 600 s. *)
Example timeout_at_limit :
  let m := Client.mkMatch "active" (Some 600) (Some "2023-11-14T22:13:20"%string) in
  Client.timeoutCheck (Some m) (Client.started_at m) false (Some 599) = false
  /\ Client.timeoutCheck (Some m) (Client.started_at m) false (Some 600) = true.
Proof. split; reflexivity. Qed.

(** A match without a time limit runs on the default of 15 minutes. *)
Example timeout_default_limit :
  let m := Client.mkMatch "active" None (Some "2023-11-14T22:13:20"%string) in
  Client.timeLimit m = 900
  /\ Client.timeoutCheck (Some m) (Client.started_at m) false (Some 899) = false
  /\ Client.timeoutCheck (Some m) (Client.started_at m) false (Some 900) = true.
Proof. repeat split. Qed.

(** Three players: the higher score first, the faster of two equal scores
    before the slower. *)
Example leaderboard_three_players :
  let ada := Ranking.mkPlayer "u1" "ada" (Some (100 # 1)) (Some (120 # 1)) in
  let bob := Ranking.mkPlayer "u2" "bob" (Some (145 # 1)) (Some (60 # 1)) in
  let cyd := Ranking.mkPlayer "u3" "cyd" (Some (100 # 1)) (Some (90 # 1)) in
  Ranking.sortedPlayers [ada; bob; cyd] = [bob; cyd; ada]
  /\ Ranking.rankOf "u1" (Ranking.sortedPlayers [ada; bob; cyd]) = 3%nat.
Proof. split; reflexivity. Qed.

(** Equal score and time: the order of the array stays. *)
Example leaderboard_tie_keeps_order :
  let ada := Ranking.mkPlayer "u1" "ada" (Some (50 # 1)) (Some (30 # 1)) in
  let bob := Ranking.mkPlayer "u2" "bob" (Some (50 # 1)) (Some (30 # 1)) in
  Ranking.sortedPlayers [ada; bob] = [ada; bob]
  /\ Ranking.sortedPlayers [bob; ada] = [bob; ada].
Proof. split; reflexivity. Qed.

(** A player without a time comes after one with a time. *)
Example leaderboard_missing_time_last :
  let ada := Ranking.mkPlayer "u1" "ada" (Some (50 # 1)) None in
  let bob := Ranking.mkPlayer "u2" "bob" (Some (50 # 1)) (Some (30 # 1)) in
  Ranking.sortedPlayers [ada; bob] = [bob; ada].
Proof. reflexivity. Qed.

(** "Sum 1..n" on input 5 against the expected "15": the buggy program
    prints "10", the fixed one "15" and a line feed. *)
Example sum_buggy_fails :
  RunCheck.passed [49; 48; 10]%N [49; 53]%N = false.
Proof. reflexivity. Qed.

Example sum_fixed_passes :
  RunCheck.passed [49; 53; 10]%N [49; 53]%N = true.
Proof. reflexivity. Qed.

Example trim_both_ends :
  RunCheck.trim [32; 9; 49; 32; 53; 13; 10]%N = [49; 32; 53]%N.
Proof. reflexivity. Qed.

(** Doubles: 0.1 is 3602879701896397 / 2^55; the bonus before truncation
    at 540 of 600 s is 5629499534213119 / 2^50, which prints as
    4.999999999999999; 2^1024 is beyond the doubles. *)
Example double_one_tenth :
  Binary64.round (1 # 10)
  = Binary64.Finite (3602879701896397 # 36028797018963968).
Proof. vm_compute. reflexivity. Qed.

Example double_bonus_at_nine_tenths :
  Binary64.fmul
    (Binary64.fsub (Binary64.Finite 1) (Binary64.round (540 # 600)))
    (Binary64.Finite 50)
  = Binary64.Finite (5629499534213119 # 1125899906842624).
Proof. vm_compute. reflexivity. Qed.

Example double_overflow :
  Binary64.round (Binary64.pow2 1024) = Binary64.PosInf
  /\ Binary64.round (Binary64.pow2 1024 - Binary64.pow2 971)
     = Binary64.Finite (Binary64.pow2 1024 - Binary64.pow2 971).
Proof. split; vm_compute; reflexivity. Qed.

(** The examples of src/SCORING_FIX.md: quick but wrong; partial success;
    perfect and fast; perfect but slow.  The first three evaluate to the
    documented scores.  The fourth, documented as a bonus of 5 and a score
    of 105, evaluates to 4 and 104: 540 / 600 rounds to the double next to
    0.9, 1 minus that lies just under 0.1, and the product with 50 just
    under 5, of which int keeps 4. *)
Example scoring_quick_but_wrong :
  Scoring.score_submission 0 3 (30 # 1) (600 # 1)
  = Some (Scoring.mkScored 0 0).
Proof. reflexivity. Qed.

Example scoring_partial_success :
  Scoring.score_submission 2 3 (120 # 1) (600 # 1)
  = Some (Scoring.mkScored 40 106).
Proof. reflexivity. Qed.

Example scoring_perfect_and_fast :
  Scoring.score_submission 3 3 (60 # 1) (600 # 1)
  = Some (Scoring.mkScored 45 145).
Proof. reflexivity. Qed.

Example scoring_perfect_but_slow :
  Scoring.score_submission 3 3 (540 # 1) (600 # 1)
  = Some (Scoring.mkScored 4 104).
Proof. vm_compute. reflexivity. Qed.

(** 29 / 100 rounds to a double under 0.29, and its product with 100 to
    one under 29. *)
Example scoring_29_of_100 :
  Scoring.test_score 29 100 = Some 28.
Proof. vm_compute. reflexivity. Qed.

(** A count of passed tests beyond the range of the doubles has no score:
    the division raises OverflowError. *)
Example scoring_count_out_of_range :
  Scoring.test_score (Z.to_nat (2 ^ 1100)) 1 = None.
Proof.
  unfold Scoring.test_score.
  rewrite Z2Nat.id by (apply Z.pow_nonneg; lia).
  vm_compute. reflexivity.
Qed.

(** Two players and 600 s: the first solves everything at 60 s, the second
    never submits; the deadline check at 600 s completes the match, the
    second player is finalized with a score of zero, and a later trigger
    changes nothing. *)
Example match_two_players_deadline :
  let m := MatchMachine.mkMatch 1 MatchMachine.Active 0 600
             [MatchMachine.mkProgress 1 0 0 false None;
              MatchMachine.mkProgress 2 0 0 false None] [] None in
  let solved := MatchMachine.Submission 1 (MatchMachine.mkOutcome 3 3 100)
                                        false 60 in
  MatchMachine.status (MatchMachine.run m [solved]) = MatchMachine.Active
  /\ MatchMachine.read (MatchMachine.run m [solved; MatchMachine.Deadline 600])
     = (MatchMachine.Completed,
        Some [MatchMachine.mkProgress 1 0 145 true (Some 60);
              MatchMachine.mkProgress 2 0 0 true (Some 600)])
  /\ MatchMachine.run m [solved; MatchMachine.Deadline 600;
                         MatchMachine.Deadline 601]
     = MatchMachine.run m [solved; MatchMachine.Deadline 600].
Proof. repeat split. Qed.

(** A forced submission after a half-passing validation at 300 of 600 s. *)
Example match_forced_partial :
  let m := MatchMachine.mkMatch 1 MatchMachine.Active 0 600
             [MatchMachine.mkProgress 1 0 0 false None;
              MatchMachine.mkProgress 2 0 0 false None] [] None in
  let half := MatchMachine.mkOutcome 1 2 50 in
  MatchMachine.players (snd (MatchMachine.submit m 1 half false 300))
  = MatchMachine.players m
  /\ MatchMachine.players (snd (MatchMachine.submit m 1 half true 300))
     = [MatchMachine.mkProgress 1 0 75 true (Some 300);
        MatchMachine.mkProgress 2 0 0 false None].
Proof. split; reflexivity. Qed.

(** Sixty answers "still processing", each before the next firing. *)
Example poll_gives_up :
  let s := Polling.run Polling.start
             (Polling.lockstep (repeat Polling.StillProcessing 60)) in
  Polling.intervalActive s = false
  /\ Polling.resolved s = Some Polling.Null
  /\ Polling.lastMessage s = Some Polling.MsgTimedOut
  /\ Polling.fetches s = 60%nat.
Proof. repeat split. Qed.

(** Two answers "still processing", then the result. *)
Example poll_completes :
  let d := RunCheck.mkRun None None false (Some [49; 53; 10]%N) in
  let s := Polling.run Polling.start
             (Polling.lockstep [Polling.StillProcessing; Polling.StillProcessing;
                                Polling.StatusCompleted d]) in
  Polling.intervalActive s = false
  /\ Polling.resolved s = Some (Polling.Data d)
  /\ Polling.fetches s = 3%nat.
Proof. repeat split. Qed.

(** Four faults, a compile error, four faults: the breaker stays closed. *)
Example breaker_counts_consecutive_faults :
  let fault t := (t, CircuitBreaker.TransportFault) in
  CircuitBreaker.state
    (fst (CircuitBreaker.calls CircuitBreaker.initial
            [fault 1; fault 2; fault 3; fault 4;
             (5, CircuitBreaker.CompileError);
             fault 6; fault 7; fault 8; fault 9]))
  = CircuitBreaker.Closed.
Proof. reflexivity. Qed.

(** Five faults open the breaker at 5 s; calls at 6 s and 64 s are
    short-circuited; the call at 65 s is the probe and closes it. *)
Example breaker_opens_and_recovers :
  let fault t := (t, CircuitBreaker.TransportFault) in
  CircuitBreaker.calls CircuitBreaker.initial
    [fault 1; fault 2; fault 3; fault 4; fault 5;
     (6, CircuitBreaker.Success); (64, CircuitBreaker.Success);
     (65, CircuitBreaker.Success)]
  = (CircuitBreaker.mkCircuit CircuitBreaker.Closed 0 None,
     [CircuitBreaker.Passed CircuitBreaker.TransportFault;
      CircuitBreaker.Passed CircuitBreaker.TransportFault;
      CircuitBreaker.Passed CircuitBreaker.TransportFault;
      CircuitBreaker.Passed CircuitBreaker.TransportFault;
      CircuitBreaker.Passed CircuitBreaker.TransportFault;
      CircuitBreaker.ShortCircuited; CircuitBreaker.ShortCircuited;
      CircuitBreaker.Passed CircuitBreaker.Success]).
Proof. reflexivity. Qed.

(* ================================================================== *)
(** ** The clock in the header *)

Section ClockFacts.
Import DecimalString.

Lemma splitColon_zeros (n : nat) (a : string) :
  Clock.splitColon (Clock.zeros n ++ a)
  = match Clock.splitColon a with
    | Some (x, y) => Some ((Clock.zeros n ++ x)%string, y)
    | None => None
    end.
Proof.
  induction n as [| n IH]; simpl.
  - now destruct (Clock.splitColon a) as [[x y] |].
  - rewrite IH. now destruct (Clock.splitColon a) as [[x y] |].
Qed.

Lemma splitColon_digits (d : Decimal.uint) (a : string) :
  Clock.splitColon (NilEmpty.string_of_uint d ++ a)
  = match Clock.splitColon a with
    | Some (x, y) => Some ((NilEmpty.string_of_uint d ++ x)%string, y)
    | None => None
    end.
Proof.
  induction d as [| d IH | d IH | d IH | d IH | d IH | d IH | d IH | d IH
                  | d IH | d IH]; simpl;
    try rewrite IH; now destruct (Clock.splitColon a) as [[x y] |].
Qed.

Lemma string_app_nil_r (s : string) : (s ++ "")%string = s.
Proof. induction s as [| c s IH]; simpl; congruence. Qed.

Lemma string_app_assoc (a b c : string) :
  ((a ++ b) ++ c)%string = (a ++ b ++ c)%string.
Proof. induction a as [| x a IH]; simpl; congruence. Qed.

Lemma splitColon_field (n : nat) (d : Decimal.uint) (b : string) :
  Clock.splitColon
    ((Clock.zeros n ++ NilEmpty.string_of_uint d) ++ ":" ++ b)
  = Some ((Clock.zeros n ++ NilEmpty.string_of_uint d)%string, b).
Proof.
  rewrite string_app_assoc, splitColon_zeros, splitColon_digits.
  simpl. now rewrite string_app_nil_r.
Qed.

Lemma uint_of_string_padded (n : nat) (d : Decimal.uint) :
  NilEmpty.uint_of_string (Clock.zeros n ++ NilEmpty.string_of_uint d)
  = Some (Nat.iter n Decimal.D0 d).
Proof.
  induction n as [| n IH]; simpl.
  - apply NilEmpty.usu.
  - now rewrite IH.
Qed.

Lemma of_uint_padded (n : nat) (d : Decimal.uint) :
  Z.of_uint (Nat.iter n Decimal.D0 d) = Z.of_uint d.
Proof.
  unfold Z.of_uint. f_equal.
  rewrite <- DecimalPos.Unsigned.of_uint_norm.
  rewrite <- (DecimalPos.Unsigned.of_uint_norm d).
  unfold Decimal.unorm. now rewrite DecimalFacts.nzhead_iter_D0.
Qed.

Lemma numToString_digits (n : Z) :
  0 <= n < 2 ^ 53 ->
  Clock.numToString n = Some (NilEmpty.string_of_uint (Clock.digits n)).
Proof.
  intros Hn. unfold Clock.numToString, Clock.isSafeInteger, Clock.digits.
  destruct (Z.ltb_spec (Z.abs n) (2 ^ 53)) as [_ | Hbig]; [| lia].
  destruct n; simpl; try reflexivity. lia.
Qed.

Lemma of_uint_digits (n : Z) : 0 <= n -> Z.of_uint (Clock.digits n) = n.
Proof.
  intros Hn. pose proof (DecimalZ.of_to n) as H. unfold Clock.digits.
  destruct n; simpl in *; auto. lia.
Qed.

(** The text of a time that a safe integer holds. *)
Lemma formatTime_value (seconds : Z) :
  0 <= seconds < 2 ^ 53 ->
  Clock.formatTime seconds
  = Some (Clock.padStart 2 (NilEmpty.string_of_uint
                              (Clock.digits (seconds / 60)))
          ++ ":"
          ++ Clock.padStart 2 (NilEmpty.string_of_uint
                                 (Clock.digits (Z.rem seconds 60))))%string.
Proof.
  intros Hs. unfold Clock.formatTime, Clock.isSafeInteger.
  destruct (Z.ltb_spec (Z.abs seconds) (2 ^ 53)) as [_ | Hbig]; [| lia].
  cbv zeta.
  assert (Hm : 0 <= seconds / 60 < 2 ^ 53).
  { split; [apply Z.div_pos; lia |].
    apply Z.div_lt_upper_bound; lia. }
  assert (Hr : 0 <= Z.rem seconds 60 < 2 ^ 53).
  { rewrite Z.rem_mod_nonneg by lia.
    pose proof (Z.mod_pos_bound seconds 60). lia. }
  now rewrite (numToString_digits _ Hm), (numToString_digits _ Hr).
Qed.

Lemma padStart_field (b : string) (n : Z) :
  0 <= n ->
  Clock.splitColon
    (Clock.padStart 2 (NilEmpty.string_of_uint (Clock.digits n)) ++ ":" ++ b)
  = Some (Clock.padStart 2 (NilEmpty.string_of_uint (Clock.digits n)), b)
  /\ exists d : Decimal.uint,
       NilEmpty.uint_of_string
         (Clock.padStart 2 (NilEmpty.string_of_uint (Clock.digits n)))
       = Some d
       /\ Z.of_uint d = n.
Proof.
  intros Hn. unfold Clock.padStart.
  split.
  - apply splitColon_field.
  - eexists. split; [apply uint_of_string_padded |].
    rewrite of_uint_padded. now apply of_uint_digits.
Qed.

Lemma two_places (r : Z) :
  0 <= r < 60 ->
  String.length
    (Clock.padStart 2 (NilEmpty.string_of_uint (Clock.digits r))) = 2%nat.
Proof.
  intros Hr. replace r with (Z.of_nat (Z.to_nat r)) by lia.
  assert (Hn : (Z.to_nat r < 60)%nat) by lia.
  revert Hn. generalize (Z.to_nat r). clear r Hr. intros n Hn.
  do 60 (destruct n as [| n]; [reflexivity |]). lia.
Qed.

Lemma string_length_app (a b : string) :
  String.length (a ++ b) = (String.length a + String.length b)%nat.
Proof. induction a as [| c a IH]; simpl; congruence. Qed.

Lemma padStart_length (n : nat) (s : string) :
  (n <= String.length (Clock.padStart n s))%nat.
Proof.
  unfold Clock.padStart. rewrite string_length_app.
  assert (H : forall k, String.length (Clock.zeros k) = k)
    by (induction k; simpl; congruence).
  rewrite H. lia.
Qed.

(** X1: for a number of seconds from 0 up to, but not including, 2^53
    (the integers a Number holds exactly), [formatTime] writes the
    minutes, a colon and the seconds: the seconds take exactly two places
    and are below 60, the minutes take at least two places, and reading
    the text back as 60 * minutes + seconds gives the number of seconds
    again, so different times in that range never show the same clock. *)
Theorem formatTime_reads_back (seconds : Z) :
  0 <= seconds < 2 ^ 53 ->
  exists text : string,
    Clock.formatTime seconds = Some text
    /\ (exists mm ss : string,
           text = (mm ++ ":" ++ ss)%string
           /\ (2 <= String.length mm)%nat
           /\ String.length ss = 2%nat
           /\ exists m s : Decimal.uint,
                NilEmpty.uint_of_string mm = Some m
                /\ NilEmpty.uint_of_string ss = Some s
                /\ Z.of_uint m = seconds / 60
                /\ Z.of_uint s = Z.rem seconds 60
                /\ 0 <= Z.of_uint s < 60)
    /\ Clock.readClock text = Some seconds
    /\ (forall other : Z,
           0 <= other < 2 ^ 53 -> Clock.formatTime other = Some text ->
           other = seconds).
Proof.
  assert (Hread : forall t, 0 <= t < 2 ^ 53 ->
            exists text, Clock.formatTime t = Some text
                         /\ Clock.readClock text = Some t).
  { intros t Ht. rewrite (formatTime_value t Ht).
    eexists. split; [reflexivity |]. unfold Clock.readClock.
    assert (Hm : 0 <= t / 60) by (apply Z.div_pos; lia).
    assert (Hs : 0 <= Z.rem t 60) by (apply Z.rem_nonneg; lia).
    destruct (padStart_field
                (Clock.padStart 2 (NilEmpty.string_of_uint
                                     (Clock.digits (Z.rem t 60))))
                (t / 60) Hm) as [Hsplit [dm [Hdm Hvm]]].
    destruct (padStart_field "" (Z.rem t 60) Hs) as [_ [ds [Hds Hvs]]].
    rewrite Hsplit, Hdm, Hds, Hvm, Hvs.
    f_equal. rewrite Z.rem_mod_nonneg by lia.
    pose proof (Z.div_mod t 60). lia. }
  intros Hsec.
  destruct (Hread seconds Hsec) as (text & Htext & Hback).
  exists text. split; [exact Htext |]. split; [| split].
  - rewrite (formatTime_value seconds Hsec) in Htext.
    injection Htext as <-.
    assert (Hm : 0 <= seconds / 60) by (apply Z.div_pos; lia).
    assert (Hs : 0 <= Z.rem seconds 60 < 60)
      by (rewrite Z.rem_mod_nonneg by lia; apply Z.mod_pos_bound; lia).
    exists (Clock.padStart 2 (NilEmpty.string_of_uint
                                (Clock.digits (seconds / 60)))),
           (Clock.padStart 2 (NilEmpty.string_of_uint
                                (Clock.digits (Z.rem seconds 60)))).
    split; [reflexivity |]. split; [apply padStart_length |].
    split; [now apply two_places |].
    destruct (padStart_field "" (seconds / 60) Hm) as [_ [dm [Hdm Hvm]]].
    destruct (padStart_field "" (Z.rem seconds 60) (proj1 Hs))
      as [_ [ds [Hds Hvs]]].
    exists dm, ds. repeat split; auto; lia.
  - exact Hback.
  - intros other Hother Heq.
    destruct (Hread other Hother) as (text' & Htext' & Hback').
    rewrite Heq in Htext'. injection Htext' as <-. congruence.
Qed.

(** An instance: 754 seconds show as 12:34. *)
Lemma formatTime_reads_back_witness :
  exists text : string,
    Clock.formatTime 754 = Some text
    /\ text = "12:34"%string
    /\ Clock.readClock text = Some 754.
Proof.
  destruct (formatTime_reads_back 754) as (text & Htext & _ & Hback & _);
    [lia |].
  exists text. split; [exact Htext |]. split; [| exact Hback].
  vm_compute in Htext. injection Htext as <-. reflexivity.
Defined.

End ClockFacts.

Lemma progress_value (limit timeElapsed : Z) :
  0 < limit ->
  ((inject_Z timeElapsed / inject_Z limit) * 100 == (100 * timeElapsed) # (Z.to_pos limit))%Q.
Proof.
  intros Hl. destruct limit as [| p | p]; try lia.
  unfold Qeq, Qdiv, Qmult, Qinv, inject_Z. cbn [Qnum Qden Z.to_pos].
  rewrite ?Pos.mul_1_r, ?Pos.mul_1_l. ring.
Qed.

Lemma progress_full (limit timeElapsed : Z) :
  0 < limit ->
  Qle_bool 100 ((inject_Z timeElapsed / inject_Z limit) * 100) = true
  <-> limit <= timeElapsed.
Proof.
  intros Hl. rewrite Qle_bool_iff, (progress_value limit timeElapsed Hl).
  destruct limit as [| p | p]; try lia.
  unfold Qle. cbn [Qnum Qden Z.to_pos]. lia.
Qed.

(** X2: for a match with a positive time limit and an elapsed time that is
    not negative, the time shown as remaining lies between 0 and the limit
    and, until the limit is reached, adds up with the elapsed time to the
    limit; it is 0 exactly from the limit on, which is also exactly when
    the progress bar is full (100); the bar never shows less than 0 or more
    than 100; and whenever the timeout check fires, the clock reads 00:00
    and the bar is full. *)
Theorem clock_runs_down_to_timeout (m : Client.Match) (timeElapsed : Z) :
  0 < Client.timeLimit m -> 0 <= timeElapsed ->
  0 <= Clock.timeRemaining m timeElapsed <= Client.timeLimit m
  /\ (timeElapsed <= Client.timeLimit m ->
      Clock.timeRemaining m timeElapsed + timeElapsed = Client.timeLimit m)
  /\ (Clock.timeRemaining m timeElapsed = 0
      <-> Client.timeLimit m <= timeElapsed)
  /\ ((Clock.timeProgress m timeElapsed == 100)%Q
      <-> Client.timeLimit m <= timeElapsed)
  /\ (0 <= Clock.timeProgress m timeElapsed
      /\ Clock.timeProgress m timeElapsed <= 100)%Q
  /\ (forall matchStartTime : option string,
         Client.timeoutCheck (Some m) matchStartTime false (Some timeElapsed)
         = true ->
         Clock.formatTime (Clock.timeRemaining m timeElapsed)
         = Some "00:00"%string
         /\ (Clock.timeProgress m timeElapsed == 100)%Q).
Proof.
  intros Hl He.
  assert (Hfull : (Clock.timeProgress m timeElapsed == 100)%Q
                   <-> Client.timeLimit m <= timeElapsed).
  { unfold Clock.timeProgress. cbv zeta.
    pose proof (progress_full (Client.timeLimit m) timeElapsed Hl) as Hb.
    destruct (Qle_bool 100 _) eqn:E.
    - split; [intros _; now apply Hb | reflexivity].
    - split; [| intros H; apply Hb in H; discriminate].
      intros Heq. apply Hb. rewrite <- E. apply Qle_bool_iff.
      rewrite Heq. apply Qle_refl. }
  assert (Hrem : Clock.timeRemaining m timeElapsed = 0
                 <-> Client.timeLimit m <= timeElapsed)
    by (unfold Clock.timeRemaining; lia).
  unfold Clock.timeRemaining in *.
  repeat split; try lia; try tauto.
  - unfold Clock.timeProgress. cbv zeta. destruct (Qle_bool 100 _) eqn:E.
    + discriminate.
    + rewrite (progress_value _ timeElapsed Hl). unfold Qle.
      cbn [Qnum Qden]. lia.
  - unfold Clock.timeProgress. cbv zeta. destruct (Qle_bool 100 _) eqn:E.
    + apply Qle_refl.
    + apply Qnot_lt_le. intros Hlt. apply Qlt_le_weak in Hlt.
      apply Qle_bool_iff in Hlt. congruence.
  - apply timeoutCheck_fires_iff in H.
    replace (Z.max 0 (Client.timeLimit m - timeElapsed)) with 0 by lia.
    reflexivity.
  - apply Hfull. apply timeoutCheck_fires_iff in H. lia.
Qed.

(** An instance: a match of 600 s at 600 s. *)
Lemma clock_runs_down_to_timeout_witness :
  Clock.timeRemaining
    (Client.mkMatch "active" (Some 600) (Some "2023-11-14T22:13:20"%string))
    600 = 0
  <-> Client.timeLimit
        (Client.mkMatch "active" (Some 600)
                        (Some "2023-11-14T22:13:20"%string)) <= 600.
Proof.
  apply (clock_runs_down_to_timeout
           (Client.mkMatch "active" (Some 600)
                           (Some "2023-11-14T22:13:20"%string)) 600);
    [reflexivity | lia].
Defined.

Section ClockForward.
Variable parseDate : string -> option Z.

(** X22: while the client's clock moves forward the page's clock does not
    run backwards: at a later instant the elapsed time shown is not
    smaller and the remaining time not larger; and a timeout check that
    fires at some elapsed time fires at every later one, as long as the
    match is not marked completed. *)
Theorem clock_never_runs_backwards
    (matchStartTime : string) (startedAt now later : Z) (m : Client.Match) :
  parseDate (Client.utcTimestamp matchStartTime) = Some startedAt ->
  now <= later ->
  exists e e' : Z,
    Client.updateTimer parseDate matchStartTime now = Some e
    /\ Client.updateTimer parseDate matchStartTime later = Some e'
    /\ 0 <= e <= e'
    /\ Clock.timeRemaining m e' <= Clock.timeRemaining m e
    /\ (forall st : option string,
           Client.timeoutCheck (Some m) st false (Some e) = true ->
           Client.timeoutCheck (Some m) st false (Some e') = true).
Proof.
  intros Hparse Hnow.
  exists (Z.max 0 ((now - startedAt) / 1000)),
         (Z.max 0 ((later - startedAt) / 1000)).
  rewrite !(updateTimer_value parseDate matchStartTime startedAt) by exact Hparse.
  assert (Hdiv : (now - startedAt) / 1000 <= (later - startedAt) / 1000)
    by (apply Z.div_le_mono; lia).
  split; [reflexivity |]. split; [reflexivity |]. split; [lia |].
  split; [unfold Clock.timeRemaining; lia |].
  intros st Hfires. apply timeoutCheck_fires_iff in Hfires.
  apply timeoutCheck_fires_iff. intuition lia.
Qed.

End ClockForward.

(** An instance: 12.345 s and 15 s after the start of a match of 600 s. *)
Lemma clock_never_runs_backwards_witness :
  exists e e' : Z,
    Client.updateTimer (fun _ => Some 1700000000000)
                       "2023-11-14T22:13:20" 1700000012345 = Some e
    /\ Client.updateTimer (fun _ => Some 1700000000000)
                          "2023-11-14T22:13:20" 1700000015000 = Some e'
    /\ 0 <= e <= e'.
Proof.
  destruct (clock_never_runs_backwards
              (fun _ => Some 1700000000000) "2023-11-14T22:13:20"
              1700000000000 1700000012345 1700000015000
              (Client.mkMatch "active" (Some 600)
                              (Some "2023-11-14T22:13:20"%string)))
    as (e & e' & H1 & H2 & H3 & _);
    [reflexivity | lia |].
  exists e, e'. repeat split; auto; lia.
Defined.

(* ================================================================== *)
(** ** Arranging lines *)

Section ShuffleFacts.
Variable V : Type.
Variable undefined : V.

Lemma split_at (l : list V) (i : nat) :
  (i < List.length l)%nat ->
  exists pre x post, l = pre ++ x :: post /\ List.length pre = i.
Proof.
  intros Hi. destruct (nth_split l undefined Hi) as (pre & post & Hl & Hlen).
  now exists pre, (nth i l undefined), post.
Qed.

Lemma get_middle (pre post : list V) (x : V) :
  Shuffle.get V undefined (pre ++ x :: post) (List.length pre) = x.
Proof. unfold Shuffle.get. apply nth_middle. Qed.

Lemma get_left (pre post : list V) (k : nat) :
  (k < List.length pre)%nat -> Shuffle.get V undefined (pre ++ post) k = Shuffle.get V undefined pre k.
Proof. intros Hk. unfold Shuffle.get. now apply app_nth1. Qed.

Lemma get_right (pre post : list V) (k : nat) :
  Shuffle.get V undefined (pre ++ post) (List.length pre + k) = Shuffle.get V undefined post k.
Proof.
  unfold Shuffle.get. rewrite app_nth2 by lia. f_equal. lia.
Qed.

Lemma set_middle (pre post : list V) (x v : V) :
  Shuffle.set V undefined (pre ++ x :: post) (List.length pre) v = pre ++ v :: post.
Proof.
  unfold Shuffle.set.
  assert (Hlt : (List.length pre <? List.length (pre ++ x :: post))%nat = true)
    by (apply Nat.ltb_lt; rewrite length_app; simpl; lia).
  rewrite Hlt. f_equal.
  - rewrite firstn_app, Nat.sub_diag, firstn_all. simpl. apply app_nil_r.
  - f_equal. rewrite skipn_app, skipn_all2 by lia.
    replace (S (List.length pre) - List.length pre)%nat with 1%nat by lia.
    reflexivity.
Qed.

(** Moving the lower of two neighbours up, or the upper one down, swaps
    them. *)
Lemma move_up_swaps (pre post : list V) (a b : V) :
  Shuffle.handleLineMove V undefined (S (List.length pre)) "up" (pre ++ a :: b :: post)
  = pre ++ b :: a :: post.
Proof.
  unfold Shuffle.handleLineMove. rewrite String.eqb_refl. cbv zeta.
  replace (Z.of_nat (S (List.length pre)) - 1) with (Z.of_nat (List.length pre))
    by lia.
  assert (Hr : (Z.of_nat (List.length pre) <? 0)
               || (Z.of_nat (List.length (pre ++ a :: b :: post))
                   <=? Z.of_nat (List.length pre)) = false).
  { rewrite length_app. simpl. apply orb_false_iff. split.
    - apply Z.ltb_ge. lia.
    - apply Z.leb_gt. lia. }
  rewrite Hr, Nat2Z.id, get_middle.
  replace (pre ++ a :: b :: post) with ((pre ++ [a]) ++ b :: post)
    by (rewrite <- app_assoc; reflexivity).
  replace (S (List.length pre)) with (List.length (pre ++ [a]))
    by (rewrite length_app; simpl; lia).
  rewrite get_middle, set_middle, <- app_assoc. simpl.
  now rewrite set_middle.
Qed.

Lemma move_down_swaps (direction : string) (pre post : list V) (a b : V) :
  String.eqb direction "up" = false ->
  Shuffle.handleLineMove V undefined (List.length pre) direction (pre ++ a :: b :: post)
  = pre ++ b :: a :: post.
Proof.
  intros Hdir. unfold Shuffle.handleLineMove. rewrite Hdir. cbv zeta.
  assert (Hr : (Z.of_nat (List.length pre) + 1 <? 0)
               || (Z.of_nat (List.length (pre ++ a :: b :: post))
                   <=? Z.of_nat (List.length pre) + 1) = false).
  { rewrite length_app. simpl. apply orb_false_iff. split.
    - apply Z.ltb_ge. lia.
    - apply Z.leb_gt. lia. }
  rewrite Hr.
  replace (Z.to_nat (Z.of_nat (List.length pre) + 1))
    with (S (List.length pre)) by lia.
  rewrite get_middle, set_middle.
  replace (pre ++ a :: b :: post) with ((pre ++ [a]) ++ b :: post)
    by (rewrite <- app_assoc; reflexivity).
  replace (S (List.length pre)) with (List.length (pre ++ [a]))
    by (rewrite length_app; simpl; lia).
  rewrite get_middle.
  replace (pre ++ b :: b :: post) with ((pre ++ [b]) ++ b :: post)
    by (rewrite <- app_assoc; reflexivity).
  replace (List.length (pre ++ [a])) with (List.length (pre ++ [b]))
    by (rewrite !length_app; reflexivity).
  rewrite set_middle, <- app_assoc. reflexivity.
Qed.

Lemma move_up_at_top (l : list V) : Shuffle.handleLineMove V undefined 0 "up" l = l.
Proof. reflexivity. Qed.

Lemma move_down_at_bottom (direction : string) (l : list V) (i : nat) :
  String.eqb direction "up" = false -> S i = List.length l ->
  Shuffle.handleLineMove V undefined i direction l = l.
Proof.
  intros Hdir Hi. unfold Shuffle.handleLineMove. rewrite Hdir. cbv zeta.
  assert (Hr : (Z.of_nat i + 1 <? 0)
               || (Z.of_nat (List.length l) <=? Z.of_nat i + 1) = true).
  { apply orb_true_iff. right. apply Z.leb_le. lia. }
  now rewrite Hr.
Qed.

(** What a move of a line that exists does, by cases. *)
Lemma move_cases (fromIndex : nat) (direction : string) (l : list V) :
  (fromIndex < List.length l)%nat ->
  Shuffle.handleLineMove V undefined fromIndex direction l = l
  /\ (if String.eqb direction "up" then fromIndex = 0%nat
      else S fromIndex = List.length l)
  \/ exists pre a b post,
       l = pre ++ a :: b :: post
       /\ Shuffle.handleLineMove V undefined fromIndex direction l = pre ++ b :: a :: post
       /\ (if String.eqb direction "up" then fromIndex = S (List.length pre)
           else fromIndex = List.length pre).
Proof.
  intros Hi. destruct (String.eqb direction "up") eqn:Hdir.
  - apply String.eqb_eq in Hdir. subst direction.
    destruct fromIndex as [| i]; [left; split; reflexivity |].
    right. destruct (split_at l i) as (pre & a & rest & Hl & Hlen); [lia |].
    subst l. destruct rest as [| b post].
    { rewrite length_app in Hi. simpl in Hi. lia. }
    exists pre, a, b, post. subst i. split; [reflexivity |].
    split; [apply move_up_swaps | reflexivity].
  - destruct (split_at l fromIndex Hi) as (pre & a & rest & Hl & Hlen).
    subst l. destruct rest as [| b post].
    + left. split; [| rewrite length_app; simpl; lia].
      apply move_down_at_bottom; [exact Hdir |].
      rewrite length_app. simpl. lia.
    + right. exists pre, a, b, post. subst fromIndex.
      split; [reflexivity |]. split; [now apply move_down_swaps | reflexivity].
Qed.

(** X3: moving a line of the arrangement up or down never loses, repeats or
    invents a line: the result is a rearrangement of the same lines, of the
    same length. The first line moved up and the last line moved down stay
    where they are; any other move swaps the line with its neighbour and
    leaves every other position alone, and moving the line back restores
    the arrangement. *)
Theorem handleLineMove_swaps_neighbours
    (fromIndex : nat) (direction : string) (arrangedLines : list V) :
  (fromIndex < List.length arrangedLines)%nat ->
  let moved := Shuffle.handleLineMove V undefined fromIndex direction arrangedLines in
  let up := String.eqb direction "up" in
  let toIndex := if up then (fromIndex - 1)%nat else S fromIndex in
  Permutation arrangedLines moved
  /\ List.length moved = List.length arrangedLines
  /\ (up = true -> fromIndex = 0%nat -> moved = arrangedLines)
  /\ (up = false -> S fromIndex = List.length arrangedLines ->
      moved = arrangedLines)
  /\ ((if up then 0 < fromIndex else S fromIndex < List.length arrangedLines)%nat ->
      Shuffle.get V undefined moved toIndex = Shuffle.get V undefined arrangedLines fromIndex
      /\ Shuffle.get V undefined moved fromIndex = Shuffle.get V undefined arrangedLines toIndex
      /\ (forall k : nat, k <> fromIndex -> k <> toIndex ->
             Shuffle.get V undefined moved k = Shuffle.get V undefined arrangedLines k)
      /\ Shuffle.handleLineMove V undefined toIndex (if up then "down" else "up") moved
         = arrangedLines).
Proof.
  intros Hi. cbv zeta.
  destruct (move_cases fromIndex direction arrangedLines Hi)
    as [[Hsame Hedge] | (pre & a & b & post & Hl & Hmove & Hidx)].
  - rewrite Hsame. split; [apply Permutation_refl |].
    split; [reflexivity |]. split; [reflexivity |]. split; [reflexivity |].
    destruct (String.eqb direction "up"); lia.
  - rewrite Hmove. subst arrangedLines.
    split; [apply Permutation_app_head, perm_swap |].
    split; [rewrite !length_app; reflexivity |].
    destruct (String.eqb direction "up") eqn:Hdir.
    + subst fromIndex. split; [discriminate |]. split; [discriminate |].
      intros _. replace (S (List.length pre) - 1)%nat with (List.length pre)
        by lia.
      split; [| split; [| split]].
      * rewrite get_middle.
        replace (pre ++ a :: b :: post) with ((pre ++ [a]) ++ b :: post)
          by (rewrite <- app_assoc; reflexivity).
        replace (S (List.length pre)) with (List.length (pre ++ [a]))
          by (rewrite length_app; simpl; lia).
        now rewrite get_middle.
      * rewrite get_middle.
        replace (pre ++ b :: a :: post) with ((pre ++ [b]) ++ a :: post)
          by (rewrite <- app_assoc; reflexivity).
        replace (S (List.length pre)) with (List.length (pre ++ [b]))
          by (rewrite length_app; simpl; lia).
        now rewrite get_middle.
      * intros k Hk1 Hk2.
        destruct (Nat.lt_ge_cases k (List.length pre)) as [Hlt | Hge].
        -- now rewrite !get_left.
        -- replace k with (List.length pre + (k - List.length pre))%nat by lia.
           rewrite !get_right.
           destruct (k - List.length pre)%nat as [| [| j]] eqn:E;
             [lia | lia | reflexivity].
      * now apply move_down_swaps.
    + subst fromIndex. split; [discriminate |]. split.
      { intros _ H. rewrite length_app in H. simpl in H. lia. }
      intros _. split; [| split; [| split]].
      * rewrite get_middle.
        replace (pre ++ b :: a :: post) with ((pre ++ [b]) ++ a :: post)
          by (rewrite <- app_assoc; reflexivity).
        replace (S (List.length pre)) with (List.length (pre ++ [b]))
          by (rewrite length_app; simpl; lia).
        now rewrite get_middle.
      * rewrite get_middle.
        replace (pre ++ a :: b :: post) with ((pre ++ [a]) ++ b :: post)
          by (rewrite <- app_assoc; reflexivity).
        replace (S (List.length pre)) with (List.length (pre ++ [a]))
          by (rewrite length_app; simpl; lia).
        now rewrite get_middle.
      * intros k Hk1 Hk2.
        destruct (Nat.lt_ge_cases k (List.length pre)) as [Hlt | Hge].
        -- now rewrite !get_left.
        -- replace k with (List.length pre + (k - List.length pre))%nat by lia.
           rewrite !get_right.
           destruct (k - List.length pre)%nat as [| [| j]] eqn:E;
             [lia | lia | reflexivity].
      * apply move_up_swaps.
Qed.

Lemma spliceOne_middle (pre post : list V) (x : V) :
  Shuffle.spliceOne V undefined (pre ++ x :: post) (List.length pre) = (pre ++ post, x).
Proof.
  unfold Shuffle.spliceOne. f_equal; [| apply nth_middle].
  f_equal.
  - rewrite firstn_app, Nat.sub_diag, firstn_all. simpl. apply app_nil_r.
  - rewrite skipn_app, skipn_all2 by lia.
    replace (S (List.length pre) - List.length pre)%nat with 1%nat by lia.
    reflexivity.
Qed.

Lemma spliceIn_middle (pre post : list V) (x : V) :
  Shuffle.spliceIn V (pre ++ post) (List.length pre) x = pre ++ x :: post.
Proof.
  unfold Shuffle.spliceIn. f_equal.
  - rewrite firstn_app, Nat.sub_diag, firstn_all. simpl. apply app_nil_r.
  - f_equal. rewrite skipn_app, skipn_all, Nat.sub_diag. reflexivity.
Qed.

(** X4: dropping a dragged line never loses, repeats or invents a line. The
    dragged line lands at the destination index, the other lines keep their
    order (taking the dragged line out of the old and of the new arrangement
    leaves the same list), dragging it back restores the arrangement, and a
    drop outside the list changes nothing. *)
Theorem handleDragEnd_moves_one_line
    (source dest : nat) (arrangedLines : list V) :
  (source < List.length arrangedLines)%nat ->
  (dest < List.length arrangedLines)%nat ->
  let dropped := Shuffle.handleDragEnd V undefined source (Some dest) arrangedLines in
  Permutation arrangedLines dropped
  /\ List.length dropped = List.length arrangedLines
  /\ Shuffle.get V undefined dropped dest = Shuffle.get V undefined arrangedLines source
  /\ Shuffle.spliceOne V undefined dropped dest = Shuffle.spliceOne V undefined arrangedLines source
  /\ Shuffle.handleDragEnd V undefined dest (Some source) dropped = arrangedLines
  /\ Shuffle.handleDragEnd V undefined source None arrangedLines = arrangedLines.
Proof.
  intros Hs Hd. cbv zeta.
  destruct (split_at arrangedLines source Hs) as (pre & x & post & Hl & Hlen).
  subst arrangedLines source.
  assert (Hrest : (dest <= List.length (pre ++ post))%nat)
    by (rewrite length_app in *; simpl in Hd; lia).
  pose proof (firstn_skipn dest (pre ++ post)) as Hsplit.
  pose proof (firstn_length_le (pre ++ post) Hrest) as Hlen.
  assert (Hdrop : Shuffle.handleDragEnd V undefined (List.length pre)
                    (Some dest) (pre ++ x :: post)
                  = firstn dest (pre ++ post) ++ x :: skipn dest (pre ++ post)).
  { unfold Shuffle.handleDragEnd. now rewrite spliceOne_middle. }
  rewrite Hdrop. clear Hdrop.
  set (r1 := firstn dest (pre ++ post)) in *.
  set (r2 := skipn dest (pre ++ post)) in *.
  clearbody r1 r2. subst dest.
  split; [| split; [| split; [| split; [| split]]]].
  - apply Permutation_trans with (x :: pre ++ post).
    + apply Permutation_sym, Permutation_middle.
    + rewrite <- Hsplit. apply Permutation_middle.
  - pose proof (f_equal (@List.length V) Hsplit) as Hlens.
    rewrite !length_app in Hlens. rewrite !length_app. simpl. lia.
  - now rewrite !get_middle.
  - now rewrite !spliceOne_middle, Hsplit.
  - unfold Shuffle.handleDragEnd. rewrite spliceOne_middle, Hsplit.
    apply spliceIn_middle.
  - reflexivity.
Qed.

End ShuffleFacts.

(** An instance: the second of three lines moved up. *)
Lemma handleLineMove_swaps_neighbours_witness :
  Permutation [1; 2; 3] (Shuffle.handleLineMove Z 0 1 "up" [1; 2; 3])
  /\ Shuffle.handleLineMove Z 0 1 "up" [1; 2; 3] = [2; 1; 3].
Proof.
  split; [| reflexivity].
  apply (handleLineMove_swaps_neighbours Z 0 1 "up" [1; 2; 3]).
  simpl. lia.
Defined.

(** An instance: the first of four lines dropped on the third place. *)
Lemma handleDragEnd_moves_one_line_witness :
  Permutation [1; 2; 3; 4] (Shuffle.handleDragEnd Z 0 0 (Some 2%nat) [1; 2; 3; 4])
  /\ Shuffle.handleDragEnd Z 0 0 (Some 2%nat) [1; 2; 3; 4] = [2; 3; 1; 4].
Proof.
  split; [| reflexivity].
  apply (handleDragEnd_moves_one_line Z 0 0 2 [1; 2; 3; 4]); simpl; lia.
Defined.

(* ================================================================== *)
(** ** Drafting test cases *)

Lemma dropIndex_length (index : nat) (l : list TestMaster.Draft) :
  List.length (TestMaster.dropIndex index l)
  = if (index <? List.length l)%nat then Nat.pred (List.length l)
    else List.length l.
Proof.
  revert index. induction l as [| x l IH]; intros [| i]; simpl; auto.
  rewrite IH. change (S i <? S (List.length l))%nat
    with (i <? List.length l)%nat.
  destruct (Nat.ltb_spec i (List.length l)); lia.
Qed.

Lemma dropIndex_spec (index : nat) (l : list TestMaster.Draft) :
  TestMaster.dropIndex index l = firstn index l ++ skipn (S index) l.
Proof.
  revert index. induction l as [| x l IH]; intros [| i]; simpl; auto.
  now rewrite IH.
Qed.

Lemma updateTestCase_length (index : nat) (field : TestMaster.Field)
    (value : RunCheck.jsstring) (l : list TestMaster.Draft) :
  List.length (TestMaster.updateTestCase index field value l) = List.length l.
Proof.
  revert index. induction l as [| x l IH]; intros [| i]; simpl; auto.
Qed.

Lemma apply_nonempty (l : list TestMaster.Draft) (e : TestMaster.Edit) :
  (1 <= List.length l)%nat -> (1 <= List.length (TestMaster.apply l e))%nat.
Proof.
  intros Hl. destruct e as [| index | index field value]; simpl.
  - unfold TestMaster.addTestCase. rewrite length_app. simpl. lia.
  - unfold TestMaster.removeTestCase.
    destruct (Nat.ltb_spec 1 (List.length l)); [| exact Hl].
    rewrite dropIndex_length. destruct (index <? List.length l)%nat; lia.
  - now rewrite updateTestCase_length.
Qed.

(** X5: whatever the user adds, removes and edits, in any order, the list
    of drafted test cases never becomes empty: it starts with one blank
    case, and a list with a case keeps at least one. Removing from a list
    of a single case does nothing. *)
Theorem test_case_drafts_never_empty
    (edits : list TestMaster.Edit) (testCases : list TestMaster.Draft) :
  testCases <> [] ->
  fold_left TestMaster.apply edits testCases <> []
  /\ fold_left TestMaster.apply edits TestMaster.initial <> []
  /\ (forall (index : nat) (tc : TestMaster.Draft),
         TestMaster.removeTestCase index [tc] = [tc]).
Proof.
  assert (Hkeep : forall es l, (1 <= List.length l)%nat ->
            (1 <= List.length (fold_left TestMaster.apply es l))%nat).
  { induction es as [| e es IH]; intros l Hl; simpl; [exact Hl |].
    apply IH. now apply apply_nonempty. }
  intros Hne. split; [| split].
  - intros Hnil. pose proof (Hkeep edits testCases) as H.
    rewrite Hnil in H. destruct testCases; [congruence |].
    simpl in H. lia.
  - intros Hnil. pose proof (Hkeep edits TestMaster.initial) as H.
    rewrite Hnil in H. simpl in H. lia.
  - reflexivity.
Qed.

(** An instance: the only case removed, twice. *)
Lemma test_case_drafts_never_empty_witness :
  fold_left TestMaster.apply
    [TestMaster.Remove 0; TestMaster.Add; TestMaster.Remove 0;
     TestMaster.Remove 0]
    [TestMaster.mkDraft [49%N] [50%N]] <> [].
Proof.
  apply (test_case_drafts_never_empty
           [TestMaster.Remove 0; TestMaster.Add; TestMaster.Remove 0;
            TestMaster.Remove 0]
           [TestMaster.mkDraft [49%N] [50%N]]).
  discriminate.
Defined.

Lemma updateTestCase_nth (index k : nat) (field : TestMaster.Field)
    (value : RunCheck.jsstring) (l : list TestMaster.Draft)
    (d : TestMaster.Draft) :
  nth k (TestMaster.updateTestCase index field value l) d
  = if (k =? index)%nat && (k <? List.length l)%nat
    then TestMaster.setField field value (nth k l d)
    else nth k l d.
Proof.
  revert index k. induction l as [| x l IH]; intros [| i] [| k]; simpl; auto.
  now rewrite andb_false_r.
Qed.

(** X6: an edit of the drafts touches the case at the index and no other.
    Removing a case that exists from a list of more than one deletes that
    case, keeps the others in order and shortens the list by one; updating
    a field of a case writes the value into that field, leaves its other
    field and every other case as they were, and keeps the length. *)
Theorem test_case_edit_touches_one_case
    (index : nat) (testCases : list TestMaster.Draft) :
  (index < List.length testCases)%nat ->
  ((1 < List.length testCases)%nat ->
   TestMaster.removeTestCase index testCases
   = firstn index testCases ++ skipn (S index) testCases
   /\ S (List.length (TestMaster.removeTestCase index testCases))
      = List.length testCases)
  /\ (forall (field : TestMaster.Field) (value : RunCheck.jsstring)
             (d : TestMaster.Draft),
         let updated := TestMaster.updateTestCase index field value testCases in
         List.length updated = List.length testCases
         /\ (forall k : nat, k <> index -> nth k updated d = nth k testCases d)
         /\ match field with
            | TestMaster.FieldInput =>
                TestMaster.input (nth index updated d) = value
                /\ TestMaster.expected (nth index updated d)
                   = TestMaster.expected (nth index testCases d)
            | TestMaster.FieldExpected =>
                TestMaster.expected (nth index updated d) = value
                /\ TestMaster.input (nth index updated d)
                   = TestMaster.input (nth index testCases d)
            end).
Proof.
  intros Hi. split.
  - intros Hlen. unfold TestMaster.removeTestCase.
    apply Nat.ltb_lt in Hlen. rewrite Hlen. split; [apply dropIndex_spec |].
    rewrite dropIndex_length. apply Nat.ltb_lt in Hi. rewrite Hi.
    apply Nat.ltb_lt in Hi. lia.
  - intros field value d. cbv zeta.
    split; [apply updateTestCase_length |]. split.
    + intros k Hk. rewrite updateTestCase_nth.
      apply Nat.eqb_neq in Hk. now rewrite Hk.
    + rewrite updateTestCase_nth, Nat.eqb_refl.
      apply Nat.ltb_lt in Hi. rewrite Hi. simpl.
      destruct field; split; reflexivity.
Qed.

(** An instance: the second of three cases. *)
Lemma test_case_edit_touches_one_case_witness :
  TestMaster.removeTestCase 1
    [TestMaster.mkDraft [49%N] []; TestMaster.mkDraft [50%N] [];
     TestMaster.mkDraft [51%N] []]
  = [TestMaster.mkDraft [49%N] []; TestMaster.mkDraft [51%N] []]
  /\ S (List.length
          (TestMaster.removeTestCase 1
             [TestMaster.mkDraft [49%N] []; TestMaster.mkDraft [50%N] [];
              TestMaster.mkDraft [51%N] []])) = 3%nat.
Proof.
  refine (proj1 (test_case_edit_touches_one_case 1
                   [TestMaster.mkDraft [49%N] []; TestMaster.mkDraft [50%N] [];
                    TestMaster.mkDraft [51%N] []] _) _);
    simpl; lia.
Defined.

Lemma nonEmpty_iff (s : RunCheck.jsstring) :
  TestMaster.nonEmpty s = true <-> s <> [].
Proof. destruct s; simpl; split; congruence. Qed.

(** X7: the test cases posted with a submission, and listed by Run, are
    exactly the drafts with an input or an expected output, in the order
    the user wrote them; blank drafts are never sent, so adding a blank
    case does not change what is sent; and Run reports that there are no
    test cases exactly when every draft is blank, otherwise it lists the
    cases that would be sent with their count. *)
Theorem blank_drafts_not_submitted (testCases : list TestMaster.Draft) :
  (forall tc : TestMaster.Draft,
      In tc (TestMaster.validTestCases testCases)
      <-> In tc testCases
          /\ (TestMaster.input tc <> [] \/ TestMaster.expected tc <> []))
  /\ (forall more : list TestMaster.Draft,
         TestMaster.validTestCases (testCases ++ more)
         = TestMaster.validTestCases testCases
           ++ TestMaster.validTestCases more)
  /\ TestMaster.validTestCases (TestMaster.addTestCase testCases)
     = TestMaster.validTestCases testCases
  /\ (TestMaster.reviewTestCases testCases = TestMaster.NoTestCases
      <-> forall tc : TestMaster.Draft,
            In tc testCases ->
            TestMaster.input tc = [] /\ TestMaster.expected tc = [])
  /\ (forall (count : nat) (cases : list TestMaster.Draft),
         TestMaster.reviewTestCases testCases = TestMaster.Listing count cases ->
         cases = TestMaster.validTestCases testCases
         /\ count = List.length cases
         /\ (1 <= count <= List.length testCases)%nat).
Proof.
  assert (Hin : forall tc, In tc (TestMaster.validTestCases testCases)
            <-> In tc testCases
                /\ (TestMaster.input tc <> [] \/ TestMaster.expected tc <> [])).
  { intros tc. unfold TestMaster.validTestCases.
    rewrite filter_In, orb_true_iff, !nonEmpty_iff. reflexivity. }
  split; [exact Hin |]. split; [| split; [| split]].
  - intros more. apply filter_app.
  - unfold TestMaster.addTestCase, TestMaster.validTestCases.
    rewrite filter_app. simpl. apply app_nil_r.
  - unfold TestMaster.reviewTestCases.
    destruct (TestMaster.validTestCases testCases) as [| v vs] eqn:E.
    + split; [| reflexivity]. intros _ tc Htc.
      destruct (TestMaster.input tc) eqn:Ei, (TestMaster.expected tc) eqn:Ee;
        auto; exfalso;
        assert (Hv : In tc []) by (apply Hin; split; [exact Htc |];
                                   rewrite Ei, Ee; intuition congruence);
        destruct Hv.
    + split; [discriminate |]. intros Hblank. exfalso.
      assert (Hv : In v (v :: vs)) by (left; reflexivity).
      apply Hin in Hv. destruct Hv as [Hv [Hne | Hne]];
        destruct (Hblank v Hv); contradiction.
  - intros count cases. unfold TestMaster.reviewTestCases.
    destruct (TestMaster.validTestCases testCases) as [| v vs] eqn:E;
      [discriminate |].
    intros H. injection H as Hc Hcs. subst count cases.
    split; [reflexivity |]. split; [reflexivity |].
    pose proof (filter_length_le
                  (fun tc => TestMaster.nonEmpty (TestMaster.input tc)
                             || TestMaster.nonEmpty (TestMaster.expected tc))
                  testCases) as Hle.
    unfold TestMaster.validTestCases in E. rewrite E in Hle.
    simpl in *. lia.
Qed.

(* ================================================================== *)
(** ** The code put into the editor *)

Section EditorFacts.
Import RunCheck Editor.
Local Open Scope N_scope.

Lemma split_nonempty (s : jsstring) : split s <> [].
Proof.
  induction s as [| c s IH]; simpl; [discriminate |].
  destruct (c =? newline); [discriminate |].
  destruct (split s); [contradiction | discriminate].
Qed.

Lemma join_cons (line : jsstring) (lines : list jsstring) :
  lines <> [] -> join (line :: lines) = line ++ newline :: join lines.
Proof. destruct lines; [contradiction | reflexivity]. Qed.

Lemma join_split (s : jsstring) : join (split s) = s.
Proof.
  induction s as [| c s IH]; [reflexivity |]. simpl.
  pose proof (split_nonempty s) as Hne.
  destruct (N.eqb_spec c newline) as [-> | Hc].
  - rewrite join_cons by exact Hne. simpl. now rewrite IH.
  - destruct (split s) as [| line lines]; [contradiction |].
    destruct lines as [| l2 lines]; simpl in *; congruence.
Qed.

Lemma split_line (line : jsstring) :
  ~ In newline line -> split line = [line].
Proof.
  induction line as [| c line IH]; intros Hnl; [reflexivity |]. simpl.
  destruct (N.eqb_spec c newline) as [-> | Hc]; [exfalso; apply Hnl; now left |].
  rewrite IH; [reflexivity |]. intros H. apply Hnl. now right.
Qed.

Lemma split_app_newline (line rest : jsstring) :
  ~ In newline line -> split (line ++ newline :: rest) = line :: split rest.
Proof.
  induction line as [| c line IH]; intros Hnl; simpl.
  - reflexivity.
  - destruct (N.eqb_spec c newline) as [-> | Hc];
      [exfalso; apply Hnl; now left |].
    rewrite IH; [reflexivity |]. intros H. apply Hnl. now right.
Qed.

Lemma split_join (lines : list jsstring) :
  lines <> [] -> Forall (fun line => ~ In newline line) lines ->
  split (join lines) = lines.
Proof.
  induction lines as [| line lines IH]; intros Hne Hall; [contradiction |].
  inversion Hall as [| ? ? Hline Hrest]; subst.
  destruct lines as [| l2 lines].
  - simpl. now apply split_line.
  - rewrite join_cons by discriminate.
    rewrite split_app_newline by exact Hline.
    f_equal. apply IH; [discriminate | exact Hrest].
Qed.

Lemma split_no_newline (s : jsstring) :
  Forall (fun line => ~ In newline line) (split s).
Proof.
  induction s as [| c s IH]; simpl.
  - constructor; [intros [] | constructor].
  - destruct (N.eqb_spec c newline) as [-> | Hc].
    + constructor; [intros [] | exact IH].
    + destruct (split s) as [| line lines].
      * constructor; [| constructor]. intros [H | []]. congruence.
      * inversion IH as [| ? ? Hline Hrest]; subst.
        constructor; [| exact Hrest]. intros [H | H]; [congruence | auto].
Qed.

(** A line is changed only when it is one space followed by a code unit
    that is not whitespace, and then the space is dropped. *)
Lemma normalizeLine_cases (line : jsstring) :
  (normalizeLine line = line
   /\ forall c rest, line = space :: c :: rest -> is_white_space c = true)
  \/ exists c rest,
       line = space :: c :: rest /\ is_white_space c = false
       /\ normalizeLine line = c :: rest.
Proof.
  unfold normalizeLine.
  destruct line as [| a [| c rest]].
  - left. split; [reflexivity | discriminate].
  - left. split; [| discriminate].
    unfold indentedInk. cbn [spacesThenInk]. now rewrite andb_false_r.
  - destruct (N.eqb_spec a space) as [-> | Ha].
    + destruct (is_white_space c) eqn:Ews.
      * left. split; [| intros ? ? [= <- _]; exact Ews].
        destruct (N.eqb_spec c space) as [-> | Hc].
        -- assert (H2 : startsWithSpaces 2 (space :: space :: rest) = true)
             by reflexivity.
           rewrite H2. now rewrite andb_false_r.
        -- apply N.eqb_neq in Hc.
           unfold indentedInk. cbn [spacesThenInk]. rewrite Hc, Ews.
           now rewrite andb_false_r.
      * right. exists c, rest. split; [reflexivity |]. split; [exact Ews |].
        assert (Hc : (c =? space) = false).
        { apply N.eqb_neq. intros ->. discriminate. }
        assert (H2 : startsWithSpaces 2 (space :: c :: rest) = false).
        { unfold startsWithSpaces. cbn [firstn repeat str_eqb].
          rewrite Hc. now rewrite andb_false_r. }
        assert (H4 : startsWithSpaces 4 (space :: c :: rest) = false).
        { unfold startsWithSpaces. cbn [firstn repeat str_eqb].
          rewrite Hc. now rewrite andb_false_r. }
        assert (Hi : indentedInk (space :: c :: rest) = true).
        { unfold indentedInk. cbn [spacesThenInk]. rewrite Hc, Ews.
          reflexivity. }
        assert (Ht : trimStart (space :: c :: rest) = c :: rest).
        { cbn [trimStart]. change (is_white_space space) with true.
          now rewrite Ews. }
        rewrite Hi, H2, H4, Ht. cbn [andb negb]. cbv zeta.
        replace (List.length (space :: c :: rest) - List.length (c :: rest))%nat
          with 1%nat by (cbn [List.length]; lia).
        reflexivity.
    + left. split; [| intros ? ? [= -> _]; contradiction].
      unfold indentedInk. apply N.eqb_neq in Ha. now rewrite Ha.
Qed.

Lemma normalizeLine_clean (c : code_unit) (rest : jsstring) :
  is_white_space c = false -> normalizeLine (c :: rest) = c :: rest.
Proof.
  intros Ews.
  destruct (normalizeLine_cases (c :: rest))
    as [[H _] | (c' & rest' & [= -> ->] & Hc' & _)]; [exact H |].
  discriminate.
Qed.

Lemma normalizeLine_idem (line : jsstring) :
  normalizeLine (normalizeLine line) = normalizeLine line.
Proof.
  destruct (normalizeLine_cases line)
    as [[H _] | (c & rest & -> & Hc & ->)]; [now rewrite H |].
  now apply normalizeLine_clean.
Qed.

Lemma normalizeLine_no_newline (line : jsstring) :
  ~ In newline line -> ~ In newline (normalizeLine line).
Proof.
  destruct (normalizeLine_cases line)
    as [[H _] | (c & rest & -> & Hc & ->)]; [now rewrite H |].
  intros Hnl H. apply Hnl. now right.
Qed.

(** X8: the indentation repair of [sanitizeCode] changes a line in one case
    only: a line that starts with exactly one space followed by a code unit
    that is not whitespace loses that space.  Every other line, among them
    every line indented by two spaces or more (three, five, ...), is kept
    as it is; and repairing a repaired line changes nothing. *)
Theorem normalizeLine_drops_one_leading_space (line : jsstring) :
  (normalizeLine line <> line
   <-> exists c rest,
         line = space :: c :: rest /\ is_white_space c = false)
  /\ (forall c rest,
         line = space :: c :: rest -> is_white_space c = false ->
         normalizeLine line = c :: rest)
  /\ (forall rest, line = space :: space :: rest -> normalizeLine line = line)
  /\ (List.length (normalizeLine line) <= List.length line)%nat
  /\ trimStart (normalizeLine line) = trimStart line
  /\ normalizeLine (normalizeLine line) = normalizeLine line.
Proof.
  split; [| split; [| split; [| split; [| split]]]].
  - destruct (normalizeLine_cases line)
      as [[H Hws] | (c & rest & -> & Hc & Hn)].
    + split; [intros Hne; contradiction |].
      intros (c & rest & Hl & Hc). rewrite (Hws c rest Hl) in Hc. discriminate.
    + split; [intros _; now exists c, rest |].
      intros _. rewrite Hn. intros H.
      apply (f_equal (@List.length code_unit)) in H. simpl in H. lia.
  - intros c rest -> Hc.
    destruct (normalizeLine_cases (space :: c :: rest))
      as [[_ Hws] | (c' & rest' & [= <- <-] & _ & Hn)]; [| exact Hn].
    rewrite (Hws c rest eq_refl) in Hc. discriminate.
  - intros rest ->.
    destruct (normalizeLine_cases (space :: space :: rest))
      as [[H _] | (c' & rest' & [= <- <-] & Hc & _)]; [exact H |].
    discriminate.
  - destruct (normalizeLine_cases line)
      as [[H _] | (c & rest & -> & Hc & ->)]; [rewrite H |]; simpl; lia.
  - destruct (normalizeLine_cases line)
      as [[H _] | (c & rest & -> & Hc & ->)]; [now rewrite H |].
    reflexivity.
  - apply normalizeLine_idem.
Qed.

Lemma unescape_step (a d : code_unit) (s : jsstring) :
  unescape (a :: d :: s)
  = if (a =? backslash) && (d =? letter_n) then newline :: unescape s
    else a :: unescape (d :: s).
Proof. reflexivity. Qed.

Lemma escaped_step (a d : code_unit) (s : jsstring) :
  escaped (a :: d :: s)
  = ((a =? backslash) && (d =? letter_n)) || escaped (d :: s).
Proof. reflexivity. Qed.

Lemma escaped_cons (c : code_unit) (s : jsstring) :
  escaped (c :: s) = false -> escaped s = false.
Proof.
  destruct s as [| d s]; [reflexivity |]. rewrite escaped_step.
  intros H. now apply orb_false_iff in H.
Qed.

Lemma unescape_head (s : jsstring) (c : code_unit) (rest : jsstring) :
  unescape s = c :: rest -> c = newline \/ exists t, s = c :: t.
Proof.
  destruct s as [| a [| d s]]; [discriminate | |].
  - intros [= <- <-]. right. now exists [].
  - rewrite unescape_step.
    destruct ((a =? backslash) && (d =? letter_n)); intros [= <- _];
      [now left | right; now eexists].
Qed.

Lemma escaped_unescape_bounded (n : nat) (s : jsstring) :
  (List.length s <= n)%nat -> escaped (unescape s) = false.
Proof.
  revert s. induction n as [| n IH]; intros s Hlen.
  - destruct s; [reflexivity | simpl in Hlen; lia].
  - destruct s as [| a [| d s]]; [reflexivity | reflexivity |].
    rewrite unescape_step.
    destruct ((a =? backslash) && (d =? letter_n)) eqn:Epair.
    + assert (Hrest : escaped (unescape s) = false)
        by (apply IH; simpl in Hlen; lia).
      destruct (unescape s) as [| x xs] eqn:Eu; [reflexivity |].
      rewrite escaped_step, Hrest. reflexivity.
    + assert (Hrest : escaped (unescape (d :: s)) = false)
        by (apply IH; simpl in Hlen |- *; lia).
      destruct (unescape (d :: s)) as [| x xs] eqn:Eu; [reflexivity |].
      rewrite escaped_step, Hrest, orb_false_r.
      destruct (unescape_head _ _ _ Eu) as [-> | (t & [= -> _])].
      * now rewrite andb_false_r.
      * exact Epair.
Qed.

Lemma escaped_unescape (s : jsstring) : escaped (unescape s) = false.
Proof. now apply (escaped_unescape_bounded (List.length s)). Qed.

Lemma unescape_id (s : jsstring) : escaped s = false -> unescape s = s.
Proof.
  induction s as [| c s IH]; [reflexivity |].
  destruct s as [| d s]; [reflexivity |].
  rewrite escaped_step, unescape_step. intros H. apply orb_false_iff in H.
  destruct H as [Hpair Hrest]. rewrite Hpair. f_equal. now apply IH.
Qed.

Lemma escaped_app_newline (line rest : jsstring) :
  escaped (line ++ newline :: rest) = escaped line || escaped rest.
Proof.
  induction line as [| c line IH].
  - simpl. destruct rest; reflexivity.
  - destruct line as [| d line].
    + change ([c] ++ newline :: rest) with (c :: newline :: rest).
      rewrite escaped_step. change (escaped [c]) with false.
      change (c =? backslash) with (c =? 92).
      change (newline =? letter_n) with false.
      rewrite andb_false_r. simpl. destruct rest; reflexivity.
    + change ((c :: d :: line) ++ newline :: rest)
        with (c :: d :: (line ++ newline :: rest)).
      rewrite !escaped_step.
      change (d :: line ++ newline :: rest)
        with ((d :: line) ++ newline :: rest).
      rewrite IH. now rewrite orb_assoc.
Qed.

Lemma escaped_join (lines : list jsstring) :
  escaped (join lines) = existsb escaped lines.
Proof.
  induction lines as [| line lines IH]; [reflexivity |].
  destruct lines as [| l2 lines].
  - simpl. now rewrite orb_false_r.
  - rewrite join_cons by discriminate.
    rewrite escaped_app_newline, IH. reflexivity.
Qed.

Lemma escaped_normalizeLine (line : jsstring) :
  escaped line = false -> escaped (normalizeLine line) = false.
Proof.
  destruct (normalizeLine_cases line)
    as [[H _] | (c & rest & -> & Hc & ->)]; [now rewrite H |].
  apply escaped_cons.
Qed.

Lemma escaped_lines (lines : list jsstring) :
  existsb escaped lines = false ->
  existsb escaped (map normalizeLine lines) = false.
Proof.
  induction lines as [| line lines IH]; [reflexivity |]. simpl.
  intros H. apply orb_false_iff in H. destruct H as [Hl Hr].
  now rewrite escaped_normalizeLine, IH.
Qed.

Lemma sanitize_lines (s : jsstring) :
  split (join (map normalizeLine (split s))) = map normalizeLine (split s).
Proof.
  apply split_join.
  - pose proof (split_nonempty s). destruct (split s); [contradiction |].
    discriminate.
  - pose proof (split_no_newline s) as H. induction H; constructor; auto.
    now apply normalizeLine_no_newline.
Qed.

Lemma sanitizeCode_body (s : jsstring) :
  sanitizeCode (Some s) = join (map normalizeLine (split (unescape s))).
Proof. destruct s; reflexivity. Qed.

(** X9: the code that [sanitizeCode] puts into the editor holds no escaped
    line feed (a backslash followed by the letter n) any more; it has the
    lines of the unescaped text, each repaired on its own, so no line is
    added, lost or merged; sanitising it again changes nothing; code with
    no escaped line feed and no line to repair comes out as it went in;
    and a missing or empty text gives the empty string. *)
Theorem sanitizeCode_settles (s : jsstring) :
  let out := sanitizeCode (Some s) in
  escaped out = false
  /\ split out = map normalizeLine (split (unescape s))
  /\ sanitizeCode (Some out) = out
  /\ (escaped s = false ->
      Forall (fun line => normalizeLine line = line) (split s) ->
      out = s)
  /\ sanitizeCode None = []
  /\ sanitizeCode (Some []) = [].
Proof.
  cbv zeta. rewrite !sanitizeCode_body.
  assert (Hesc : escaped (join (map normalizeLine (split (unescape s))))
                 = false).
  { rewrite escaped_join. apply escaped_lines.
    rewrite <- escaped_join, join_split. apply escaped_unescape. }
  split; [exact Hesc |]. split; [apply sanitize_lines |].
  split; [| split; [| split; reflexivity]].
  - rewrite (unescape_id _ Hesc), sanitize_lines, map_map. f_equal.
    apply map_ext. intros line. apply normalizeLine_idem.
  - intros Hs Hlines. rewrite (unescape_id _ Hs).
    rewrite <- (join_split s) at 2. f_equal.
    induction Hlines as [| line lines Hline _ IH]; [reflexivity |].
    simpl. now rewrite Hline, IH.
Qed.

Lemma trim_empty_iff (s : jsstring) : trim s = [] <-> all_white_space s.
Proof.
  split.
  - intros H. destruct (trim_split s) as (w1 & w2 & Hs & Hw1 & Hw2).
    rewrite H in Hs. rewrite Hs. simpl. apply Forall_app. now split.
  - intros Hw. unfold trim. rewrite (trimStart_all_ws s Hw). reflexivity.
Qed.

Lemma all_white_space_join (lines : list jsstring) :
  all_white_space (join lines) <-> Forall all_white_space lines.
Proof.
  induction lines as [| line lines IH].
  - split; constructor.
  - destruct lines as [| l2 lines].
    + simpl. split; [intros H; now constructor | now inversion 1].
    + rewrite join_cons by discriminate. unfold all_white_space at 1.
      rewrite Forall_app, Forall_cons_iff. fold (all_white_space line).
      fold (all_white_space (join (l2 :: lines))). rewrite IH.
      split.
      * intros (Hl & _ & Hr). now constructor.
      * intros H. inversion H; subst. repeat split; auto.
Qed.

(** X10: Run refuses an arrangement of lines, with the warning to arrange
    the lines first, exactly when every line of it is blank (whitespace
    only, or the arrangement is empty); the same guard on typed code stops
    exactly the code that is whitespace only.  One line with any other code
    unit is enough for the run to start. *)
Theorem run_refuses_only_blank_code
    (arrangedLines : list jsstring) (code : jsstring) :
  (nothingArranged arrangedLines = true
   <-> Forall all_white_space arrangedLines)
  /\ (nothingWritten code = true <-> all_white_space code)
  /\ (forall line c,
         In line arrangedLines -> In c line -> is_white_space c = false ->
         nothingArranged arrangedLines = false).
Proof.
  assert (Harr : nothingArranged arrangedLines = true
                 <-> Forall all_white_space arrangedLines).
  { rewrite <- all_white_space_join, <- trim_empty_iff.
    unfold nothingArranged. destruct (trim (join arrangedLines));
      split; congruence. }
  split; [exact Harr |]. split.
  - rewrite <- trim_empty_iff. unfold nothingWritten.
    destruct (trim code); split; congruence.
  - intros line c Hline Hc Hws.
    destruct (nothingArranged arrangedLines); [| reflexivity].
    pose proof (proj1 Harr eq_refl) as E. rewrite Forall_forall in E.
    specialize (E line Hline). unfold all_white_space in E.
    rewrite Forall_forall in E. rewrite (E c Hc) in Hws. discriminate.
Qed.

End EditorFacts.

(* ================================================================== *)
(** ** The leaderboard dialog *)

Section SortFixed.
Context {A : Type}.
Variable cmp : A -> A -> comparison.

(** A list that the comparator already finds in order is left alone. *)
Lemma sort_fixed (l : list A) :
  StronglySorted (fun a b => cmp a b <> Gt) l -> Js.sort cmp l = l.
Proof.
  induction 1 as [| x l Hsorted IH Hx]; simpl; [reflexivity |].
  rewrite IH. destruct l as [| y l']; [reflexivity |]. simpl.
  inversion Hx as [| ? ? Hxy _]; subst.
  destruct (cmp x y); congruence.
Qed.
End SortFixed.

Lemma StronglySorted_map {A B : Type} (R : A -> A -> Prop)
    (R' : B -> B -> Prop) (f : A -> B) (l : list A) :
  (forall a b, R a b -> R' (f a) (f b)) ->
  StronglySorted R l -> StronglySorted R' (map f l).
Proof.
  intros Hf. induction 1 as [| x l Hsorted IH Hx]; simpl; constructor; auto.
  rewrite Forall_forall in *. intros b Hb.
  apply in_map_iff in Hb. destruct Hb as (a & <- & Ha). auto.
Qed.

Section BoardFacts.
Import Ranking Leaderboard.
Local Open Scope Q_scope.

Lemma ranked_before_not_after (a b : nat * Player) :
  ranked_before a b -> rank_cmp (snd a) (snd b) <> Gt.
Proof.
  destruct a as [i p], b as [j q]. simpl. intros Hb Hgt.
  pose proof (rank_cmp_cases i j p q) as H. rewrite Hgt in H.
  unfold ranked_before in Hb.
  destruct (timeKey p) as [x |], (timeKey q) as [y |]; simpl in *;
    intuition lra.
Qed.

Lemma sortedPlayers_in_order (ps : list Player) :
  StronglySorted (fun a b => rank_cmp a b <> Gt) (sortedPlayers ps).
Proof.
  rewrite <- sortedPlayers_tagged.
  apply (StronglySorted_map ranked_before); [apply ranked_before_not_after |].
  apply sort_sorted.
  - apply ranked_lt.
  - apply ranked_eq.
  - apply ranked_gt.
  - apply ranked_chain.
  - apply combine_seq_older.
Qed.

Lemma findIndex_spec (currentUserId : string) (l : list Player) :
  match findIndex currentUserId l with
  | Some i =>
      (i < List.length l)%nat
      /\ exists p, nth_error l i = Some p /\ user_id p = currentUserId
         /\ forall j q, (j < i)%nat -> nth_error l j = Some q ->
                        user_id q <> currentUserId
  | None => forall p, In p l -> user_id p <> currentUserId
  end.
Proof.
  induction l as [| x l IH]; simpl.
  - intros p [].
  - destruct (String.eqb_spec (user_id x) currentUserId) as [Hx | Hx].
    + split; [lia |]. exists x. repeat split; auto. intros j q Hj. lia.
    + destruct (findIndex currentUserId l) as [i |]; simpl.
      * destruct IH as (Hi & p & Hp & Hid & Hfirst).
        split; [lia |]. exists p. repeat split; auto.
        intros [| j] q Hj Hq; simpl in Hq.
        -- congruence.
        -- apply (Hfirst j q); [lia | exact Hq].
      * intros p [<- | Hp]; auto.
Qed.

Lemma multiplayerResults_some
    (ps : list Player) (currentUserId : string) (r : FinalResults) :
  multiplayerResults "completed" (Some ps) currentUserId = Some r ->
  (2 <= List.length ps)%nat
  /\ r = mkFinal (rankOf currentUserId (sortedPlayers ps))
                 (map username (firstn 3 (sortedPlayers ps)))
                 (sortedPlayers ps).
Proof.
  unfold multiplayerResults. rewrite String.eqb_refl.
  destruct (Nat.leb_spec 2 (List.length ps)); [| discriminate].
  intros [= <-]. split; [assumption | reflexivity].
Qed.

(** X11: on the leaderboard of a completed multiplayer match, "Your Rank"
    is the number of the first row that carries the user's id, a number
    between 1 and the number of players; it is 0 exactly when no player of
    the match carries that id.  The rows are the players of the server's
    array, each once, and the winners are the usernames of the first three
    rows (of both rows in a match of two). *)
Theorem your_rank_is_your_row
    (ps : list Player) (currentUserId : string) (r : FinalResults) :
  multiplayerResults "completed" (Some ps) currentUserId = Some r ->
  (rank r = O <-> forall p, In p ps -> user_id p <> currentUserId)
  /\ (forall i : nat,
         rank r = rowRank i ->
         exists p,
           nth_error (players r) i = Some p
           /\ isCurrentUser p currentUserId = true
           /\ forall j q, (j < i)%nat -> nth_error (players r) j = Some q ->
                          isCurrentUser q currentUserId = false)
  /\ (rank r <= List.length ps)%nat
  /\ Permutation ps (players r)
  /\ winners r = map username (firstn 3 (players r))
  /\ List.length (winners r) = Nat.min 3 (List.length ps).
Proof.
  intros Hr. apply multiplayerResults_some in Hr. destruct Hr as [_ ->].
  cbn [rank winners players].
  pose proof (findIndex_spec currentUserId (sortedPlayers ps)) as Hspec.
  pose proof (sort_perm rank_cmp ps) as Hperm. fold (sortedPlayers ps) in Hperm.
  unfold rankOf, rowRank, isCurrentUser.
  destruct (findIndex currentUserId (sortedPlayers ps)) as [i |].
  - destruct Hspec as (Hi & p & Hp & Hid & Hfirst).
    split; [| split; [| split; [| split; [| split]]]].
    + split; [discriminate |]. intros Habs. exfalso.
      apply (Habs p); [| exact Hid].
      apply (Permutation_in p (Permutation_sym Hperm)).
      eapply nth_error_In, Hp.
    + intros i' [= <-]. exists p. split; [exact Hp |].
      split; [now apply String.eqb_eq |].
      intros j q Hj Hq. apply String.eqb_neq. now apply (Hfirst j q).
    + rewrite <- (Permutation_length Hperm) in Hi. lia.
    + exact Hperm.
    + reflexivity.
    + rewrite length_map, length_firstn, (Permutation_length Hperm).
      reflexivity.
  - split; [| split; [| split; [| split; [| split]]]].
    + split; [| reflexivity]. intros _ p Hp. apply Hspec.
      now apply (Permutation_in p Hperm).
    + discriminate.
    + lia.
    + exact Hperm.
    + reflexivity.
    + rewrite length_map, length_firstn, (Permutation_length Hperm).
      reflexivity.
Qed.

(** X12: ranking a leaderboard again changes nothing: the sorted players
    are a fixed point of the sort, so a match whose players the server
    already sends in leaderboard order is shown in the server's order. *)
Theorem sortedPlayers_idempotent (ps : list Player) :
  sortedPlayers (sortedPlayers ps) = sortedPlayers ps
  /\ (StronglySorted (fun a b => rank_cmp a b <> Gt) ps ->
      sortedPlayers ps = ps)
  /\ StronglySorted (fun a b => rank_cmp a b <> Gt) (sortedPlayers ps).
Proof.
  split; [| split].
  - apply sort_fixed, sortedPlayers_in_order.
  - apply sort_fixed.
  - apply sortedPlayers_in_order.
Qed.

Lemma findPlayer_findIndex (currentUserId : string) (l : list Player) :
  findPlayer currentUserId l
  = match findIndex currentUserId l with
    | Some i => nth_error l i
    | None => None
    end.
Proof.
  unfold findPlayer.
  induction l as [| x l IH]; simpl; [reflexivity |].
  destruct (String.eqb (user_id x) currentUserId); [reflexivity |].
  rewrite IH. now destruct (findIndex currentUserId l).
Qed.

(** X13: the status poll, the other path to the leaderboard, shows the
    players in the server's order without ranking them, and "Your Rank" is
    the user's position in that order, 1 when the user is not among the
    players, so never 0.  It shows what the ranked leaderboard shows when
    the server's order is the leaderboard order and the user is among the
    players.  A completed match without at least two players in [players]
    is marked completed with no results set.  On the dialog, a row whose
    player has no score, or a score of 0, shows the viewing user's own
    score when that is not 0. *)
Theorem status_poll_shows_server_order
    (ps : list Player) (currentUserId : string) :
  (2 <= List.length ps)%nat ->
  exists s : StatusResults,
    pollMatchStatus "completed" false (Some ps) currentUserId = (Some s, true)
    /\ shownPlayers s = ps
    /\ (1 <= shownRank s <= List.length ps)%nat
    /\ ((forall p, In p ps -> user_id p <> currentUserId) -> shownRank s = 1%nat)
    /\ (forall i p,
           findIndex currentUserId ps = Some i -> nth_error ps i = Some p ->
           shownRank s = rowRank i
           /\ shownScore s = num_or (score p) (Num 0))
    /\ (sortedPlayers ps = ps ->
        (exists p, In p ps /\ user_id p = currentUserId) ->
        forall r, multiplayerResults "completed" (Some ps) currentUserId = Some r ->
                  rank r = shownRank s /\ players r = shownPlayers s)
    /\ (forall p, truthy (num_or (score p) (Num 0)) = false ->
                  truthy (shownScore s) = true ->
                  rowScore p (shownScore s) = shownScore s)
    /\ (forall few, (List.length few < 2)%nat ->
           pollMatchStatus "completed" false (Some few) currentUserId
           = (None, true))
    /\ pollMatchStatus "completed" false None currentUserId = (None, true).
Proof.
  intros Hlen.
  assert (Hfew : forall few, (List.length few < 2)%nat ->
            pollMatchStatus "completed" false (Some few) currentUserId
            = (None, true)).
  { intros [| a [| b few]] H; [reflexivity | reflexivity | simpl in H; lia]. }
  assert (Hsome : pollMatchStatus "completed" false (Some ps) currentUserId
            = (Some (mkStatus
                       (if (0 <? rankOf currentUserId ps)%nat
                        then rankOf currentUserId ps else 1%nat)
                       (match findPlayer currentUserId ps with
                        | Some p => num_or (score p) (Num 0)
                        | None => Num 0
                        end)
                       ps), true)).
  { unfold pollMatchStatus. rewrite String.eqb_refl.
    apply Nat.leb_le in Hlen. now rewrite Hlen. }
  eexists. split; [exact Hsome |]. clear Hsome. cbn [shownRank shownScore shownPlayers].
  pose proof (findIndex_spec currentUserId ps) as Hspec.
  rewrite findPlayer_findIndex. unfold rankOf, rowRank.
  destruct (findIndex currentUserId ps) as [i |].
  - destruct Hspec as (Hi & p & Hp & Hid & Hfirst). simpl. rewrite Hp.
    split; [reflexivity |]. split; [lia |]. split.
    { intros Habs. exfalso. apply (Habs p); [| exact Hid].
      eapply nth_error_In, Hp. }
    split.
    { intros i' p' [= <-] Hp'. rewrite Hp in Hp'. injection Hp' as <-.
      split; reflexivity. }
    split.
    { intros Hsorted _ r Hr. apply multiplayerResults_some in Hr.
      destruct Hr as [_ ->]. cbn [rank winners players].
      rewrite Hsorted. split; [| reflexivity].
      pose proof (findIndex_spec currentUserId ps) as Hspec2.
      unfold rankOf. destruct (findIndex currentUserId ps) as [i2 |] eqn:E2.
      - destruct Hspec2 as (Hi2 & p2 & Hp2 & Hid2 & Hfirst2).
        destruct (Nat.lt_trichotomy i i2) as [Hlt | [-> | Hgt]]; auto.
        + exfalso. apply (Hfirst2 i p Hlt Hp). exact Hid.
        + exfalso. apply (Hfirst i2 p2 Hgt Hp2). exact Hid2.
      - exfalso. apply (Hspec2 p); [eapply nth_error_In, Hp | exact Hid]. }
    split.
    { intros q Hq Hs. unfold rowScore. rewrite Hs.
      unfold num_or in Hq |- *. destruct (score q) as [x |]; auto.
      destruct (truthy (Num x)) eqn:E; [congruence | reflexivity]. }
    split; [exact Hfew | reflexivity].
  - simpl. split; [reflexivity |]. split; [lia |].
    split; [reflexivity |]. split; [discriminate |].
    split.
    { intros _ (p & Hp & Hid). exfalso. now apply (Hspec p). }
    split; [intros q _ Hs; vm_compute in Hs; discriminate Hs |].
    split; [exact Hfew | reflexivity].
Qed.

End BoardFacts.

(** An instance: the second of two players looks at the leaderboard. *)
Lemma your_rank_is_your_row_witness :
  let ps := [Ranking.mkPlayer "u1" "ada" (Some (100 # 1)) (Some (120 # 1));
             Ranking.mkPlayer "u2" "bob" (Some (145 # 1)) (Some (60 # 1))] in
  Permutation ps (Ranking.sortedPlayers ps).
Proof.
  intros ps.
  apply (your_rank_is_your_row ps "u1"
           (Ranking.mkFinal 2 ["bob"; "ada"]%string (Ranking.sortedPlayers ps))).
  reflexivity.
Defined.

(** An instance: the same two players, seen by the status poll. *)
Lemma status_poll_shows_server_order_witness :
  exists s : Leaderboard.StatusResults,
    Leaderboard.pollMatchStatus "completed" false
      (Some [Ranking.mkPlayer "u1" "ada" (Some (100 # 1)) (Some (120 # 1));
             Ranking.mkPlayer "u2" "bob" (Some (145 # 1)) (Some (60 # 1))])
      "u2" = (Some s, true)
    /\ Leaderboard.shownRank s = 2%nat.
Proof.
  destruct (status_poll_shows_server_order
              [Ranking.mkPlayer "u1" "ada" (Some (100 # 1)) (Some (120 # 1));
               Ranking.mkPlayer "u2" "bob" (Some (145 # 1)) (Some (60 # 1))]
              "u2") as (s & Hs & _ & _ & _ & Hrank & _).
  - simpl. lia.
  - exists s. split; [exact Hs |].
    apply (Hrank 1%nat
             (Ranking.mkPlayer "u2" "bob" (Some (145 # 1)) (Some (60 # 1))));
      reflexivity.
Defined.

(* ================================================================== *)
(** ** The problem that is loaded *)

Section ChoiceFacts.
Import ProblemChoice.

Lemma problemIdToFetch_multi (data : MatchData) (currentUserId : string)
    (p : PlayerEntry) (ids : list string) :
  currentPlayer data currentUserId = Some p ->
  problem_ids data = Some ids -> ids <> [] ->
  problemIdToFetch data currentUserId
  = at_index ids
      (if Z.of_nat (List.length ids) <=? Js.js_or (current_problem_index p) 0
       then Z.of_nat (List.length ids) - 1
       else Js.js_or (current_problem_index p) 0).
Proof.
  intros Hp Hids Hne. unfold problemIdToFetch. rewrite Hp, Hids.
  destruct ids; [contradiction | reflexivity].
Qed.

(** X14: when the page is loaded or reloaded during a match with several
    problems, the problem fetched for a player whose progress index is not
    negative is always one of the match's problems: the one at the index,
    or the last one when the index is past the end (a player who has
    finished them all).  Without a current player or without a list of
    problems it is the match's single [problem_id]; and with no id at all
    the page reports that no problem was found instead of fetching. *)
Theorem resumed_problem_is_in_match
    (data : MatchData) (currentUserId : string)
    (p : PlayerEntry) (ids : list string) :
  currentPlayer data currentUserId = Some p ->
  problem_ids data = Some ids -> ids <> [] ->
  0 <= Js.js_or (current_problem_index p) 0 ->
  let index := Z.to_nat (Js.js_or (current_problem_index p) 0) in
  (exists id : string,
      problemIdToFetch data currentUserId = Some id
      /\ In id ids
      /\ nth_error ids (Nat.min index (List.length ids - 1)) = Some id
      /\ (id <> ""%string -> load data currentUserId = FetchProblem id))
  /\ (forall other : MatchData,
         currentPlayer other currentUserId = None
         \/ problem_ids other = None \/ problem_ids other = Some [] ->
         problemIdToFetch other currentUserId = problem_id other)
  /\ (forall other : MatchData,
         problemIdToFetch other currentUserId = None ->
         load other currentUserId = NoProblemId).
Proof.
  intros Hp Hids Hne Hidx. cbv zeta. split; [| split].
  - rewrite (problemIdToFetch_multi data currentUserId p ids Hp Hids Hne).
    assert (Hlen : (0 < List.length ids)%nat)
      by (destruct ids; [contradiction | simpl; lia]).
    set (i := Js.js_or (current_problem_index p) 0) in *.
    assert (Hat : at_index ids
                    (if Z.of_nat (List.length ids) <=? i
                     then Z.of_nat (List.length ids) - 1 else i)
                  = nth_error ids (Nat.min (Z.to_nat i) (List.length ids - 1))).
    { unfold at_index.
      destruct (Z.leb_spec (Z.of_nat (List.length ids)) i) as [Hge | Hlt].
      - destruct (Z.ltb_spec (Z.of_nat (List.length ids) - 1) 0); [lia |].
        f_equal. lia.
      - destruct (Z.ltb_spec i 0); [lia |]. f_equal. lia. }
    rewrite Hat.
    destruct (nth_error ids (Nat.min (Z.to_nat i) (List.length ids - 1)))
      as [id |] eqn:E.
    + exists id. split; [reflexivity |]. split; [eapply nth_error_In, E |].
      split; [reflexivity |]. intros Hid. unfold load.
      rewrite (problemIdToFetch_multi data currentUserId p ids Hp Hids Hne).
      fold i. rewrite Hat. destruct id; [contradiction | reflexivity].
    + apply nth_error_None in E. lia.
  - intros other H. unfold problemIdToFetch.
    destruct H as [-> | [-> | ->]]; [reflexivity | |];
      now destruct (currentPlayer other currentUserId).
  - intros other H. unfold load. now rewrite H.
Qed.

End ChoiceFacts.

(** An instance: a player who has finished all three problems. *)
Lemma resumed_problem_is_in_match_witness :
  exists id : string,
    ProblemChoice.problemIdToFetch
      (ProblemChoice.mkData None
         (Some [ProblemChoice.mkEntry "u1" (Some 3)]) None None
         (Some ["p1"; "p2"; "p3"]%string)) "u1" = Some id
    /\ In id ["p1"; "p2"; "p3"]%string
    /\ nth_error ["p1"; "p2"; "p3"]%string 2 = Some id
    /\ (id <> ""%string ->
        ProblemChoice.load
          (ProblemChoice.mkData None
             (Some [ProblemChoice.mkEntry "u1" (Some 3)]) None None
             (Some ["p1"; "p2"; "p3"]%string)) "u1"
        = ProblemChoice.FetchProblem id).
Proof.
  apply (resumed_problem_is_in_match
           (ProblemChoice.mkData None
              (Some [ProblemChoice.mkEntry "u1" (Some 3)]) None None
              (Some ["p1"; "p2"; "p3"]%string))
           "u1" (ProblemChoice.mkEntry "u1" (Some 3))
           ["p1"; "p2"; "p3"]%string);
    [reflexivity | reflexivity | discriminate | simpl; lia].
Defined.

(* ================================================================== *)
(** ** Light and dark *)

Section ThemeFacts.
Import Theme.

Lemma applyTheme_in_step (t : string) (d : Document) (st : Storage) :
  in_step (mkState t (applyTheme t d) st).
Proof.
  unfold in_step, applyTheme. simpl.
  destruct (String.eqb t "light"); split; reflexivity.
Qed.

Lemma toggle_theme (s : State) :
  theme (toggleTheme s)
  = if String.eqb (theme s) "dark" then "light"%string else "dark"%string.
Proof. reflexivity. Qed.

(** X15: after any toggle, and after mounting with a storage that can be
    read, the look of the page agrees with the theme: the root element
    carries the light-theme class, and the colour scheme is light, exactly
    when the theme is "light", and the page's own check finds it dark
    exactly when it is not.  A toggle from dark gives light and a toggle
    from anything else gives dark, so after the first toggle the theme
    alternates between the two. *)
Theorem look_follows_theme (s : State) :
  in_step (toggleTheme s)
  /\ (throws (storage s) = false -> in_step (mount s))
  /\ isDark (document (toggleTheme s))
     = negb (String.eqb (theme (toggleTheme s)) "light")
  /\ (theme (toggleTheme s) = "light"%string <-> theme s = "dark"%string)
  /\ (theme (toggleTheme s) = "dark"%string <-> theme s <> "dark"%string)
  /\ theme (toggleTheme (toggleTheme (toggleTheme s))) = theme (toggleTheme s)
  /\ (throws (storage s) = true -> mount s = s).
Proof.
  split; [apply applyTheme_in_step |].
  split.
  { intros Hst. unfold mount. rewrite Hst. apply applyTheme_in_step. }
  split.
  { destruct (applyTheme_in_step
                (theme (toggleTheme s)) (document s) (storage (toggleTheme s)))
      as [Hclass _].
    unfold isDark. simpl in *. now rewrite Hclass. }
  rewrite !toggle_theme.
  destruct (String.eqb_spec (theme s) "dark") as [Hd | Hd].
  - split; [split; auto |]. split; [split; [discriminate | contradiction] |].
    split; [reflexivity |]. intros Hst. unfold mount. now rewrite Hst.
  - split; [split; [discriminate | contradiction] |].
    split; [split; auto |].
    split; [reflexivity |]. intros Hst. unfold mount. now rewrite Hst.
Qed.

Lemma toggleTheme_saved (s : State) :
  throws (storage s) = false ->
  storage (toggleTheme s) = mkStorage (Some (theme (toggleTheme s))) false.
Proof. intros H. unfold toggleTheme. now rewrite H. Qed.

Lemma toggles_last (n : nat) (s : State) :
  toggles (S n) s = toggleTheme (toggles n s).
Proof.
  revert s. induction n as [| n IH]; intros s; [reflexivity |].
  change (toggles (S (S n)) s) with (toggles (S n) (toggleTheme s)).
  now rewrite IH.
Qed.

Lemma toggles_storage_works (n : nat) (s : State) :
  throws (storage s) = false -> throws (storage (toggles n s)) = false.
Proof.
  revert s. induction n as [| n IH]; intros s H; [exact H |].
  simpl. apply IH. rewrite toggleTheme_saved by exact H. reflexivity.
Qed.

(** X16: with a storage that works, the theme chosen by toggling survives
    a reload: after at least one toggle the stored item is the current
    theme, one of "dark" and "light", and a newly loaded page that mounts
    with that storage, whatever its document looked like before, has the
    same theme and the same look as the page that was left. *)
Theorem theme_survives_reload (n : nat) (s : State) :
  throws (storage s) = false ->
  let left := toggles (S n) s in
  item (storage left) = Some (theme left)
  /\ (forall d : Document, mount (mkState "dark" d (storage left)) = left)
  /\ mount (fresh (storage left)) = left
  /\ (theme left = "dark"%string \/ theme left = "light"%string).
Proof.
  intros Hst. cbv zeta. rewrite toggles_last.
  pose proof (toggles_storage_works n s Hst) as Hworks.
  set (before := toggles n s) in *.
  pose proof (toggleTheme_saved before Hworks) as Hsaved.
  assert (Hany : forall d : Document,
            mount (mkState "dark" d (storage (toggleTheme before)))
            = toggleTheme before).
  { intros d. unfold mount. cbn [storage]. rewrite Hsaved. cbn [throws item].
    unfold toggleTheme. rewrite Hworks. cbn [theme].
    destruct (String.eqb (theme before) "dark"); reflexivity. }
  split; [now rewrite Hsaved |]. split; [exact Hany |].
  split; [apply Hany |].
  rewrite toggle_theme. destruct (String.eqb (theme before) "dark"); auto.
Qed.

End ThemeFacts.

(** An instance: three toggles from a page that was dark. *)
Lemma theme_survives_reload_witness :
  Theme.item (Theme.storage
                (Theme.toggles 3 (Theme.fresh (Theme.mkStorage None false))))
  = Some (Theme.theme
            (Theme.toggles 3 (Theme.fresh (Theme.mkStorage None false))))
  /\ (forall d : Theme.Document,
         Theme.mount
           (Theme.mkState "dark" d
              (Theme.storage
                 (Theme.toggles 3 (Theme.fresh (Theme.mkStorage None false)))))
         = Theme.toggles 3 (Theme.fresh (Theme.mkStorage None false)))
  /\ Theme.mount
       (Theme.fresh
          (Theme.storage
             (Theme.toggles 3 (Theme.fresh (Theme.mkStorage None false)))))
     = Theme.toggles 3 (Theme.fresh (Theme.mkStorage None false))
  /\ (Theme.theme (Theme.toggles 3 (Theme.fresh (Theme.mkStorage None false)))
      = "dark"%string
      \/ Theme.theme
           (Theme.toggles 3 (Theme.fresh (Theme.mkStorage None false)))
         = "light"%string).
Proof.
  apply (theme_survives_reload 2 (Theme.fresh (Theme.mkStorage None false))).
  reflexivity.
Defined.

(* ================================================================== *)
(** ** The execution poll, once it has ended *)

Section PollFinal.
Import Polling.
Local Opaque maxAttempts.

Lemma step_keeps_resolution (s : PollState) (e : Event) (r : Resolution) :
  resolved s = Some r -> resolved (step s e) = Some r.
Proof.
  intros Hr. destruct e as [| a]; simpl.
  - now destruct (intervalActive s).
  - destruct (inflight s); [exact Hr |].
    destruct a; simpl; try destruct (maxAttempts <=? _)%nat; simpl;
      rewrite ?Hr; reflexivity.
Qed.

Lemma step_cleared (s : PollState) (e : Event) :
  intervalActive s = false ->
  intervalActive (step s e) = false
  /\ fetches (step s e) = fetches s
  /\ (inflight (step s e) <= inflight s)%nat.
Proof.
  intros Ha. destruct e as [| a]; simpl.
  - rewrite Ha. auto.
  - destruct (inflight s) as [| n] eqn:E.
    + repeat split; auto; lia.
    + destruct a; simpl; try destruct (maxAttempts <=? _)%nat; simpl;
        rewrite ?Ha; repeat split; auto; lia.
Qed.

(** X17: the outcome of an execution poll is final.  Whatever answers
    arrive later, and however often the interval would still fire, a
    promise that has been resolved keeps its value (the first resolution
    wins), an interval that has been cleared stays cleared, and no further
    request is sent; the requests still under way can only be answered. *)
Theorem poll_outcome_is_final (s : PollState) (es : list Event) :
  (forall r : Resolution,
      resolved s = Some r -> resolved (run s es) = Some r)
  /\ (intervalActive s = false ->
      intervalActive (run s es) = false
      /\ fetches (run s es) = fetches s
      /\ (inflight (run s es) <= inflight s)%nat).
Proof.
  split.
  - revert s. induction es as [| e es IH]; intros s r Hr; [exact Hr |].
    simpl. apply IH. now apply step_keeps_resolution.
  - revert s. induction es as [| e es IH]; intros s Ha; [auto |].
    simpl. destruct (step_cleared s e Ha) as (Ha' & Hf & Hi).
    destruct (IH _ Ha') as (H1 & H2 & H3). repeat split; auto; lia.
Qed.

End PollFinal.

(* ================================================================== *)
(** ** The range of a score *)

Section ScoreRange.
Import Binary64 Scoring.
Local Open Scope Q_scope.

(** With fewer than all of at most 2^53 tests passed, the share rounds to
    a double under 1, and its product with 100 to a double under 100. *)
Lemma test_score_short (passed_tests total_tests : nat) (score : Z) :
  (passed_tests < total_tests)%nat ->
  (Z.of_nat total_tests <= 2 ^ 53)%Z ->
  test_score passed_tests total_tests = Some score -> (score <= 99)%Z.
Proof.
  intros Hlt Hbound. unfold test_score, true_div.
  destruct (Z.eqb_spec (Z.of_nat total_tests) 0) as [E | _]; [lia |].
  assert (Hpos : 0 < inject_Z (Z.of_nat total_tests))
    by (unfold Qlt; simpl; lia).
  assert (Hx : inject_Z (Z.of_nat passed_tests) / inject_Z (Z.of_nat total_tests)
               <= 1 - pow2 (-53)).
  { apply Qle_shift_div_r; [exact Hpos |].
    assert (H1 : inject_Z (Z.of_nat passed_tests) + 1
                 <= inject_Z (Z.of_nat total_tests)).
    { change 1 with (inject_Z 1). rewrite <- inject_Z_plus, <- Zle_Qle. lia. }
    assert (H2 : pow2 (-53) * inject_Z (Z.of_nat total_tests) <= 1).
    { assert (H3 : inject_Z (Z.of_nat total_tests) <= inject_Z (2 ^ 53))
        by (rewrite <- Zle_Qle; exact Hbound).
      assert (H4 : pow2 (-53) * inject_Z (2 ^ 53) == 1) by reflexivity.
      assert (H5 : 0 <= pow2 (-53)) by (vm_compute; discriminate).
      rewrite <- H4. rewrite !(Qmult_comm (pow2 (-53))).
      now apply Qmult_le_compat_r. }
    lra. }
  pose proof (round_mono _ _ Hx) as Hr.
  assert (E1 : round (1 - pow2 (-53)) = Finite (1 - pow2 (-53)))
    by (vm_compute; reflexivity).
  rewrite E1 in Hr.
  set (r := round (inject_Z (Z.of_nat passed_tests)
                   / inject_Z (Z.of_nat total_tests))) in *.
  destruct r as [q | | |]; [| intros; discriminate ..].
  intros Hs.
  assert (Hm : dle (fmul (Finite q) (Finite 100))
                   (fmul (Finite (1 - pow2 (-53))) (Finite 100)))
    by (apply fmul_mono; [reflexivity | exact Hr]).
  apply (to_int_mono _ _ score 99 Hm Hs).
  vm_compute. reflexivity.
Qed.

(** Between the start and the time limit the bonus exists and lies
    between 0 and 50. *)
Lemma bonus_range (r : double) :
  dle (Finite 0) r -> dle r (Finite 1) ->
  exists b, to_int (fmul (fsub (Finite 1) r) (Finite 50)) = Some b
            /\ (0 <= b <= 50)%Z.
Proof.
  intros H0 H1. apply to_int_between.
  - change (Finite (inject_Z 0))
      with (fmul (fsub (Finite 1) (Finite 1)) (Finite 50)).
    now apply bonus_float_anti.
  - change (Finite (inject_Z 50))
      with (fmul (fsub (Finite 1) (Finite 0)) (Finite 50)).
    now apply bonus_float_anti.
Qed.

Lemma bonus_at_limit (time_elapsed time_limit : Q) :
  0 < time_limit -> time_elapsed == time_limit ->
  to_int (fmul (fsub (Finite 1) (round (time_elapsed / time_limit)))
               (Finite 50)) = Some 0%Z.
Proof.
  intros Hl He.
  assert (E : round (time_elapsed / time_limit) = Finite 1).
  { change (Finite 1) with (round 1). apply round_comp.
    rewrite He. field. lra. }
  rewrite E. reflexivity.
Qed.

(** X18: with at least one test, a positive time limit and a ratio of
    elapsed time to time limit of at most 2^1000, a submission that passes
    no more tests than there are has a test score and a final score.  The
    test score lies between 0 and 100; it is 100 when all tests pass, and,
    with at most 2^53 tests, only then.  Submitted between the start and
    the time limit, the submission earns a bonus between 0 and 50 and ends
    between its test score and 150 points; submitted exactly at the time
    limit it earns no bonus; submitted after the time limit its bonus is
    not positive, so that it ends at or below its test score. *)
Theorem score_within_bounds
    (passed_tests total_tests : nat) (time_elapsed time_limit : Q) :
  (passed_tests <= total_tests)%nat -> total_tests <> O ->
  0 < time_limit -> 0 <= time_elapsed ->
  time_elapsed / time_limit <= pow2 1000 ->
  exists (score : Z) (s : Scored),
    test_score passed_tests total_tests = Some score
    /\ score_submission passed_tests total_tests time_elapsed time_limit
       = Some s
    /\ (0 <= score <= 100)%Z
    /\ (passed_tests = total_tests -> score = 100%Z)
    /\ ((Z.of_nat total_tests <= 2 ^ 53)%Z -> score = 100%Z ->
        passed_tests = total_tests)
    /\ (time_elapsed <= time_limit ->
        (0 <= time_bonus s <= 50)%Z
        /\ (score <= final_score s <= 150)%Z)
    /\ (time_elapsed == time_limit ->
        time_bonus s = 0%Z /\ final_score s = score)
    /\ (time_limit < time_elapsed ->
        (time_bonus s <= 0)%Z /\ (final_score s <= score)%Z).
Proof.
  intros Hle Ht Hlimit Helapsed Hcap.
  assert (Hl : ~ time_limit == 0) by lra.
  destruct (test_score_range passed_tests total_tests Ht Hle)
    as (score & Hscore & Hrange).
  assert (Hr0 : dle (Finite 0) (round (time_elapsed / time_limit)))
    by now apply ratio_nonneg.
  assert (Hfull : passed_tests = total_tests -> score = 100%Z).
  { intros E. rewrite E, (test_score_all total_tests Ht) in Hscore.
    congruence. }
  assert (Hshort : (Z.of_nat total_tests <= 2 ^ 53)%Z -> score = 100%Z ->
                   passed_tests = total_tests).
  { intros Hbound H100.
    destruct (Nat.eq_dec passed_tests total_tests) as [E | Hne]; auto.
    assert (score <= 99)%Z
      by (apply (test_score_short passed_tests total_tests); auto; lia).
    lia. }
  exists score.
  rewrite (score_submission_value _ _ _ _ score Hscore Hl).
  destruct (Z.ltb_spec 0 score) as [Hgate | Hgate].
  - assert (Hdef : exists b,
               to_int (fmul (fsub (Finite 1)
                                  (round (time_elapsed / time_limit)))
                            (Finite 50)) = Some b).
    { apply bonus_defined.
      - apply (dle_trans _ (Finite 0)); [| exact Hr0].
        vm_compute. discriminate.
      - apply ratio_bounded; [| exact Hcap].
        apply Qle_trans with 0; [vm_compute; discriminate |].
        apply Qle_shift_div_l; [exact Hlimit | lra]. }
    destruct Hdef as (b & Hb).
    exists (mkScored b (score + b)).
    split; [exact Hscore |].
    split.
    { unfold apply_time_bonus. destruct (Z.ltb_spec 0 score); [| lia].
      now rewrite Hb. }
    split; [exact Hrange |]. split; [exact Hfull |]. split; [exact Hshort |].
    cbn [time_bonus final_score]. split; [| split].
    + intros Hin.
      assert (0 <= b)%Z
        by (apply (bonus_ge_0 _ _ (ratio_le_one _ _ Hlimit Hin) Hb)).
      assert (b <= 50)%Z by (apply (bonus_le_50 _ _ Hr0 Hb)).
      lia.
    + intros Heq. rewrite (bonus_at_limit _ _ Hlimit Heq) in Hb.
      injection Hb as <-. lia.
    + intros Hlate.
      assert (b <= 0)%Z.
      { apply (bonus_le_0 (round (time_elapsed / time_limit))); [| exact Hb].
        apply ratio_ge_one; [exact Hlimit | lra]. }
      lia.
  - exists (mkScored 0 0).
    split; [exact Hscore |].
    split; [now apply time_bonus_gated |].
    split; [exact Hrange |]. split; [exact Hfull |]. split; [exact Hshort |].
    cbn [time_bonus final_score]. repeat split; lia.
Qed.

(** X19: within the time limit, passing more of the same tests, or
    submitting sooner, never lowers the final score. *)
Theorem more_tests_or_sooner_never_scores_less
    (passed_tests more_passed total_tests : nat)
    (sooner later time_limit : Q) :
  total_tests <> O -> 0 < time_limit ->
  (passed_tests <= more_passed)%nat -> (more_passed <= total_tests)%nat ->
  0 <= sooner -> sooner <= later -> later <= time_limit ->
  exists s s' : Scored,
    score_submission passed_tests total_tests later time_limit = Some s
    /\ score_submission more_passed total_tests sooner time_limit = Some s'
    /\ (final_score s <= final_score s')%Z
    /\ (0 <= final_score s)%Z.
Proof.
  intros Ht Hlimit Hmore Hall Hs Hsl Hll.
  assert (Hl : ~ time_limit == 0) by lra.
  destruct (test_score_range passed_tests total_tests Ht) as (sc & Hsc & Hr);
    [lia |].
  destruct (test_score_range more_passed total_tests Ht Hall)
    as (sc' & Hsc' & Hr').
  pose proof (test_score_mono _ _ _ _ _ Hmore Hsc Hsc') as Hmono.
  rewrite (score_submission_value _ _ _ _ sc Hsc Hl).
  rewrite (score_submission_value _ _ _ _ sc' Hsc' Hl).
  assert (Hrr : dle (round (sooner / time_limit)) (round (later / time_limit))).
  { apply round_mono. unfold Qdiv. apply Qmult_le_compat_r; [exact Hsl |].
    apply Qlt_le_weak. now apply Qinv_lt_0_compat. }
  destruct (bonus_range (round (later / time_limit))) as (b & Hb & Hbr).
  { apply ratio_nonneg; lra. }
  { now apply ratio_le_one. }
  destruct (bonus_range (round (sooner / time_limit))) as (b' & Hb' & Hbr').
  { now apply ratio_nonneg. }
  { apply ratio_le_one; lra. }
  pose proof (to_int_mono _ _ b b' (bonus_float_anti _ _ Hrr) Hb Hb') as Hbb.
  unfold apply_time_bonus. rewrite Hb, Hb'.
  destruct (Z.ltb_spec 0 sc); destruct (Z.ltb_spec 0 sc');
    eexists; eexists; (split; [reflexivity |]); (split; [reflexivity |]);
    cbn [final_score]; lia.
Qed.

End ScoreRange.

(** An instance: two of three tests, two minutes into ten. *)
Lemma score_within_bounds_witness :
  exists (score : Z) (s : Scoring.Scored),
    Scoring.test_score 2 3 = Some score
    /\ Scoring.score_submission 2 3 (120 # 1) (600 # 1) = Some s
    /\ score = 66
    /\ Scoring.final_score s = 106.
Proof.
  destruct (score_within_bounds 2 3 (120 # 1) (600 # 1))
    as (score & s & Hscore & Hs & _);
    [lia | discriminate | reflexivity | discriminate
     | vm_compute; discriminate |].
  exists score, s. split; [exact Hscore |]. split; [exact Hs |].
  vm_compute in Hscore. vm_compute in Hs.
  injection Hscore as <-. injection Hs as <-. split; reflexivity.
Defined.

(** An instance: one test more and a minute sooner. *)
Lemma more_tests_or_sooner_never_scores_less_witness :
  exists s s' : Scoring.Scored,
    Scoring.score_submission 2 3 (120 # 1) (600 # 1) = Some s
    /\ Scoring.score_submission 3 3 (60 # 1) (600 # 1) = Some s'
    /\ Scoring.final_score s <= Scoring.final_score s'
    /\ 0 <= Scoring.final_score s.
Proof.
  apply (more_tests_or_sooner_never_scores_less
           2 3 3 (60 # 1) (120 # 1) (600 # 1));
    try reflexivity; try discriminate; lia.
Defined.

(* ================================================================== *)
(** ** Submissions in a row *)

Section SubmissionFacts.
Import SubmitFlow Submissions.

Lemma response_effect (forceSubmit : bool) (data : SubmitResponse) (p : Page) :
  let p' := handleSubmitResponse forceSubmit data p in
  loading p' = false
  /\ (matchCompleted p = true -> matchCompleted p' = true)
  /\ (matchCompleted p = finalResultsSet p ->
      matchCompleted p' = finalResultsSet p')
  /\ (forceSubmit = true ->
      showValidationDialog p' = showValidationDialog p
      /\ validationError p' = validationError p)
  /\ (problemsLoaded p <= problemsLoaded p')%nat
  /\ (fetchMatchCalls p <= fetchMatchCalls p')%nat
  /\ (problemsLoaded p' + fetchMatchCalls p'
      <= S (problemsLoaded p + fetchMatchCalls p))%nat
  /\ (matchCompleted p = false -> matchCompleted p' = true ->
      validation_failed data && negb forceSubmit = false
      /\ next_problem data = false
      /\ winner_id data || winners data = true).
Proof.
  unfold handleSubmitResponse. cbv zeta.
  destruct (validation_failed data && negb forceSubmit) eqn:Ev.
  - simpl. repeat split; auto; try lia; try congruence;
      subst forceSubmit; destruct (validation_failed data); discriminate.
  - destruct (next_problem data) eqn:En.
    + simpl. repeat split; auto; try lia; congruence.
    + destruct (all_problems_complete data && negb (winner_id data)
                && negb (winners data)) eqn:Ea.
      * simpl. repeat split; auto; try lia; congruence.
      * destruct (winner_id data || winners data) eqn:Ew;
          simpl; repeat split; auto; try lia; congruence.
Qed.

(** X20: through any row of submissions and their responses, a match that
    the page has shown as completed stays completed, and the leaderboard
    is set exactly when the match is; a forced submission (the one sent
    when the time is up) never opens the validation dialog, whatever the
    validation says; every response ends the loading state; and each
    response starts at most one of the two follow-ups, loading the next
    problem or fetching the match again. *)
Theorem submissions_keep_page_consistent
    (rs : list (bool * SubmitResponse)) (p : Page) :
  let p' := afterResponses rs p in
  (matchCompleted p = true -> matchCompleted p' = true)
  /\ (matchCompleted p = finalResultsSet p ->
      matchCompleted p' = finalResultsSet p')
  /\ (rs <> [] -> loading p' = false)
  /\ (Forall (fun r => fst r = true) rs ->
      showValidationDialog p' = showValidationDialog p
      /\ validationError p' = validationError p)
  /\ (problemsLoaded p' + fetchMatchCalls p'
      <= List.length rs + (problemsLoaded p + fetchMatchCalls p))%nat
  /\ (matchCompleted p = false -> matchCompleted p' = true ->
      exists r, In r rs /\ winner_id (snd r) || winners (snd r) = true).
Proof.
  cbv zeta. revert p. induction rs as [| [force data] rs IH]; intros p.
  - simpl. repeat split; auto; try lia; try congruence.
  - change (afterResponses ((force, data) :: rs) p)
      with (afterResponses rs (handleSubmitResponse force data p)).
    pose proof (response_effect force data p) as Hstep. cbv zeta in Hstep.
    destruct Hstep as (Hl & Hc & Hf & Hd & Hp1 & Hp2 & Hsum & Hwin).
    destruct (IH (handleSubmitResponse force data p))
      as (IHc & IHf & IHl & IHd & IHsum & IHwin).
    split; [auto |]. split; [auto |]. split.
    { intros _. destruct rs as [| r rs']; [exact Hl |].
      apply IHl. discriminate. }
    split.
    { intros Hall. inversion Hall as [| ? ? Hforce Hrest]; subst.
      simpl in Hforce. destruct (Hd Hforce) as [Hd1 Hd2].
      destruct (IHd Hrest) as [Hr1 Hr2]. split; congruence. }
    split; [simpl; lia |].
    intros Hopen Hdone.
    destruct (matchCompleted (handleSubmitResponse force data p)) eqn:E.
    + exists (force, data). split; [now left |].
      destruct (Hwin Hopen eq_refl) as (_ & _ & Hw). exact Hw.
    + destruct (IHwin eq_refl Hdone) as (r & Hr & Hw).
      exists r. split; [now right | exact Hw].
Qed.

End SubmissionFacts.

(* ================================================================== *)
(** ** The base URL of the API *)

Section ApiFacts.
Import Api.

Lemma portAtFront_dash (s after : string) :
  portAtFront s = Some after -> exists x, s = String "-" x.
Proof.
  destruct s as [| c0 s]; [discriminate |].
  unfold portAtFront. cbn [eat].
  destruct (Ascii.eqb_spec "-" c0) as [<- | Hc]; [| discriminate].
  intros _. eexists. reflexivity.
Qed.

Lemma portAtFront_8000 (after : string) :
  portAtFront ("-8000." ++ after) = Some after.
Proof. reflexivity. Qed.

(** Whether the pattern matches at the front of a text with a hyphen in it
    does not depend on what follows the hyphen, unless the hyphen comes
    first. *)
Lemma portAtFront_upto_dash (p x y : string) :
  p <> EmptyString ->
  portAtFront (p ++ String "-" x) = None ->
  portAtFront (p ++ String "-" y) = None.
Proof.
  intros Hp. destruct p as [| c0 p]; [contradiction |]. clear Hp.
  unfold portAtFront. cbn [append eat].
  destruct (Ascii.eqb "-" c0); [| reflexivity].
  do 6 (try (destruct p as [| ? p]; cbn [append eat];
             change (isDigit "-") with false;
             change (Ascii.eqb "." "-") with false; cbv iota;
             repeat match goal with
                    | |- context [if ?b then _ else _] => destruct b
                    end;
             auto; try discriminate)).
Qed.

Lemma replacePort_step (s : string) :
  replacePort s
  = match portAtFront s with
    | Some after => Some ("-8000." ++ after)%string
    | None =>
        match s with
        | EmptyString => None
        | String c s' =>
            match replacePort s' with
            | Some r => Some (String c r)
            | None => None
            end
        end
    end.
Proof. destruct s; reflexivity. Qed.

Lemma replacePort_shape (t r : string) :
  replacePort t = Some r ->
  exists pre x y,
    t = (pre ++ String "-" x)%string /\ r = (pre ++ String "-" y)%string.
Proof.
  revert r. induction t as [| c t IH]; intros r; rewrite replacePort_step.
  - simpl. discriminate.
  - destruct (portAtFront (String c t)) as [after |] eqn:E.
    + intros [= <-]. destruct (portAtFront_dash _ _ E) as (x & Hx).
      exists EmptyString, x, ("8000." ++ after)%string.
      split; [exact Hx | reflexivity].
    + destruct (replacePort t) as [r' |]; [| discriminate].
      intros [= <-]. destruct (IH r' eq_refl) as (pre & x & y & Ht & Hr).
      exists (String c pre), x, y. simpl. split; congruence.
Qed.

Lemma replacePort_fixed (t r : string) :
  replacePort t = Some r -> replacePort r = Some r.
Proof.
  revert r. induction t as [| c t IH]; intros r; rewrite replacePort_step.
  - simpl. discriminate.
  - destruct (portAtFront (String c t)) as [after |] eqn:E.
    + intros [= <-]. rewrite replacePort_step. reflexivity.
    + destruct (replacePort t) as [r' |] eqn:Et; [| discriminate].
      intros [= <-]. rewrite replacePort_step.
      destruct (replacePort_shape t r' Et) as (pre & x & y & Ht & Hr).
      assert (Hnone : portAtFront (String c r') = None).
      { rewrite Hr. change (String c (pre ++ String "-" y))
          with ((String c pre) ++ String "-" y)%string.
        apply (portAtFront_upto_dash (String c pre) x y); [discriminate |].
        simpl. rewrite <- Ht. exact E. }
      rewrite Hnone, (IH r' eq_refl). reflexivity.
Qed.

Lemma replacePort_prefix (pre s r : string) :
  Js.includes pre "-" = false ->
  replacePort s = Some r ->
  replacePort (pre ++ s) = Some (pre ++ r)%string.
Proof.
  intros Hpre Hs. induction pre as [| c pre IH]; [exact Hs |].
  unfold Js.includes in Hpre. simpl in Hpre.
  apply orb_false_iff in Hpre. destruct Hpre as [Hc Hpre].
  change (String c pre ++ s)%string with (String c (pre ++ s)).
  rewrite replacePort_step.
  assert (Hnone : portAtFront (String c (pre ++ s)) = None).
  { destruct (portAtFront (String c (pre ++ s))) as [after |] eqn:E; auto.
    destruct (portAtFront_dash _ _ E) as (x & [= -> _]).
    simpl in Hc. discriminate. }
  rewrite Hnone, (IH Hpre). reflexivity.
Qed.

Lemma includes_app (a b : string) (c : ascii) :
  Js.includes (a ++ b) c = Js.includes a c || Js.includes b c.
Proof.
  unfold Js.includes. induction a as [| x a IH]; simpl; [reflexivity |].
  now rewrite IH, orb_assoc.
Qed.

(** X21: the base URL of the API.  A non-empty VITE_API_URL wins over
    everything else.  Without it, a page served from localhost or
    127.0.0.1, or running without a window, talks to
    http://localhost:8000.  A page reached through a forwarded port, whose
    host name has the port after the first hyphen (four or five digits and
    a dot), talks to the same host with the port replaced by 8000, over
    the page's own protocol.  The rewritten host name again has a port to
    replace, and replacing it changes nothing. *)
Theorem getApiBase_chooses_backend (env : Env) :
  (forall url : string,
      VITE_API_URL env = Some url -> url <> EmptyString ->
      getApiBase env = url)
  /\ (Js.truthy_str (VITE_API_URL env) = false ->
      (window env = None -> getApiBase env = localBackend)
      /\ (forall location : Location,
             window env = Some location ->
             hostname location = "localhost"%string
             \/ hostname location = "127.0.0.1"%string ->
             getApiBase env = localBackend)
      /\ (forall (location : Location) (pre port rest : string),
             window env = Some location ->
             hostname location = (pre ++ "-" ++ port ++ "." ++ rest)%string ->
             Js.includes pre "-" = false ->
             forallb isDigit (list_ascii_of_string port) = true ->
             String.length port = 4%nat \/ String.length port = 5%nat ->
             includes "vercel.app" (hostname location) = false ->
             includes "netlify.app" (hostname location) = false ->
             getApiBase env
             = (protocol location ++ "//" ++ pre ++ "-8000." ++ rest)%string))
  /\ (forall host backendHostname : string,
         replacePort host = Some backendHostname ->
         replacePort backendHostname = Some backendHostname).
Proof.
  split; [| split].
  - intros url Hurl Hne. unfold getApiBase. rewrite Hurl.
    destruct url; [contradiction | reflexivity].
  - intros Henv. unfold getApiBase. rewrite Henv. split; [| split].
    + intros ->. reflexivity.
    + intros location -> [-> | ->]; reflexivity.
    + intros location pre port rest -> Hhost Hpre Hdigits Hlen Hv Hn.
      rewrite Hv, Hn.
      assert (Hdash : Js.includes (hostname location) "-" = true).
      { rewrite Hhost, includes_app. simpl. apply orb_true_r. }
      assert (Hl1 : String.eqb (hostname location) "localhost" = false).
      { apply String.eqb_neq. intros H. rewrite H in Hdash. discriminate. }
      assert (Hl2 : String.eqb (hostname location) "127.0.0.1" = false).
      { apply String.eqb_neq. intros H. rewrite H in Hdash. discriminate. }
      rewrite Hl1, Hl2. cbn [negb andb].
      assert (Hfront : replacePort ("-" ++ port ++ "." ++ rest)
                       = Some ("-8000." ++ rest)%string).
      { destruct port as [| d1 [| d2 [| d3 [| d4 [| d5 [| d6 port]]]]]];
          simpl in Hlen; try (destruct Hlen; discriminate).
        - simpl in Hdigits. rewrite !andb_true_iff in Hdigits.
          destruct Hdigits as (H1 & H2 & H3 & H4 & _).
          rewrite replacePort_step. unfold portAtFront.
          repeat (progress (cbn [append eat];
                            change (isDigit ".") with false;
                            rewrite ?Ascii.eqb_refl, ?H1, ?H2, ?H3, ?H4)).
          reflexivity.
        - simpl in Hdigits. rewrite !andb_true_iff in Hdigits.
          destruct Hdigits as (H1 & H2 & H3 & H4 & H5 & _).
          rewrite replacePort_step. unfold portAtFront.
          repeat (progress (cbn [append eat];
                            rewrite ?Ascii.eqb_refl, ?H1, ?H2, ?H3, ?H4, ?H5)).
          reflexivity. }
      rewrite Hhost, (replacePort_prefix pre _ _ Hpre Hfront). reflexivity.
  - apply replacePort_fixed.
Qed.

End ApiFacts.

(* ================================================================== *)
(** ** More worked examples *)

Example clock_one_minute_five : Clock.formatTime 65 = Some "01:05"%string.
Proof. reflexivity. Qed.

Example clock_quarter_hour : Clock.formatTime 900 = Some "15:00"%string.
Proof. reflexivity. Qed.

Example clock_long_match : Clock.formatTime 6000 = Some "100:00"%string.
Proof. reflexivity. Qed.

Example clock_short_limit_before_guard :
  let m := Client.mkMatch "active" (Some 5) (Some "2023-11-14T22:13:20"%string) in
  Clock.formatTime (Clock.timeRemaining m 7) = Some "00:00"%string
  /\ Client.timeoutCheck (Some m) (Some "2023-11-14T22:13:20"%string) false
                         (Some 7) = false.
Proof. split; reflexivity. Qed.

Example move_last_line_down :
  Shuffle.handleLineMove Z 0 2 "down" [1; 2; 3] = [1; 2; 3].
Proof. reflexivity. Qed.

Example move_first_line_down :
  Shuffle.handleLineMove Z 0 0 "down" [1; 2; 3] = [2; 1; 3].
Proof. reflexivity. Qed.

Example drag_last_to_front :
  Shuffle.handleDragEnd Z 0 3 (Some 0%nat) [1; 2; 3; 4] = [4; 1; 2; 3].
Proof. reflexivity. Qed.

Example drafts_add_fill_remove :
  fold_left TestMaster.apply
    [TestMaster.Add;
     TestMaster.Update 1 TestMaster.FieldInput [49%N];
     TestMaster.Remove 0]
    TestMaster.initial
  = [TestMaster.mkDraft [49%N] []].
Proof. reflexivity. Qed.

(** The text "a", backslash, "n", space, "b": the escaped line feed is
    replaced and the second line loses its single leading space. *)
Example sanitize_escaped_and_indented :
  Editor.sanitizeCode (Some [97; 92; 110; 32; 98]%N) = [97; 10; 98]%N.
Proof. reflexivity. Qed.

(** A line indented by three spaces is kept. *)
Example sanitize_keeps_three_spaces :
  Editor.sanitizeCode (Some [32; 32; 32; 98]%N) = [32; 32; 32; 98]%N.
Proof. reflexivity. Qed.

Example run_refuses_blank_lines :
  Editor.nothingArranged [[32; 32]%N; []; [9]%N] = true
  /\ Editor.nothingArranged [[32; 32]%N; [120]%N] = false.
Proof. split; reflexivity. Qed.

Example board_zero_score_row_shows_viewers_score :
  Leaderboard.rowScore (Ranking.mkPlayer "u2" "bob" (Some (0 # 1)) None)
                       (Ranking.Num (145 # 1))
  = Ranking.Num (145 # 1).
Proof. reflexivity. Qed.

Example choice_resumes_at_second_problem :
  ProblemChoice.load
    (ProblemChoice.mkData (Some "legacy"%string)
       (Some [ProblemChoice.mkEntry "u1" (Some 1)]) None None
       (Some ["p1"; "p2"; "p3"]%string)) "u1"
  = ProblemChoice.FetchProblem "p2"%string.
Proof. reflexivity. Qed.

Example choice_falls_back_to_single_problem :
  ProblemChoice.load
    (ProblemChoice.mkData (Some "legacy"%string) None
       (Some (ProblemChoice.mkEntry "u1" None)) None None) "u1"
  = ProblemChoice.FetchProblem "legacy"%string.
Proof. reflexivity. Qed.

Example theme_foreign_item_toggles_to_dark :
  let s := Theme.mount (Theme.fresh (Theme.mkStorage (Some "blue"%string) false)) in
  Theme.theme s = "blue"%string
  /\ Theme.isDark (Theme.document s) = true
  /\ Theme.theme (Theme.toggleTheme s) = "dark"%string.
Proof. repeat split. Qed.

Example api_forwarded_port :
  Api.getApiBase
    (Api.mkEnv None
       (Some (Api.mkLocation "abc-5173.app.github.dev" "https:")))
  = "https://abc-8000.app.github.dev"%string.
Proof. reflexivity. Qed.

Example api_six_digits_is_no_port :
  Api.getApiBase
    (Api.mkEnv None (Some (Api.mkLocation "abc-517300.example.dev" "https:")))
  = Api.localBackend.
Proof. reflexivity. Qed.

Example api_vercel_deployment :
  Api.getApiBase
    (Api.mkEnv (Some ""%string)
       (Some (Api.mkLocation "codo-ai.vercel.app" "https:")))
  = Api.renderBackend.
Proof. reflexivity. Qed.

Example api_env_wins :
  Api.getApiBase
    (Api.mkEnv (Some "https://api.example.org"%string)
       (Some (Api.mkLocation "codo-ai.vercel.app" "https:")))
  = "https://api.example.org"%string.
Proof. reflexivity. Qed.
